(** * Leader election simulator: node state machine and cluster transport

    A shallow embedding of [node.py] and [cluster.py].

    Conventions of the embedding:
    - Python ints that are identifiers, terms and counters are [nat]
      (they start at 0 and are only incremented or copied).
    - [time.time()] readings and durations in seconds are rationals [Q];
      every operation that reads the clock takes the reading [now] as an
      argument.
    - [random.randint(lo, hi)] is an input too: an operation that draws
      takes the drawn integer [r] (milliseconds) as an argument.
    - A message is the Python dict; keys that only some message kinds carry
      are optional fields.
    - [notify_observers] is modelled by its effect on the single observer a
      cluster registers: every operation returns, next to the new node, the
      notifications [(self.id, event)] it published, in order.
    - A node's thread is not part of its state; the cluster's scheduler
      interleaves whole operations. *)

From Stdlib Require Import QArith Lqa.
From stdpp Require Import base list strings.

Close Scope Q_scope.

(** ** Messages and events *)

Inductive NodeState := FOLLOWER | CANDIDATE | LEADER.

Definition NodeState_eqb (a b : NodeState) : bool :=
  match a, b with
  | FOLLOWER, FOLLOWER | CANDIDATE, CANDIDATE | LEADER, LEADER => true
  | _, _ => false
  end.

Definition Entry := unit.

(** The message dict.  ["type"], ["from"], ["to"] and ["term"] are always
    present; ["vote_granted"], ["entries"] and ["success"] only in some. *)
Record Message := mkMessage {
  m_type : string;
  m_from : nat;
  m_to : nat;
  m_term : nat;
  m_vote_granted : option bool;
  m_entries : option (list Entry);
  m_success : option bool }.

(** [message["from"] = node_id] on a copy of the dict. *)
Definition stamp_from (m : Message) (node_id : nat) : Message :=
  {| m_type := m_type m; m_from := node_id; m_to := m_to m; m_term := m_term m;
     m_vote_granted := m_vote_granted m; m_entries := m_entries m;
     m_success := m_success m |}.

(** The event kinds a node publishes, each with its data dict. *)
Inductive Event :=
| state_change (state : NodeState) (term : nat)
| message_sent (m : Message)
| node_failure (id : nat)
| node_restore (id : nat).

(** What an observer is called with: [(self.id, message_type, data)]. *)
Definition Notification : Type := nat * Event.

(** [x > y] on clock values. *)
Definition Qgtb (x y : Q) : bool := negb (Qle_bool x y).

(** [votes > nodes_count / 2]: Python's [/] is true division. *)
Definition exceeds_half (votes nodes_count : nat) : bool :=
  Qgtb (inject_Z (Z.of_nat votes)) (inject_Z (Z.of_nat nodes_count) / 2)%Q.

(** ** class Node *)

Module Node.

Record t := mk {
  id : nat;
  nodes_count : nat;
  state : NodeState;
  current_term : nat;
  voted_for : option nat;
  votes_received : nat;
  log : list Entry;
  election_timeout_range : Z * Z;
  election_timeout : Q;
  last_heartbeat : Q;
  message_queue : list Message;
  running : bool }.

Definition set_state (n : t) (s : NodeState) : t :=
  mk (id n) (nodes_count n) s (current_term n) (voted_for n) (votes_received n)
     (log n) (election_timeout_range n) (election_timeout n) (last_heartbeat n)
     (message_queue n) (running n).

Definition set_current_term (n : t) (term : nat) : t :=
  mk (id n) (nodes_count n) (state n) term (voted_for n) (votes_received n)
     (log n) (election_timeout_range n) (election_timeout n) (last_heartbeat n)
     (message_queue n) (running n).

Definition set_voted_for (n : t) (v : option nat) : t :=
  mk (id n) (nodes_count n) (state n) (current_term n) v (votes_received n)
     (log n) (election_timeout_range n) (election_timeout n) (last_heartbeat n)
     (message_queue n) (running n).

Definition set_votes_received (n : t) (v : nat) : t :=
  mk (id n) (nodes_count n) (state n) (current_term n) (voted_for n) v
     (log n) (election_timeout_range n) (election_timeout n) (last_heartbeat n)
     (message_queue n) (running n).

Definition set_election_timeout (n : t) (d : Q) : t :=
  mk (id n) (nodes_count n) (state n) (current_term n) (voted_for n) (votes_received n)
     (log n) (election_timeout_range n) d (last_heartbeat n)
     (message_queue n) (running n).

Definition set_last_heartbeat (n : t) (x : Q) : t :=
  mk (id n) (nodes_count n) (state n) (current_term n) (voted_for n) (votes_received n)
     (log n) (election_timeout_range n) (election_timeout n) x
     (message_queue n) (running n).

(** [self.message_queue.append(m)] *)
Definition message_queue_append (n : t) (m : Message) : t :=
  mk (id n) (nodes_count n) (state n) (current_term n) (voted_for n) (votes_received n)
     (log n) (election_timeout_range n) (election_timeout n) (last_heartbeat n)
     (message_queue n ++ [m]) (running n).

Definition set_running (n : t) (b : bool) : t :=
  mk (id n) (nodes_count n) (state n) (current_term n) (voted_for n) (votes_received n)
     (log n) (election_timeout_range n) (election_timeout n) (last_heartbeat n)
     (message_queue n) b.

Definition notify_observers (n : t) (e : Event) : list Notification := [(id n, e)].

(** [random.randint(lo, hi) / 1000], the draw being [r]. *)
Definition reset_election_timeout (r : Z) (n : t) : t :=
  set_election_timeout n (r # 1000).

(** [__init__]; [r] is the draw of the first timeout. *)
Definition init (node_id nodes_count : nat) (election_timeout_range : Z * Z)
    (r : Z) (now : Q) : t :=
  let n := mk node_id nodes_count FOLLOWER 0 None 0 [] election_timeout_range
              0%Q 0%Q [] true in
  let n := reset_election_timeout r n in
  set_last_heartbeat n now.

Definition stop (n : t) : t := set_running n false.

(** [for i in range(self.nodes_count): if i != self.id: body], the body
    appending to the queue and notifying. *)
Definition for_each_peer (body : t -> nat -> t * list Notification) (n : t)
    : t * list Notification :=
  foldl (fun acc i =>
           if i =? id acc.1 then acc
           else let '(n', evs) := body acc.1 i in (n', acc.2 ++ evs))
        (n, []) (seq 0 (nodes_count n)).

Definition request_votes (n : t) : t * list Notification :=
  for_each_peer (fun n i =>
    let n := message_queue_append n
      (mkMessage "request_vote" (id n) i (current_term n) None None None) in
    (n, notify_observers n (message_sent
      (mkMessage "request_vote" (id n) i (current_term n) None None None)))) n.

Definition send_heartbeats (n : t) : t * list Notification :=
  for_each_peer (fun n i =>
    let n := message_queue_append n
      (mkMessage "append_entries" (id n) i (current_term n) None (Some []) None) in
    (n, notify_observers n (message_sent
      (mkMessage "heartbeat" (id n) i (current_term n) None None None)))) n.

Definition start_election (now : Q) (r : Z) (n : t) : t * list Notification :=
  let n := set_state n CANDIDATE in
  let n := set_current_term n (current_term n + 1) in
  let n := set_voted_for n (Some (id n)) in
  let n := set_votes_received n 1 in
  let n := reset_election_timeout r n in
  let n := set_last_heartbeat n now in
  let evs := notify_observers n (state_change (state n) (current_term n)) in
  let '(n, evs') := request_votes n in
  (n, evs ++ evs').

(** One pass of the loop body of [run]; [current_time] is the reading at
    the top of the loop, [now] the one [start_election] takes. *)
Definition run_iteration (current_time now : Q) (r : Z) (n : t)
    : t * list Notification :=
  if NodeState_eqb (state n) LEADER then send_heartbeats n
  else if Qgtb (current_time - last_heartbeat n)%Q (election_timeout n)
       then start_election now r n
       else (n, []).

Definition handle_vote_request (now : Q) (message : Message) (n : t)
    : t * list Notification :=
  let term := m_term message in
  let candidate_id := m_from message in
  let '(n, evs) :=
    if current_term n <? term then
      let n := set_current_term n term in
      let n := set_state n FOLLOWER in
      let n := set_voted_for n None in
      (n, notify_observers n (state_change (state n) (current_term n)))
    else (n, []) in
  let '(n, grant_vote) :=
    if (current_term n <=? term)
       && match voted_for n with None => true | Some v => v =? candidate_id end
    then
      let n := set_voted_for n (Some candidate_id) in
      (set_last_heartbeat n now, true)
    else (n, false) in
  let n := message_queue_append n
    (mkMessage "vote_response" (id n) candidate_id (current_term n)
               (Some grant_vote) None None) in
  (n, evs ++ notify_observers n (message_sent
    (mkMessage "vote_response" (id n) candidate_id (current_term n)
               (Some grant_vote) None None))).

(** [None] is the [KeyError] of [message["vote_granted"]]. *)
Definition handle_vote_response (message : Message) (n : t)
    : option (t * list Notification) :=
  if negb (NodeState_eqb (state n) CANDIDATE) then Some (n, [])
  else
    let term := m_term message in
    match m_vote_granted message with
    | None => None
    | Some vote_granted =>
      if current_term n <? term then
        let n := set_current_term n term in
        let n := set_state n FOLLOWER in
        let n := set_voted_for n None in
        Some (n, notify_observers n (state_change (state n) (current_term n)))
      else if vote_granted && (term =? current_term n) then
        let n := set_votes_received n (votes_received n + 1) in
        if exceeds_half (votes_received n) (nodes_count n) then
          let n := set_state n LEADER in
          let evs := notify_observers n (state_change (state n) (current_term n)) in
          let '(n, evs') := send_heartbeats n in
          Some (n, evs ++ evs')
        else Some (n, [])
      else Some (n, [])
    end.

Definition handle_append_entries (now : Q) (message : Message) (n : t)
    : t * list Notification :=
  let term := m_term message in
  let leader_id := m_from message in
  let '(n, evs) :=
    if current_term n <? term then
      let n := set_current_term n term in
      let n := set_state n FOLLOWER in
      let n := set_voted_for n None in
      (n, notify_observers n (state_change (state n) (current_term n)))
    else (n, []) in
  let '(n, evs) :=
    if current_term n <=? term then
      let n := set_last_heartbeat n now in
      if NodeState_eqb (state n) CANDIDATE then
        let n := set_state n FOLLOWER in
        (n, evs ++ notify_observers n (state_change (state n) (current_term n)))
      else (n, evs)
    else (n, evs) in
  let n := message_queue_append n
    (mkMessage "append_entries_response" (id n) leader_id (current_term n)
               None None (Some (current_term n <=? term))) in
  (n, evs).

Definition receive_message (now : Q) (message : Message) (n : t)
    : option (t * list Notification) :=
  let message_type := m_type message in
  if String.eqb message_type "request_vote" then
    Some (handle_vote_request now message n)
  else if String.eqb message_type "vote_response" then
    handle_vote_response message n
  else if String.eqb message_type "append_entries" then
    Some (handle_append_entries now message n)
  else Some (n, []).

Definition simulate_failure (n : t) : t * list Notification :=
  let n := set_running n false in
  (n, notify_observers n (node_failure (id n))).

Definition restore (now : Q) (n : t) : t * list Notification :=
  if negb (running n) then
    let n := set_running n true in
    let n := set_state n FOLLOWER in
    let n := set_current_term n (current_term n + 1) in
    let n := set_voted_for n None in
    let n := set_last_heartbeat n (now - election_timeout n - 1)%Q in
    (n, notify_observers n (node_restore (id n)))
  else (n, []).

End Node.

(** ** class Cluster *)

(** The events the cluster publishes to its own observers. *)
Inductive ClusterEvent :=
| node_event (node_id : nat) (e : Event)
| message_delivered (m : Message)
| network_partition (groups : list (list nat))
| network_healed
| node_failed (node_id : nat)
| node_restored (node_id : nat).

(** [x in group] *)
Definition member (x : nat) (group : list nat) : bool := existsb (Nat.eqb x) group.

Module Cluster.

(** [observed] is the stream of events the registered observers have been
    called with, oldest first; the other fields are the attributes of the
    class. *)
Record t := mk {
  node_count : nat;
  nodes : list Node.t;
  message_buffer : list Message;
  running : bool;
  partitioned : bool;
  partition_groups : list (list nat);
  observed : list ClusterEvent }.

Definition set_nodes (c : t) (ns : list Node.t) : t :=
  mk (node_count c) ns (message_buffer c) (running c) (partitioned c)
     (partition_groups c) (observed c).

Definition set_message_buffer (c : t) (b : list Message) : t :=
  mk (node_count c) (nodes c) b (running c) (partitioned c)
     (partition_groups c) (observed c).

Definition set_running (c : t) (b : bool) : t :=
  mk (node_count c) (nodes c) (message_buffer c) b (partitioned c)
     (partition_groups c) (observed c).

Definition set_partition (c : t) (p : bool) (groups : list (list nat)) : t :=
  mk (node_count c) (nodes c) (message_buffer c) (running c) p groups (observed c).

Definition notify_observers (c : t) (e : ClusterEvent) : t :=
  mk (node_count c) (nodes c) (message_buffer c) (running c) (partitioned c)
     (partition_groups c) (observed c ++ [e]).

Definition node_event_callback (c : t) (ev : Notification) : t :=
  let '(node_id, e) := ev in
  let c := notify_observers c (node_event node_id e) in
  match e with
  | message_sent data =>
      set_message_buffer c (message_buffer c ++ [stamp_from data node_id])
  | _ => c
  end.

(** The callbacks of the notifications one node operation published. *)
Definition publish (c : t) (evs : list Notification) : t :=
  foldl node_event_callback c evs.

(** [__init__]: node [i] is built with the draw [draws i] at time [now i]. *)
Definition init (node_count : nat) (draws : nat -> Z) (now : nat -> Q) : t :=
  mk node_count
     (map (fun i => Node.init i node_count (150%Z, 300%Z) (draws i) (now i))
          (seq 0 node_count))
     [] true false [] [].

(** [stop] *)
Definition stop (c : t) : t :=
  let c := set_running c false in
  set_nodes c (map Node.stop (nodes c)).

Definition can_deliver_message (c : t) (from_id to_id : nat) : bool :=
  if negb (partitioned c) then true
  else existsb (fun group => member from_id group && member to_id group)
               (partition_groups c).

(** The body of the [for message in current_messages] loop of
    [process_messages]; [None] is an exception raised in it. *)
Definition deliver (now : Q) (message : Message) (c : t) : option t :=
  let from_id := m_from message in
  let to_id := m_to message in
  if can_deliver_message c from_id to_id then
    match nodes c !! to_id with
    | None => None
    | Some n =>
      match Node.receive_message now message n with
      | None => None
      | Some (n', evs) =>
          let c := publish (set_nodes c (<[to_id := n']> (nodes c))) evs in
          Some (notify_observers c (message_delivered message))
      end
    end
  else Some c.

Definition create_partition (groups : list (list nat)) (c : t) : t :=
  let c := set_partition c true groups in
  notify_observers c (network_partition groups).

Definition heal_partition (c : t) : t :=
  let c := set_partition c false [] in
  notify_observers c network_healed.

Definition fail_node (node_id : nat) (c : t) : t :=
  if node_id <? node_count c then
    match nodes c !! node_id with
    | None => c
    | Some n =>
        let '(n', evs) := Node.simulate_failure n in
        let c := publish (set_nodes c (<[node_id := n']> (nodes c))) evs in
        notify_observers c (node_failed node_id)
    end
  else c.

Definition restore_node (now : Q) (node_id : nat) (c : t) : t :=
  if node_id <? node_count c then
    match nodes c !! node_id with
    | None => c
    | Some n =>
        let '(n', evs) := Node.restore now n in
        let c := publish (set_nodes c (<[node_id := n']> (nodes c))) evs in
        notify_observers c (node_restored node_id)
    end
  else c.

(** One pass of node [i]'s [run] loop, with its notifications. *)
Definition tick (current_time now : Q) (r : Z) (i : nat) (c : t) : option t :=
  match nodes c !! i with
  | None => None
  | Some n =>
      if Node.running n then
        let '(n', evs) := Node.run_iteration current_time now r n in
        Some (publish (set_nodes c (<[i := n']> (nodes c))) evs)
      else None
  end.

End Cluster.

(** ** The running system

    The cluster together with [current_messages], the local variable of the
    pump thread holding the batch it is delivering. *)
Record System := mkSystem {
  cluster : Cluster.t;
  current_messages : list Message }.

(** Messages sent and neither delivered nor dropped yet. *)
Definition in_transit (s : System) : list Message :=
  current_messages s ++ Cluster.message_buffer (cluster s).

Definition initial (node_count : nat) (draws : nat -> Z) (now : nat -> Q) : System :=
  mkSystem (Cluster.init node_count draws now) [].

(** One atomic action of one thread.  [step_append_entries] is the delivery
    of an arbitrary ["append_entries"] message: the pump itself never
    carries that type, and the relation admits it so that properties of
    runs also cover [handle_append_entries]. *)
Inductive step : System -> System -> Prop :=
| step_tick current_time now r i c c' cur :
    Cluster.tick current_time now r i c = Some c' ->
    step (mkSystem c cur) (mkSystem c' cur)
| step_swap c :
    Cluster.running c = true ->
    step (mkSystem c [])
         (mkSystem (Cluster.set_message_buffer c []) (Cluster.message_buffer c))
| step_deliver now message rest c c' :
    Cluster.deliver now message c = Some c' ->
    step (mkSystem c (message :: rest)) (mkSystem c' rest)
| step_append_entries now message c c' cur :
    m_type message = "append_entries" ->
    Cluster.deliver now message c = Some c' ->
    step (mkSystem c cur) (mkSystem c' cur)
| step_fail_node node_id c cur :
    step (mkSystem c cur) (mkSystem (Cluster.fail_node node_id c) cur)
| step_restore_node now node_id c cur :
    step (mkSystem c cur) (mkSystem (Cluster.restore_node now node_id c) cur)
| step_create_partition groups c cur :
    step (mkSystem c cur) (mkSystem (Cluster.create_partition groups c) cur)
| step_heal_partition c cur :
    step (mkSystem c cur) (mkSystem (Cluster.heal_partition c) cur)
| step_stop c cur :
    step (mkSystem c cur) (mkSystem (Cluster.stop c) cur).

(** Runs: the reflexive transitive closure of [step]. *)
Inductive steps : System -> System -> Prop :=
| steps_refl s : steps s s
| steps_step s1 s2 s3 : steps s1 s2 -> step s2 s3 -> steps s1 s3.

Definition reachable (s : System) : Prop :=
  exists node_count draws now, steps (initial node_count draws now) s.

(** Node [i] is leader of term [t] in state [s]. *)
Definition leader_at (s : System) (i t : nat) : Prop :=
  exists n, Cluster.nodes (cluster s) !! i = Some n
            /\ Node.state n = LEADER /\ Node.current_term n = t.

(** ** Auxiliary definitions used in statements and proofs *)

(** The peers of a node, in the order its loops visit them. *)
Definition peers (n : Node.t) : list nat :=
  List.filter (fun i => negb (i =? Node.id n)) (seq 0 (Node.nodes_count n)).

(** [n] with [q] appended to its message queue. *)
Definition enqueue (n : Node.t) (q : list Message) : Node.t :=
  Node.mk (Node.id n) (Node.nodes_count n) (Node.state n) (Node.current_term n)
    (Node.voted_for n) (Node.votes_received n) (Node.log n)
    (Node.election_timeout_range n) (Node.election_timeout n)
    (Node.last_heartbeat n) (Node.message_queue n ++ q) (Node.running n).

Definition request_vote_message (n : Node.t) (i : nat) : Message :=
  mkMessage "request_vote" (Node.id n) i (Node.current_term n) None None None.

Definition append_entries_message (n : Node.t) (i : nat) : Message :=
  mkMessage "append_entries" (Node.id n) i (Node.current_term n) None (Some []) None.

Definition heartbeat_message (n : Node.t) (i : nat) : Message :=
  mkMessage "heartbeat" (Node.id n) i (Node.current_term n) None None None.

(** ** What the event stream and the transport say about an election *)

Definition granted_flag (m : Message) : bool :=
  match m_vote_granted m with Some true => true | _ => false end.

(** [e] is node [b] publishing a granted vote response to [a] for term [t]. *)
Definition is_granted (b a t : nat) (e : ClusterEvent) : bool :=
  match e with
  | node_event b' (message_sent m) =>
      (b' =? b) && String.eqb (m_type m) "vote_response" && (m_to m =? a)
      && (m_term m =? t) && granted_flag m
  | _ => false
  end.

(** [e] is node [a] announcing that it became candidate of term [t]. *)
Definition is_candidacy (a t : nat) (e : ClusterEvent) : bool :=
  match e with
  | node_event a' (state_change CANDIDATE t') => (a' =? a) && (t' =? t)
  | _ => false
  end.

(** [e] is node [a] announcing that it became leader of term [t]. *)
Definition is_win (a t : nat) (e : ClusterEvent) : bool :=
  match e with
  | node_event a' (state_change LEADER t') => (a' =? a) && (t' =? t)
  | _ => false
  end.

Definition granted (L : list ClusterEvent) (b a t : nat) : bool :=
  existsb (is_granted b a t) L.
Definition stood (L : list ClusterEvent) (a t : nat) : bool :=
  existsb (is_candidacy a t) L.
Definition won (L : list ClusterEvent) (a t : nat) : bool :=
  existsb (is_win a t) L.

(** Node [b] voted for [a] in term [t]: it granted a request of [a], or it
    is [a] itself standing. *)
Definition voted (L : list ClusterEvent) (b a t : nat) : bool :=
  granted L b a t || ((b =? a) && stood L a t).

Definition is_request (a b t : nat) (m : Message) : bool :=
  String.eqb (m_type m) "request_vote" && (m_from m =? a) && (m_to m =? b)
  && (m_term m =? t).

Definition is_grant (b a t : nat) (m : Message) : bool :=
  String.eqb (m_type m) "vote_response" && (m_from m =? b) && (m_to m =? a)
  && (m_term m =? t) && granted_flag m.

(** Number of messages in [P] that belong to the exchange in which [a] asks
    [b] for its vote in term [t]. *)
Definition outstanding (P : list Message) (a b t : nat) : nat :=
  length (List.filter (fun m => is_request a b t m || is_grant b a t m) P).

(** The peers whose granted vote for [a] in term [t] has left the transport. *)
Definition counted (N : nat) (L : list ClusterEvent) (P : list Message)
    (a t : nat) : list nat :=
  List.filter (fun b => negb (b =? a) && granted L b a t
                        && (outstanding P a b t =? 0)) (seq 0 N).

(** The nodes on record as having voted for [a] in term [t], [a] included. *)
Definition supporters (N : nat) (L : list ClusterEvent) (a t : nat) : list nat :=
  List.filter (fun b => (b =? a) || granted L b a t) (seq 0 N).

(** Events and messages that play no part in an election. *)
Definition neutral_event (e : ClusterEvent) : bool :=
  match e with
  | node_event _ (state_change FOLLOWER _) => true
  | node_event _ (state_change _ _) => false
  | node_event _ (message_sent m) =>
      negb (String.eqb (m_type m) "vote_response" && granted_flag m)
  | _ => true
  end.

Definition neutral_message (m : Message) : bool :=
  negb (String.eqb (m_type m) "request_vote")
  && negb (String.eqb (m_type m) "vote_response" && granted_flag m).

(** A transition of a node that neither casts a vote nor counts one. *)
Definition quiet (n n' : Node.t) : Prop :=
  Node.id n' = Node.id n /\ Node.nodes_count n' = Node.nodes_count n
  /\ Node.current_term n <= Node.current_term n'
  /\ (Node.current_term n' = Node.current_term n ->
      Node.voted_for n' = Node.voted_for n)
  /\ (Node.state n' = FOLLOWER
      \/ (Node.state n' = Node.state n
          /\ Node.current_term n' = Node.current_term n
          /\ Node.votes_received n' = Node.votes_received n)).

(** The invariant of runs, over the cluster size [N], the nodes [ns], the
    event stream [L] and the messages in transit [P]. *)
Record Inv (N : nat) (ns : list Node.t) (L : list ClusterEvent)
    (P : list Message) : Prop := mkInv {
  inv_length : length ns = N;
  inv_shape : forall i n, ns !! i = Some n ->
      Node.id n = i /\ Node.nodes_count n = N;
  inv_one_vote : forall b a a' t,
      voted L b a t = true -> voted L b a' t = true -> a = a';
  inv_vote_term : forall b a t n,
      voted L b a t = true -> ns !! b = Some n ->
      t < Node.current_term n
      \/ (t = Node.current_term n /\ Node.voted_for n = Some a);
  inv_granted_term : forall b a t,
      granted L b a t = true ->
      exists n, ns !! a = Some n /\ t <= Node.current_term n;
  inv_request : forall m,
      In m P -> m_type m = "request_vote" ->
      m_from m <> m_to m
      /\ granted L (m_to m) (m_from m) (m_term m) = false
      /\ exists n, ns !! m_from m = Some n /\ m_term m <= Node.current_term n;
  inv_grant : forall m,
      In m P -> m_type m = "vote_response" -> granted_flag m = true ->
      m_from m <> m_to m /\ m_from m < N
      /\ granted L (m_from m) (m_to m) (m_term m) = true;
  inv_outstanding : forall a b t, outstanding P a b t <= 1;
  inv_candidate : forall a n,
      ns !! a = Some n -> Node.state n = CANDIDATE ->
      stood L a (Node.current_term n) = true
      /\ Node.votes_received n
         <= 1 + length (counted N L P a (Node.current_term n));
  inv_leader : forall a n,
      ns !! a = Some n -> Node.state n = LEADER ->
      won L a (Node.current_term n) = true;
  inv_won : forall a t,
      won L a t = true ->
      a < N /\ stood L a t = true /\ N < 2 * length (supporters N L a t) }.

(** The invariant at a state of the system. *)
Definition invariant (s : System) : Prop :=
  Inv (Cluster.node_count (cluster s)) (Cluster.nodes (cluster s))
      (Cluster.observed (cluster s)) (in_transit s).

(** The body of a loop over the peers that queues [f n i] and publishes
    [g n i]. *)
Definition peer_body (f : Node.t -> nat -> Message) (g : Node.t -> nat -> Event)
    (n : Node.t) (i : nat) : Node.t * list Notification :=
  (Node.message_queue_append n (f n i), [(Node.id n, g n i)]).

Definition keep_peers (n : Node.t) (l : list nat) : list nat :=
  List.filter (fun i => negb (i =? Node.id n)) l.

(** Every node of [ns'] is a quiet successor of the node at its index in
    [ns]. *)
Definition nodes_quiet (ns ns' : list Node.t) : Prop :=
  length ns' = length ns
  /\ forall i n n', ns !! i = Some n -> ns' !! i = Some n' -> quiet n n'.

(** What [node_event_callback] adds to the event stream and to the buffer
    for the notifications [evs]. *)
Definition events_of (evs : list Notification) : list ClusterEvent :=
  map (fun ev => node_event ev.1 ev.2) evs.

Definition messages_of (evs : list Notification) : list Message :=
  flat_map (fun ev => match ev.2 with
                      | message_sent data => [stamp_from data ev.1]
                      | _ => []
                      end) evs.

(** One action of node [i]'s thread, and one action of the pump thread, as
    functions on the system (the identity when the action cannot happen). *)
Definition tick_one (current_time now : Q) (r : Z) (i : nat) (s : System) : System :=
  match Cluster.tick current_time now r i (cluster s) with
  | Some c' => mkSystem c' (current_messages s)
  | None => s
  end.

Definition pump_one (now : Q) (s : System) : System :=
  match current_messages s with
  | [] =>
      if Cluster.running (cluster s) then
        mkSystem (Cluster.set_message_buffer (cluster s) [])
                 (Cluster.message_buffer (cluster s))
      else s
  | message :: rest =>
      match Cluster.deliver now message (cluster s) with
      | Some c' => mkSystem c' rest
      | None => s
      end
  end.

(** A run of a two-node cluster in which node 0 times out, asks node 1 for
    its vote, and is elected leader of term 1. *)
Definition election_run : System :=
  pump_one 1 (pump_one 1 (pump_one 1 (pump_one 1
    (tick_one 1 1 200 0 (initial 2 (fun _ => 150%Z) (fun _ => 0%Q)))))).

(** [n] after adopting the term [term]. *)
Definition adopt (n : Node.t) (term : nat) : Node.t :=
  Node.set_voted_for (Node.set_state (Node.set_current_term n term) FOLLOWER) None.

(** [self.voted_for is None or self.voted_for == candidate_id] *)
Definition free_for (n : Node.t) (candidate_id : nat) : bool :=
  match Node.voted_for n with None => true | Some v => v =? candidate_id end.

(** The message of the last notification, when it is a [message_sent]. *)
Definition last_sent (evs : list Notification) : option Message :=
  match last evs with
  | Some (_, message_sent m) => Some m
  | _ => None
  end.

(** The [vote_granted] flag of the reply a handler published. *)
Definition reply_granted (r : Node.t * list Notification) : option bool :=
  match last_sent r.2 with
  | Some m => m_vote_granted m
  | None => None
  end.

Definition request_vote_from (candidate_id to_id term : nat) : Message :=
  mkMessage "request_vote" candidate_id to_id term None None None.

(** A node that has not voted in term [t] yet. *)
Definition fresh_for (n : Node.t) (t : nat) : Prop :=
  Node.current_term n < t
  \/ (Node.current_term n = t /\ Node.voted_for n = None).

Definition vote_response_to (from_id to_id term : nat) (vote_granted : bool) : Message :=
  mkMessage "vote_response" from_id to_id term (Some vote_granted) None None.

(** A sequence of [handle_vote_request] calls on one node, each with its
    clock reading; the notifications are concatenated in order. *)
Fixpoint handle_vote_requests (calls : list (Q * Message)) (n : Node.t)
    : Node.t * list Notification :=
  match calls with
  | [] => (n, [])
  | (now, m) :: calls' =>
      let '(n1, evs1) := Node.handle_vote_request now m n in
      let '(n2, evs2) := handle_vote_requests calls' n1 in
      (n2, evs1 ++ evs2)
  end.

(** [ev] publishes a granted vote response for term [t] addressed to [a]. *)
Definition grants (ev : Notification) (a t : nat) : Prop :=
  exists m, ev.2 = message_sent m /\ m_type m = "vote_response"
            /\ m_vote_granted m = Some true /\ m_to m = a /\ m_term m = t.

(** Number of granted vote responses for term [t] among [evs]. *)
Definition granted_responses (t : nat) (evs : list Notification) : nat :=
  length (List.filter
            (fun ev => match ev.2 with
                       | message_sent m =>
                           String.eqb (m_type m) "vote_response"
                           && (m_term m =? t) && granted_flag m
                       | _ => false
                       end) evs).

(** ** Further definitions: the pump, the visualizer's controls, the log *)

(** The destinations of the messages among the notifications [evs]. *)
Definition destinations (evs : list Notification) : list nat :=
  flat_map (fun ev => match ev.2 with
                      | message_sent m => [m_to m]
                      | _ => []
                      end) evs.

(** A message the transport of a cluster of [N] nodes can carry without
    raising: both ends are nodes, and it is a vote request, a vote response
    with its flag, or a heartbeat notice. *)
Definition transport_message (N : nat) (m : Message) : Prop :=
  m_from m < N /\ m_to m < N /\ m_from m <> m_to m
  /\ (m_type m = "request_vote"
      \/ (m_type m = "vote_response" /\ m_vote_granted m <> None)
      \/ m_type m = "heartbeat").

(** The [for message in current_messages] loop of [process_messages], each
    message with the clock reading of its delivery. *)
Fixpoint deliver_all (calls : list (Q * Message)) (c : Cluster.t) : option Cluster.t :=
  match calls with
  | [] => Some c
  | (now, message) :: calls' =>
      match Cluster.deliver now message c with
      | Some c' => deliver_all calls' c'
      | None => None
      end
  end.

(** One pass of the [while self.running] loop of [process_messages]:
    [nows] are the clock readings of the deliveries. *)
Definition process_messages_pass (nows : list Q) (c : Cluster.t) : option Cluster.t :=
  let current_messages := Cluster.message_buffer c in
  let c := Cluster.set_message_buffer c [] in
  deliver_all (zip nows current_messages) c.

(** Number of [message_delivered] events in an event stream. *)
Definition delivered_count (L : list ClusterEvent) : nat :=
  length (List.filter (fun e => match e with message_delivered _ => true | _ => false end) L).

(** Number of messages of a batch the partition filter of [c] lets pass. *)
Definition deliverable_count (c : Cluster.t) (batch : list Message) : nat :=
  length (List.filter (fun m => Cluster.can_deliver_message c (m_from m) (m_to m)) batch).

(** The timeout of [n] lies in its configured range, in seconds. *)
Definition timeout_in_range (n : Node.t) : Prop :=
  (fst (Node.election_timeout_range n) # 1000 <= Node.election_timeout n)%Q
  /\ (Node.election_timeout n <= snd (Node.election_timeout_range n) # 1000)%Q.

(** [Visualizer.create_random_partition]: the call it makes on the cluster,
    with [node_count] the visualizer's copy of the cluster size. *)
Definition create_random_partition (node_count : nat) (c : Cluster.t) : Cluster.t :=
  let group1 := seq 0 (node_count / 2) in
  let group2 := seq (node_count / 2) (node_count - node_count / 2) in
  Cluster.create_partition [group1; group2] c.

(** A node that is candidate or leader holds its own vote. *)
Definition self_vote (n : Node.t) : Prop :=
  Node.state n <> FOLLOWER -> Node.voted_for n = Some (Node.id n).

(** ** class LogDisplay (its buffer and the content of its text widget) *)

(** [l[-k:]] for [k >= 0]: the last [k] elements, and all of [l] when
    [k = 0] (Python reads [-0] as [0]) or [k] exceeds the length. *)
Definition slice_last {A} (k : nat) (l : list A) : list A :=
  if k =? 0 then l else drop (length l - k) l.

Module LogDisplay.

(** A log entry [(timestamp, message, tag)]. *)
Definition entry : Type := string * string * option string.

(** [text] is the content of the text widget: the inserted pieces, each
    with its tag. *)
Record t := mk {
  max_lines : nat;
  buffer : list entry;
  text : list (string * string) }.

(** The two [insert] calls that draw one entry. *)
Definition draw (e : entry) : list (string * string) :=
  let '(ts, msg, tg) := e in
  [(String.append "[" (String.append ts "] "), "timestamp"%string);
   (String.append msg (String (Ascii.ascii_of_nat 10) EmptyString),
    match tg with Some tag => tag | None => ""%string end)].

Definition init (max_lines : nat) : t := mk max_lines [] [].

(** [add_message]; [timestamp] is the formatted local time. *)
Definition add_message (timestamp message : string) (tag : option string) (d : t) : t :=
  let log_entry := (timestamp, message, tag) in
  let buffer := buffer d ++ [log_entry] in
  if max_lines d <? length buffer then
    let buffer := slice_last (max_lines d) buffer in
    mk (max_lines d) buffer (flat_map draw buffer)
  else
    mk (max_lines d) buffer (text d ++ draw log_entry).

End LogDisplay.

(** ** Loops over the peers *)

Section ForEachPeer.

Variable f : Node.t -> nat -> Message.
Variable g : Node.t -> nat -> Event.
Hypothesis f_enqueue : forall n q i, f (enqueue n q) i = f n i.
Hypothesis g_enqueue : forall n q i, g (enqueue n q) i = g n i.

Lemma foldl_peer_body n l q evs :
  foldl (fun acc i =>
           if i =? Node.id acc.1 then acc
           else let '(n', evs) := peer_body f g acc.1 i in (n', acc.2 ++ evs))
        (enqueue n q, evs) l
  = (enqueue n (q ++ map (f n) (keep_peers n l)),
     evs ++ map (fun i => (Node.id n, g n i)) (keep_peers n l)).
Proof.
  revert q evs. induction l as [|i l IH]; intros q evs; simpl.
  - now rewrite !app_nil_r.
  - destruct (i =? Node.id n) eqn:E; simpl.
    + apply IH.
    + rewrite f_enqueue, g_enqueue.
      replace (Node.message_queue_append (enqueue n q) (f n i))
        with (enqueue n (q ++ [f n i])).
      * rewrite IH. now rewrite <- !app_assoc.
      * unfold Node.message_queue_append, enqueue. simpl.
        now rewrite <- app_assoc.
Qed.

Lemma enqueue_nil n : enqueue n [] = n.
Proof. destruct n. unfold enqueue. simpl. now rewrite app_nil_r. Qed.

Lemma for_each_peer_body n :
  Node.for_each_peer (peer_body f g) n
  = (enqueue n (map (f n) (peers n)), map (fun i => (Node.id n, g n i)) (peers n)).
Proof.
  unfold Node.for_each_peer.
  rewrite <- (enqueue_nil n) at 1.
  rewrite (foldl_peer_body n (seq 0 (Node.nodes_count n)) [] []).
  reflexivity.
Qed.

End ForEachPeer.

Lemma request_votes_eq n :
  Node.request_votes n
  = (enqueue n (map (request_vote_message n) (peers n)),
     map (fun i => (Node.id n, message_sent (request_vote_message n i))) (peers n)).
Proof.
  exact (for_each_peer_body request_vote_message
           (fun n i => message_sent (request_vote_message n i))
           (fun _ _ _ => eq_refl) (fun _ _ _ => eq_refl) n).
Qed.

Lemma send_heartbeats_eq n :
  Node.send_heartbeats n
  = (enqueue n (map (append_entries_message n) (peers n)),
     map (fun i => (Node.id n, message_sent (heartbeat_message n i))) (peers n)).
Proof.
  exact (for_each_peer_body append_entries_message
           (fun n i => message_sent (heartbeat_message n i))
           (fun _ _ _ => eq_refl) (fun _ _ _ => eq_refl) n).
Qed.

(** ** Counting lemmas *)

Lemma filter_length_le {A} (p q : A -> bool) (l : list A) :
  (forall x, In x l -> p x = true -> q x = true) ->
  length (List.filter p l) <= length (List.filter q l).
Proof.
  induction l as [|x l IH]; intros H; simpl; [lia|].
  assert (IH' : length (List.filter p l) <= length (List.filter q l)).
  { apply IH. intros y Hy. apply H. now right. }
  destruct (p x) eqn:Hp.
  - rewrite (H x (or_introl eq_refl) Hp). simpl. lia.
  - destruct (q x); simpl; lia.
Qed.

Lemma filter_length_lt {A} (p q : A -> bool) (l : list A) (y : A) :
  (forall x, In x l -> p x = true -> q x = true) ->
  In y l -> p y = false -> q y = true ->
  length (List.filter p l) < length (List.filter q l).
Proof.
  induction l as [|x l IH]; intros H Hy Hp Hq; simpl; [destruct Hy|].
  assert (Hle : length (List.filter p l) <= length (List.filter q l)).
  { apply filter_length_le. intros z Hz. apply H. now right. }
  destruct Hy as [->|Hy].
  - rewrite Hp, Hq. simpl. lia.
  - assert (IH' : length (List.filter p l) < length (List.filter q l)).
    { apply IH; auto. intros z Hz. apply H. now right. }
    destruct (p x) eqn:Hpx.
    + rewrite (H x (or_introl eq_refl) Hpx). simpl. lia.
    + destruct (q x); simpl; lia.
Qed.

Lemma filter_length_le_1 {A} (p : A -> bool) (l : list A) :
  NoDup l -> (forall x y, p x = true -> p y = true -> x = y) ->
  length (List.filter p l) <= 1.
Proof.
  intros Hnd Hp. induction Hnd as [|x l Hx Hnd IH]; simpl; [lia|].
  destruct (p x) eqn:E; [|exact IH].
  assert (Hnil : List.filter p l = []).
  { destruct (List.filter p l) as [|y l'] eqn:F; [reflexivity|].
    assert (Hy : In y (List.filter p l)) by (rewrite F; now left).
    apply filter_In in Hy. destruct Hy as [Hy Hpy].
    exfalso. apply Hx. rewrite (Hp x y E Hpy). now apply list_elem_of_In. }
  rewrite Hnil. simpl. lia.
Qed.

(** Two sets of node ids that each hold more than half of the ids meet. *)
Lemma pigeonhole (p q : nat -> bool) (l : list nat) :
  length l < length (List.filter p l) + length (List.filter q l) ->
  exists x, In x l /\ p x = true /\ q x = true.
Proof.
  induction l as [|x l IH]; simpl; [lia|].
  intros H. destruct (p x) eqn:Hp, (q x) eqn:Hq; simpl in H.
  - exists x. auto.
  - destruct IH as (y & Hy & ?); [lia|]. exists y. auto.
  - destruct IH as (y & Hy & ?); [lia|]. exists y. auto.
  - destruct IH as (y & Hy & ?); [lia|]. exists y. auto.
Qed.

(** ** The event stream and the transport under extension *)

Lemma neutral_is_granted e b a t : neutral_event e = true -> is_granted b a t e = false.
Proof.
  destruct e as [i [s u|m|?|?]| | | | |]; simpl; try reflexivity.
  intros H. apply negb_true_iff in H.
  destruct (i =? b); simpl; [|reflexivity].
  destruct (String.eqb (m_type m) "vote_response"); simpl in *; [|reflexivity].
  rewrite H. now rewrite !andb_false_r.
Qed.

Lemma neutral_is_candidacy e a t : neutral_event e = true -> is_candidacy a t e = false.
Proof. destruct e as [i [[] u|m|?|?]| | | | |]; simpl; congruence. Qed.

Lemma neutral_is_win e a t : neutral_event e = true -> is_win a t e = false.
Proof. destruct e as [i [[] u|m|?|?]| | | | |]; simpl; congruence. Qed.

Lemma existsb_neutral {A} (p : A -> bool) (q : A -> bool) L E :
  (forall e, q e = true -> p e = false) ->
  forallb q E = true -> existsb p (L ++ E) = existsb p L.
Proof.
  intros Hpq HE. rewrite existsb_app.
  enough (existsb p E = false) as -> by apply orb_false_r.
  induction E as [|e E IH]; simpl in *; [reflexivity|].
  apply andb_true_iff in HE. destruct HE as [He HE].
  now rewrite (Hpq e He), IH.
Qed.

Lemma granted_neutral L E b a t :
  forallb neutral_event E = true -> granted (L ++ E) b a t = granted L b a t.
Proof. apply existsb_neutral. intros e. apply neutral_is_granted. Qed.

Lemma stood_neutral L E a t :
  forallb neutral_event E = true -> stood (L ++ E) a t = stood L a t.
Proof. apply existsb_neutral. intros e. apply neutral_is_candidacy. Qed.

Lemma won_neutral L E a t :
  forallb neutral_event E = true -> won (L ++ E) a t = won L a t.
Proof. apply existsb_neutral. intros e. apply neutral_is_win. Qed.

Lemma voted_neutral L E b a t :
  forallb neutral_event E = true -> voted (L ++ E) b a t = voted L b a t.
Proof. intros H. unfold voted. now rewrite granted_neutral, stood_neutral. Qed.

Lemma granted_mono L E b a t : granted L b a t = true -> granted (L ++ E) b a t = true.
Proof. unfold granted. rewrite existsb_app. now intros ->. Qed.

Lemma stood_mono L E a t : stood L a t = true -> stood (L ++ E) a t = true.
Proof. unfold stood. rewrite existsb_app. now intros ->. Qed.

Lemma won_mono L E a t : won L a t = true -> won (L ++ E) a t = true.
Proof. unfold won. rewrite existsb_app. now intros ->. Qed.

Lemma supporters_mono N L E a t :
  length (supporters N L a t) <= length (supporters N (L ++ E) a t).
Proof.
  apply filter_length_le. intros b _ H.
  apply orb_true_iff in H. apply orb_true_iff.
  destruct H as [H|H]; [now left|right]. now apply granted_mono.
Qed.

Lemma outstanding_app P Q a b t :
  outstanding (P ++ Q) a b t = outstanding P a b t + outstanding Q a b t.
Proof. unfold outstanding. now rewrite List.filter_app, length_app. Qed.

Lemma neutral_message_outstanding Q a b t :
  forallb neutral_message Q = true -> outstanding Q a b t = 0.
Proof.
  unfold outstanding. induction Q as [|m Q IH]; simpl; [reflexivity|].
  intros H. apply andb_true_iff in H. destruct H as [Hm HQ].
  unfold neutral_message in Hm. apply andb_true_iff in Hm.
  destruct Hm as [H1 H2]. apply negb_true_iff in H1, H2.
  unfold is_request, is_grant. rewrite H1. simpl.
  destruct (String.eqb (m_type m) "vote_response"); simpl in *.
  - rewrite H2, !andb_false_r. simpl. now apply IH.
  - now apply IH.
Qed.

Lemma neutral_message_In Q m :
  forallb neutral_message Q = true -> In m Q -> neutral_message m = true.
Proof. intros H Hm. exact (proj1 (forallb_forall _ _) H m Hm). Qed.

Lemma neutral_not_request m :
  neutral_message m = true -> m_type m <> "request_vote".
Proof.
  unfold neutral_message. intros H E. rewrite E in H. discriminate.
Qed.

Lemma neutral_not_grant m :
  neutral_message m = true -> m_type m = "vote_response" -> granted_flag m = false.
Proof.
  unfold neutral_message. intros H E. rewrite E in H. simpl in H.
  now apply negb_true_iff in H.
Qed.

(** ** Preservation of the invariant *)

Lemma nodes_quiet_back ns ns' i n' :
  nodes_quiet ns ns' -> ns' !! i = Some n' ->
  exists n, ns !! i = Some n /\ quiet n n'.
Proof.
  intros [Hlen Hq] Hi.
  destruct (lookup_lt_is_Some_2 ns i) as [n Hn].
  { rewrite <- Hlen. eapply lookup_lt_Some. exact Hi. }
  exists n. split; [exact Hn|]. eapply Hq; eauto.
Qed.

Lemma nodes_quiet_forth ns ns' i n :
  nodes_quiet ns ns' -> ns !! i = Some n ->
  exists n', ns' !! i = Some n' /\ quiet n n'.
Proof.
  intros [Hlen Hq] Hi.
  destruct (lookup_lt_is_Some_2 ns' i) as [n' Hn'].
  { rewrite Hlen. eapply lookup_lt_Some. exact Hi. }
  exists n'. split; [exact Hn'|]. eapply Hq; eauto.
Qed.

Lemma quiet_refl n : quiet n n.
Proof. unfold quiet. intuition. Qed.

Lemma nodes_quiet_insert ns i n n' :
  ns !! i = Some n -> quiet n n' -> nodes_quiet ns (<[i := n']> ns).
Proof.
  intros Hi Hq. split; [apply length_insert|].
  intros j m m' Hm Hm'. destruct (decide (i = j)) as [->|Hne].
  - rewrite list_lookup_insert_eq in Hm' by (eapply lookup_lt_Some; eauto).
    congruence.
  - rewrite list_lookup_insert_ne in Hm' by exact Hne.
    replace m' with m by congruence. apply quiet_refl.
Qed.

Lemma nodes_quiet_refl ns : nodes_quiet ns ns.
Proof.
  split; [reflexivity|]. intros i n n' H H'.
  replace n' with n by congruence. apply quiet_refl.
Qed.

(** Transitions in which no vote is cast or counted keep the invariant:
    nodes may adopt terms and step down, neutral events and messages may
    be added, and messages may leave the transport. *)
Lemma inv_quiet N ns ns' L E P P1 Q :
  Inv N ns L P ->
  nodes_quiet ns ns' ->
  forallb neutral_event E = true ->
  forallb neutral_message Q = true ->
  (forall m, In m P1 -> In m P) ->
  (forall a b t, outstanding P1 a b t <= outstanding P a b t) ->
  Inv N ns' (L ++ E) (P1 ++ Q).
Proof.
  intros I Hns HE HQ Hin Hout.
  assert (Hout' : forall a b t, outstanding (P1 ++ Q) a b t <= outstanding P a b t).
  { intros a b t. rewrite outstanding_app, (neutral_message_outstanding Q) by exact HQ.
    specialize (Hout a b t). lia. }
  constructor.
  - destruct Hns as [Hlen _]. rewrite Hlen. apply (inv_length _ _ _ _ I).
  - intros i n' Hi. destruct (nodes_quiet_back _ _ _ _ Hns Hi) as (n & Hn & Hq).
    destruct (inv_shape _ _ _ _ I i n Hn) as [H1 H2].
    destruct Hq as (Hid & Hnc & _). split; congruence.
  - intros b a a' t. rewrite !voted_neutral by exact HE.
    apply (inv_one_vote _ _ _ _ I).
  - intros b a t n'. rewrite voted_neutral by exact HE. intros Hv Hb.
    destruct (nodes_quiet_back _ _ _ _ Hns Hb) as (n & Hn & Hq).
    destruct Hq as (_ & _ & Hle & Hvf & _).
    destruct (inv_vote_term _ _ _ _ I b a t n Hv Hn) as [Hlt|[Heq Hv']].
    + left. lia.
    + destruct (decide (Node.current_term n' = Node.current_term n)) as [Ht|Ht].
      * right. split; [congruence|]. rewrite (Hvf Ht). exact Hv'.
      * left. lia.
  - intros b a t. rewrite granted_neutral by exact HE. intros Hg.
    destruct (inv_granted_term _ _ _ _ I b a t Hg) as (n & Hn & Hle).
    destruct (nodes_quiet_forth _ _ _ _ Hns Hn) as (n' & Hn' & Hq).
    exists n'. split; [exact Hn'|]. destruct Hq as (_ & _ & Hle' & _). lia.
  - intros m Hm Hty. apply in_app_or in Hm. destruct Hm as [Hm|Hm].
    + destruct (inv_request _ _ _ _ I m (Hin m Hm) Hty) as (H1 & H2 & n & Hn & Hle).
      split; [exact H1|]. split; [now rewrite granted_neutral by exact HE|].
      destruct (nodes_quiet_forth _ _ _ _ Hns Hn) as (n' & Hn' & Hq).
      exists n'. split; [exact Hn'|]. destruct Hq as (_ & _ & Hle' & _). lia.
    + exfalso. exact (neutral_not_request m (neutral_message_In Q m HQ Hm) Hty).
  - intros m Hm Hty Hg. apply in_app_or in Hm. destruct Hm as [Hm|Hm].
    + destruct (inv_grant _ _ _ _ I m (Hin m Hm) Hty Hg) as (H1 & H2 & H3).
      split; [exact H1|]. split; [exact H2|]. now apply granted_mono.
    + pose proof (neutral_not_grant m (neutral_message_In Q m HQ Hm) Hty).
      congruence.
  - intros a b t. specialize (Hout' a b t).
    pose proof (inv_outstanding _ _ _ _ I a b t). lia.
  - intros a n' Ha Hst.
    destruct (nodes_quiet_back _ _ _ _ Hns Ha) as (n & Hn & Hq).
    destruct Hq as (_ & _ & _ & _ & [Hf|(Hs & Ht & Hv)]); [congruence|].
    rewrite Hs in Hst.
    destruct (inv_candidate _ _ _ _ I a n Hn Hst) as [H1 H2].
    rewrite Ht, Hv. split; [now apply stood_mono|].
    etransitivity; [exact H2|]. apply le_n_S.
    apply filter_length_le. intros b _ Hb.
    apply andb_true_iff in Hb. destruct Hb as [Hb H0].
    apply andb_true_iff in Hb. destruct Hb as [Hne Hg].
    rewrite Hne, (granted_mono _ E _ _ _ Hg). simpl.
    apply Nat.eqb_eq in H0. apply Nat.eqb_eq.
    specialize (Hout' a b (Node.current_term n)). lia.
  - intros a n' Ha Hst.
    destruct (nodes_quiet_back _ _ _ _ Hns Ha) as (n & Hn & Hq).
    destruct Hq as (_ & _ & _ & _ & [Hf|(Hs & Ht & Hv)]); [congruence|].
    rewrite Hs in Hst. rewrite Ht. apply won_mono.
    apply (inv_leader _ _ _ _ I a n Hn Hst).
  - intros a t. rewrite won_neutral by exact HE. intros Hw.
    destruct (inv_won _ _ _ _ I a t Hw) as (H1 & H2 & H3).
    split; [exact H1|]. split; [now apply stood_mono|].
    pose proof (supporters_mono N L E a t). lia.
Qed.

Lemma existsb_special {A} (p q : A -> bool) L E0 e E1 :
  (forall x, q x = true -> p x = false) ->
  forallb q E0 = true -> forallb q E1 = true ->
  existsb p (L ++ E0 ++ e :: E1) = existsb p L || p e.
Proof.
  intros Hpq H0 H1.
  replace (L ++ E0 ++ e :: E1) with (((L ++ E0) ++ [e]) ++ E1)
    by (now rewrite <- !app_assoc).
  rewrite (existsb_neutral p q _ E1 Hpq H1), existsb_app.
  rewrite (existsb_neutral p q _ E0 Hpq H0). simpl. now rewrite orb_false_r.
Qed.

Lemma granted_special L E0 e E1 b a t :
  forallb neutral_event E0 = true -> forallb neutral_event E1 = true ->
  granted (L ++ E0 ++ e :: E1) b a t = granted L b a t || is_granted b a t e.
Proof. apply existsb_special. intros x. apply neutral_is_granted. Qed.

Lemma stood_special L E0 e E1 a t :
  forallb neutral_event E0 = true -> forallb neutral_event E1 = true ->
  stood (L ++ E0 ++ e :: E1) a t = stood L a t || is_candidacy a t e.
Proof. apply existsb_special. intros x. apply neutral_is_candidacy. Qed.

Lemma won_special L E0 e E1 a t :
  forallb neutral_event E0 = true -> forallb neutral_event E1 = true ->
  won (L ++ E0 ++ e :: E1) a t = won L a t || is_win a t e.
Proof. apply existsb_special. intros x. apply neutral_is_win. Qed.

Lemma outstanding_none P a b t :
  (forall m, In m P -> is_request a b t m || is_grant b a t m = false) ->
  outstanding P a b t = 0.
Proof.
  unfold outstanding. induction P as [|m P IH]; intros H; simpl; [reflexivity|].
  rewrite (H m (or_introl eq_refl)). apply IH. intros m' Hm'. apply H. now right.
Qed.

Lemma is_request_true a b t m :
  is_request a b t m = true ->
  m_type m = "request_vote" /\ m_from m = a /\ m_to m = b /\ m_term m = t.
Proof.
  unfold is_request. rewrite !andb_true_iff.
  intros (((H1 & H2) & H3) & H4).
  apply String.eqb_eq in H1. apply Nat.eqb_eq in H2, H3, H4. auto.
Qed.

Lemma is_grant_true b a t m :
  is_grant b a t m = true ->
  m_type m = "vote_response" /\ m_from m = b /\ m_to m = a /\ m_term m = t
  /\ granted_flag m = true.
Proof.
  unfold is_grant. rewrite !andb_true_iff.
  intros ((((H1 & H2) & H3) & H4) & H5).
  apply String.eqb_eq in H1. apply Nat.eqb_eq in H2, H3, H4. auto.
Qed.

Lemma is_request_not_grant a b t m :
  m_type m = "request_vote" -> is_grant b a t m = false.
Proof. unfold is_grant. now intros ->. Qed.

Lemma is_grant_not_request a b t m :
  m_type m = "vote_response" -> is_request a b t m = false.
Proof. unfold is_request. now intros ->. Qed.

(** No message of an exchange is in transit for a term its candidate has
    not reached. *)
Lemma outstanding_future N ns L P a b t n :
  Inv N ns L P -> ns !! a = Some n -> Node.current_term n < t ->
  outstanding P a b t = 0.
Proof.
  intros I Ha Hlt. apply outstanding_none. intros m Hm.
  apply orb_false_iff. split.
  - destruct (is_request a b t m) eqn:E; [|reflexivity].
    apply is_request_true in E. destruct E as (Hty & Hf & Ht & Htm).
    destruct (inv_request _ _ _ _ I m Hm Hty) as (_ & _ & n0 & Hn0 & Hle).
    rewrite Hf, Ha in Hn0. injection Hn0 as <-. lia.
  - destruct (is_grant b a t m) eqn:E; [|reflexivity].
    apply is_grant_true in E. destruct E as (Hty & Hf & Ht & Htm & Hg).
    destruct (inv_grant _ _ _ _ I m Hm Hty Hg) as (_ & _ & Hgr).
    rewrite Hf, Ht, Htm in Hgr.
    destruct (inv_granted_term _ _ _ _ I b a t Hgr) as (n0 & Hn0 & Hle).
    rewrite Ha in Hn0. injection Hn0 as <-. lia.
Qed.

Lemma lookup_insert_cases (ns : list Node.t) i j n n' m :
  ns !! i = Some n -> (<[i := n']> ns) !! j = Some m ->
  (j = i /\ m = n') \/ (j <> i /\ ns !! j = Some m).
Proof.
  intros Hi Hj. destruct (decide (i = j)) as [->|Hne].
  - rewrite list_lookup_insert_eq in Hj by (eapply lookup_lt_Some; eauto).
    left. split; congruence.
  - rewrite list_lookup_insert_ne in Hj by exact Hne. right. auto.
Qed.

(** A node that times out and stands for election keeps the invariant. *)
Lemma inv_start N ns L P i n n' E1 Q :
  Inv N ns L P ->
  ns !! i = Some n ->
  Node.id n' = Node.id n -> Node.nodes_count n' = Node.nodes_count n ->
  Node.state n' = CANDIDATE ->
  Node.current_term n' = Node.current_term n + 1 ->
  Node.voted_for n' = Some i ->
  Node.votes_received n' = 1 ->
  forallb neutral_event E1 = true ->
  (forall m, In m Q ->
     m_type m = "request_vote" /\ m_from m = i /\ m_to m <> i
     /\ m_term m = Node.current_term n + 1) ->
  (forall b, outstanding Q i b (Node.current_term n + 1) <= 1) ->
  Inv N (<[i := n']> ns)
      (L ++ [] ++ node_event i (state_change CANDIDATE (Node.current_term n + 1)) :: E1)
      (P ++ Q).
Proof.
  intros I Hi Hid Hnc Hst Htm Hvf Hvr HE HQ HQ1.
  set (T := Node.current_term n + 1) in *.
  assert (Hquiet_like : forall j m, (<[i := n']> ns) !! j = Some m ->
            exists m0, ns !! j = Some m0
                       /\ Node.current_term m0 <= Node.current_term m).
  { intros j m Hj. destruct (lookup_insert_cases _ _ _ _ _ _ Hi Hj) as [[-> ->]|[_ Hj']].
    - exists n. split; [exact Hi|lia].
    - exists m. split; [exact Hj'|lia]. }
  assert (Hforth : forall j m0, ns !! j = Some m0 ->
            exists m, (<[i := n']> ns) !! j = Some m
                      /\ Node.current_term m0 <= Node.current_term m).
  { intros j m0 Hj. destruct (decide (i = j)) as [->|Hne].
    - exists n'. rewrite list_lookup_insert_eq by (eapply lookup_lt_Some; eauto).
      split; [reflexivity|]. replace m0 with n by congruence. lia.
    - exists m0. rewrite list_lookup_insert_ne by exact Hne. split; [exact Hj|lia]. }
  assert (Hgr : forall b a t, granted (L ++ [] ++ node_event i (state_change CANDIDATE T) :: E1) b a t
                              = granted L b a t).
  { intros. rewrite granted_special by (reflexivity || exact HE). simpl.
    apply orb_false_r. }
  assert (Hwn : forall a t, won (L ++ [] ++ node_event i (state_change CANDIDATE T) :: E1) a t
                            = won L a t).
  { intros. rewrite won_special by (reflexivity || exact HE). simpl.
    apply orb_false_r. }
  assert (Hsd : forall a t, stood (L ++ [] ++ node_event i (state_change CANDIDATE T) :: E1) a t
                            = stood L a t || ((i =? a) && (T =? t))).
  { intros. now rewrite stood_special by (reflexivity || exact HE). }
  assert (Hnew : forall b a t,
            voted (L ++ [] ++ node_event i (state_change CANDIDATE T) :: E1) b a t = true ->
            voted L b a t = true \/ (b = i /\ a = i /\ t = T)).
  { intros b a t. unfold voted. rewrite Hgr, Hsd.
    rewrite !orb_true_iff, !andb_true_iff, !orb_true_iff, andb_true_iff.
    rewrite !Nat.eqb_eq. intros [H|[H1 [H|[H2 H3]]]]; auto.
    right. subst. auto. }
  assert (Hold : forall a t, voted L i a t = true -> t < T).
  { intros a t Hv.
    destruct (inv_vote_term _ _ _ _ I i a t n Hv Hi) as [?|[? _]]; unfold T; lia. }
  assert (HoutQ : forall a b t, (a <> i \/ t <> T) -> outstanding Q a b t = 0).
  { intros a b t Hne. apply outstanding_none. intros m Hm.
    destruct (HQ m Hm) as (Hty & Hf & Hto & Ht).
    rewrite (is_request_not_grant _ _ _ _ Hty), orb_false_r.
    destruct (is_request a b t m) eqn:E; [|reflexivity].
    apply is_request_true in E. destruct E as (_ & Hf' & _ & Ht').
    exfalso. destruct Hne; congruence. }
  constructor.
  - rewrite length_insert. apply (inv_length _ _ _ _ I).
  - intros j m Hj.
    destruct (lookup_insert_cases _ _ _ _ _ _ Hi Hj) as [[-> ->]|[_ Hj']].
    + destruct (inv_shape _ _ _ _ I i n Hi). split; congruence.
    + apply (inv_shape _ _ _ _ I j m Hj').
  - intros b a a' t H1 H2.
    destruct (Hnew _ _ _ H1) as [H1'|(-> & -> & ->)];
      destruct (Hnew _ _ _ H2) as [H2'|(Hb & -> & Ht)].
    + apply (inv_one_vote _ _ _ _ I b a a' t H1' H2').
    + subst. pose proof (Hold _ _ H1'). lia.
    + pose proof (Hold _ _ H2'). lia.
    + reflexivity.
  - intros b a t m Hv Hb.
    destruct (lookup_insert_cases _ _ _ _ _ _ Hi Hb) as [[-> ->]|[Hne Hb']].
    + destruct (Hnew _ _ _ Hv) as [Hv'|(_ & -> & ->)].
      * left. pose proof (Hold _ _ Hv'). unfold T in *. lia.
      * right. split; [unfold T; lia|exact Hvf].
    + destruct (Hnew _ _ _ Hv) as [Hv'|(-> & _)]; [|congruence].
      apply (inv_vote_term _ _ _ _ I b a t m Hv' Hb').
  - intros b a t. rewrite Hgr. intros Hg.
    destruct (inv_granted_term _ _ _ _ I b a t Hg) as (m0 & Hm0 & Hle).
    destruct (Hforth _ _ Hm0) as (m & Hm & Hle'). exists m. split; [exact Hm|lia].
  - intros m Hm Hty. rewrite Hgr. apply in_app_or in Hm. destruct Hm as [Hm|Hm].
    + destruct (inv_request _ _ _ _ I m Hm Hty) as (H1 & H2 & m0 & Hm0 & Hle).
      split; [exact H1|]. split; [exact H2|].
      destruct (Hforth _ _ Hm0) as (m1 & Hm1 & Hle'). exists m1. split; [exact Hm1|lia].
    + destruct (HQ m Hm) as (_ & Hf & Hto & Ht). rewrite Hf, Ht.
      split; [congruence|]. split.
      * destruct (granted L (m_to m) i T) eqn:G; [|reflexivity].
        destruct (inv_granted_term _ _ _ _ I _ _ _ G) as (m0 & Hm0 & Hle).
        rewrite Hi in Hm0. injection Hm0 as <-. unfold T in Hle. lia.
      * exists n'. rewrite list_lookup_insert_eq by (eapply lookup_lt_Some; eauto).
        split; [reflexivity|lia].
  - intros m Hm Hty Hg. rewrite Hgr. apply in_app_or in Hm. destruct Hm as [Hm|Hm].
    + apply (inv_grant _ _ _ _ I m Hm Hty Hg).
    + destruct (HQ m Hm) as (Hty' & _). congruence.
  - intros a b t. rewrite outstanding_app.
    destruct (decide (a = i /\ t = T)) as [[-> ->]|Hne].
    + rewrite (outstanding_future _ _ _ _ _ b T _ I Hi) by (unfold T; lia).
      apply HQ1.
    + rewrite (HoutQ a b t) by (destruct (decide (a = i)); [right|left]; intuition).
      pose proof (inv_outstanding _ _ _ _ I a b t). lia.
  - intros a m Ha Hs.
    destruct (lookup_insert_cases _ _ _ _ _ _ Hi Ha) as [[-> ->]|[Hne Ha']].
    + split; [|lia]. rewrite Hsd, Htm. fold T. now rewrite !Nat.eqb_refl, orb_true_r.
    + destruct (inv_candidate _ _ _ _ I a m Ha' Hs) as [H1 H2].
      split; [rewrite Hsd, H1; reflexivity|].
      etransitivity; [exact H2|]. apply le_n_S. apply filter_length_le.
      intros b _ Hb. rewrite Hgr, outstanding_app, (HoutQ a b) by (left; exact Hne).
      now rewrite Nat.add_0_r.
  - intros a m Ha Hs. rewrite Hwn.
    destruct (lookup_insert_cases _ _ _ _ _ _ Hi Ha) as [[-> ->]|[Hne Ha']].
    + congruence.
    + apply (inv_leader _ _ _ _ I a m Ha' Hs).
  - intros a t. rewrite Hwn. intros Hw.
    destruct (inv_won _ _ _ _ I a t Hw) as (H1 & H2 & H3).
    split; [exact H1|]. split; [rewrite Hsd, H2; reflexivity|].
    pose proof (supporters_mono N L ([] ++ node_event i (state_change CANDIDATE T) :: E1) a t).
    lia.
Qed.

Lemma supporters_counted N L P a t :
  a < N -> 1 + length (counted N L P a t) <= length (supporters N L a t).
Proof.
  intros Ha. apply (filter_length_lt _ _ _ a).
  - intros b _ Hb. apply andb_true_iff in Hb. destruct Hb as [Hb _].
    apply andb_true_iff in Hb. destruct Hb as [_ Hg]. now rewrite Hg, orb_true_r.
  - apply in_seq. lia.
  - now rewrite Nat.eqb_refl.
  - now rewrite Nat.eqb_refl.
Qed.

Lemma outstanding_cons m P a b t :
  outstanding (m :: P) a b t
  = (if is_request a b t m || is_grant b a t m then 1 else 0) + outstanding P a b t.
Proof.
  unfold outstanding. simpl.
  destruct (is_request a b t m || is_grant b a t m); reflexivity.
Qed.

Lemma outstanding_In m P a b t :
  In m P -> is_request a b t m || is_grant b a t m = true ->
  1 <= outstanding P a b t.
Proof.
  induction P as [|x P IH]; intros Hin Hm; [destruct Hin|].
  rewrite outstanding_cons. destruct Hin as [->|Hin].
  - rewrite Hm. lia.
  - specialize (IH Hin Hm). lia.
Qed.

(** Changing only the tally of a node keeps the invariant, provided the new
    tally is backed by counted votes. *)
Lemma inv_tally N ns L P i n n' :
  Inv N ns L P ->
  ns !! i = Some n ->
  Node.id n' = Node.id n -> Node.nodes_count n' = Node.nodes_count n ->
  Node.state n' = Node.state n ->
  Node.current_term n' = Node.current_term n ->
  Node.voted_for n' = Node.voted_for n ->
  (Node.state n' = CANDIDATE ->
   Node.votes_received n' <= 1 + length (counted N L P i (Node.current_term n'))) ->
  Inv N (<[i := n']> ns) L P.
Proof.
  intros I Hi Hid Hnc Hst Htm Hvf Hvr.
  assert (Hforth : forall j m0, ns !! j = Some m0 ->
            exists m, (<[i := n']> ns) !! j = Some m
                      /\ Node.current_term m = Node.current_term m0).
  { intros j m0 Hj. destruct (decide (i = j)) as [->|Hne].
    - exists n'. rewrite list_lookup_insert_eq by (eapply lookup_lt_Some; eauto).
      split; [reflexivity|]. replace m0 with n by congruence. exact Htm.
    - exists m0. rewrite list_lookup_insert_ne by exact Hne. auto. }
  constructor.
  - rewrite length_insert. apply (inv_length _ _ _ _ I).
  - intros j m Hj.
    destruct (lookup_insert_cases _ _ _ _ _ _ Hi Hj) as [[-> ->]|[_ Hj']].
    + destruct (inv_shape _ _ _ _ I i n Hi). split; congruence.
    + apply (inv_shape _ _ _ _ I j m Hj').
  - apply (inv_one_vote _ _ _ _ I).
  - intros b a t m Hv Hb.
    destruct (lookup_insert_cases _ _ _ _ _ _ Hi Hb) as [[-> ->]|[_ Hb']].
    + rewrite Htm, Hvf. apply (inv_vote_term _ _ _ _ I i a t n Hv Hi).
    + apply (inv_vote_term _ _ _ _ I b a t m Hv Hb').
  - intros b a t Hg.
    destruct (inv_granted_term _ _ _ _ I b a t Hg) as (m0 & Hm0 & Hle).
    destruct (Hforth _ _ Hm0) as (m & Hm & Heq). exists m. split; [exact Hm|lia].
  - intros m Hm Hty.
    destruct (inv_request _ _ _ _ I m Hm Hty) as (H1 & H2 & m0 & Hm0 & Hle).
    split; [exact H1|]. split; [exact H2|].
    destruct (Hforth _ _ Hm0) as (m1 & Hm1 & Heq). exists m1. split; [exact Hm1|lia].
  - apply (inv_grant _ _ _ _ I).
  - apply (inv_outstanding _ _ _ _ I).
  - intros a m Ha Hs.
    destruct (lookup_insert_cases _ _ _ _ _ _ Hi Ha) as [[-> ->]|[_ Ha']].
    + split; [|now apply Hvr]. rewrite Htm.
      apply (inv_candidate _ _ _ _ I i n Hi). congruence.
    + apply (inv_candidate _ _ _ _ I a m Ha' Hs).
  - intros a m Ha Hs.
    destruct (lookup_insert_cases _ _ _ _ _ _ Hi Ha) as [[-> ->]|[_ Ha']].
    + rewrite Htm. apply (inv_leader _ _ _ _ I i n Hi). congruence.
    + apply (inv_leader _ _ _ _ I a m Ha' Hs).
  - apply (inv_won _ _ _ _ I).
Qed.

(** A candidate whose tally exceeds half of the cluster becomes leader. *)
Lemma inv_promote N ns L P i n n' :
  Inv N ns L P ->
  ns !! i = Some n ->
  Node.state n = CANDIDATE ->
  N < 2 * Node.votes_received n ->
  Node.id n' = Node.id n -> Node.nodes_count n' = Node.nodes_count n ->
  Node.state n' = LEADER ->
  Node.current_term n' = Node.current_term n ->
  Node.voted_for n' = Node.voted_for n ->
  Inv N (<[i := n']> ns)
      (L ++ [node_event i (state_change LEADER (Node.current_term n))]) P.
Proof.
  intros I Hi Hc Hmaj Hid Hnc Hst Htm Hvf.
  set (T := Node.current_term n) in *.
  set (L' := L ++ [node_event i (state_change LEADER T)]).
  assert (Hgr : forall b a t, granted L' b a t = granted L b a t).
  { intros. unfold L', granted. rewrite existsb_app. simpl. now rewrite orb_false_r. }
  assert (Hsd : forall a t, stood L' a t = stood L a t).
  { intros. unfold L', stood. rewrite existsb_app. simpl. now rewrite orb_false_r. }
  assert (Hvt : forall b a t, voted L' b a t = voted L b a t).
  { intros. unfold voted. now rewrite Hgr, Hsd. }
  assert (Hwn : forall a t, won L' a t = won L a t || ((i =? a) && (T =? t))).
  { intros. unfold L', won. rewrite existsb_app. simpl. now rewrite orb_false_r. }
  assert (Hforth : forall j m0, ns !! j = Some m0 ->
            exists m, (<[i := n']> ns) !! j = Some m
                      /\ Node.current_term m = Node.current_term m0).
  { intros j m0 Hj. destruct (decide (i = j)) as [->|Hne].
    - exists n'. rewrite list_lookup_insert_eq by (eapply lookup_lt_Some; eauto).
      split; [reflexivity|]. replace m0 with n by congruence. exact Htm.
    - exists m0. rewrite list_lookup_insert_ne by exact Hne. auto. }
  destruct (inv_candidate _ _ _ _ I i n Hi Hc) as [Hstood Htally]. fold T in Hstood, Htally.
  assert (HiN : i < N).
  { rewrite <- (inv_length _ _ _ _ I). eapply lookup_lt_Some. exact Hi. }
  constructor.
  - rewrite length_insert. apply (inv_length _ _ _ _ I).
  - intros j m Hj.
    destruct (lookup_insert_cases _ _ _ _ _ _ Hi Hj) as [[-> ->]|[_ Hj']].
    + destruct (inv_shape _ _ _ _ I i n Hi). split; congruence.
    + apply (inv_shape _ _ _ _ I j m Hj').
  - intros b a a' t. rewrite !Hvt. apply (inv_one_vote _ _ _ _ I).
  - intros b a t m. rewrite Hvt. intros Hv Hb.
    destruct (lookup_insert_cases _ _ _ _ _ _ Hi Hb) as [[-> ->]|[_ Hb']].
    + rewrite Htm, Hvf. apply (inv_vote_term _ _ _ _ I i a t n Hv Hi).
    + apply (inv_vote_term _ _ _ _ I b a t m Hv Hb').
  - intros b a t. rewrite Hgr. intros Hg.
    destruct (inv_granted_term _ _ _ _ I b a t Hg) as (m0 & Hm0 & Hle).
    destruct (Hforth _ _ Hm0) as (m & Hm & Heq). exists m. split; [exact Hm|lia].
  - intros m Hm Hty. rewrite Hgr.
    destruct (inv_request _ _ _ _ I m Hm Hty) as (H1 & H2 & m0 & Hm0 & Hle).
    split; [exact H1|]. split; [exact H2|].
    destruct (Hforth _ _ Hm0) as (m1 & Hm1 & Heq). exists m1. split; [exact Hm1|lia].
  - intros m Hm Hty Hg. rewrite Hgr. apply (inv_grant _ _ _ _ I m Hm Hty Hg).
  - apply (inv_outstanding _ _ _ _ I).
  - intros a m Ha Hs.
    destruct (lookup_insert_cases _ _ _ _ _ _ Hi Ha) as [[-> ->]|[_ Ha']]; [congruence|].
    destruct (inv_candidate _ _ _ _ I a m Ha' Hs) as [H1 H2].
    rewrite Hsd. split; [exact H1|].
    etransitivity; [exact H2|]. apply le_n_S. apply filter_length_le.
    intros b _ Hb. now rewrite Hgr.
  - intros a m Ha Hs. rewrite Hwn.
    destruct (lookup_insert_cases _ _ _ _ _ _ Hi Ha) as [[-> ->]|[_ Ha']].
    + rewrite Htm. now rewrite !Nat.eqb_refl, orb_true_r.
    + now rewrite (inv_leader _ _ _ _ I a m Ha' Hs).
  - intros a t. rewrite Hwn, Hsd.
    assert (Hsup : forall a t, length (supporters N L a t) <= length (supporters N L' a t)).
    { intros. apply supporters_mono. }
    intros Hw. apply orb_true_iff in Hw. destruct Hw as [Hw|Hw].
    + destruct (inv_won _ _ _ _ I a t Hw) as (H1 & H2 & H3).
      split; [exact H1|]. split; [exact H2|]. specialize (Hsup a t). lia.
    + apply andb_true_iff in Hw. destruct Hw as [Ha Ht].
      apply Nat.eqb_eq in Ha, Ht. subst a t.
      split; [exact HiN|]. split; [exact Hstood|].
      pose proof (supporters_counted N L P i T HiN). specialize (Hsup i T). lia.
Qed.

(** A node that grants the vote a request in transit asks for, in its
    current term, keeps the invariant. *)
Lemma inv_grant_vote N ns L P' m i n n' e0 resp :
  Inv N ns L (m :: P') ->
  m_type m = "request_vote" -> m_to m = i ->
  ns !! i = Some n ->
  Node.current_term n = m_term m ->
  (Node.voted_for n = None \/ Node.voted_for n = Some (m_from m)) ->
  Node.id n' = Node.id n -> Node.nodes_count n' = Node.nodes_count n ->
  Node.state n' = Node.state n ->
  Node.current_term n' = Node.current_term n ->
  Node.votes_received n' = Node.votes_received n ->
  Node.voted_for n' = Some (m_from m) ->
  m_type e0 = "vote_response" -> m_to e0 = m_from m -> m_term e0 = m_term m ->
  granted_flag e0 = true ->
  m_type resp = "vote_response" -> m_from resp = i -> m_to resp = m_from m ->
  m_term resp = m_term m -> granted_flag resp = true ->
  Inv N (<[i := n']> ns) (L ++ [node_event i (message_sent e0)]) (P' ++ [resp]).
Proof.
  intros I Hty Hto Hi Hcur Hfree Hid Hnc Hst Htm Hvr Hvf
         He1 He2 He3 He4 Hr1 Hr2 Hr3 Hr4 Hr5.
  set (a := m_from m) in *. set (T := m_term m) in *.
  set (L' := L ++ [node_event i (message_sent e0)]).
  destruct (inv_request _ _ _ _ I m (or_introl eq_refl) Hty)
    as (Hai & Hfresh & na & Hna & Hle).
  fold a T in Hai, Hfresh, Hna, Hle. rewrite Hto in Hai, Hfresh.
  assert (Hreq : is_request a i T m = true).
  { unfold is_request. rewrite Hty, Hto. unfold a, T.
    now rewrite !Nat.eqb_refl. }
  assert (Hout0 : outstanding P' a i T = 0).
  { pose proof (inv_outstanding _ _ _ _ I a i T) as H.
    rewrite outstanding_cons, Hreq in H. simpl in H. lia. }
  assert (Hdrop : forall x b u, outstanding P' x b u <= outstanding (m :: P') x b u).
  { intros. rewrite outstanding_cons. lia. }
  assert (Hgr : forall b x u, granted L' b x u
                              = granted L b x u || ((i =? b) && (a =? x) && (T =? u))).
  { intros. unfold L', granted. rewrite existsb_app. simpl.
    rewrite He1, He2, He3, He4. simpl. now rewrite orb_false_r, !andb_true_r. }
  assert (Hsd : forall x u, stood L' x u = stood L x u).
  { intros. unfold L', stood. rewrite existsb_app. simpl. now rewrite orb_false_r. }
  assert (Hwn : forall x u, won L' x u = won L x u).
  { intros. unfold L', won. rewrite existsb_app. simpl. now rewrite orb_false_r. }
  assert (Hnew : forall b x u, voted L' b x u = true ->
                   voted L b x u = true \/ (b = i /\ x = a /\ u = T)).
  { intros b x u. unfold voted. rewrite Hgr, Hsd.
    rewrite !orb_true_iff, !andb_true_iff, !Nat.eqb_eq.
    intros [[H|((H1 & H2) & H3)]|H]; subst; auto. }
  assert (Hold : forall x u, voted L i x u = true -> u < T \/ (u = T /\ x = a)).
  { intros x u Hv.
    destruct (inv_vote_term _ _ _ _ I i x u n Hv Hi) as [?|[? Hx]]; [left; lia|].
    right. split; [lia|]. destruct Hfree as [Hf|Hf]; congruence. }
  assert (Hresp : forall x b u, is_request x b u resp || is_grant b x u resp
                                = (i =? b) && (a =? x) && (T =? u)).
  { intros. rewrite (is_grant_not_request _ _ _ _ Hr1). simpl.
    unfold is_grant. rewrite Hr1, Hr2, Hr3, Hr4, Hr5. simpl.
    now rewrite andb_true_r. }
  assert (Hforth : forall j m0, ns !! j = Some m0 ->
            exists m1, (<[i := n']> ns) !! j = Some m1
                       /\ Node.current_term m1 = Node.current_term m0).
  { intros j m0 Hj. destruct (decide (i = j)) as [->|Hne].
    - exists n'. rewrite list_lookup_insert_eq by (eapply lookup_lt_Some; eauto).
      split; [reflexivity|]. replace m0 with n by congruence. exact Htm.
    - exists m0. rewrite list_lookup_insert_ne by exact Hne. auto. }
  assert (HiN : i < N).
  { rewrite <- (inv_length _ _ _ _ I). eapply lookup_lt_Some. exact Hi. }
  assert (Hcount : forall x u,
            length (counted N L (m :: P') x u)
            <= length (counted N L' (P' ++ [resp]) x u)).
  { intros x u. apply filter_length_le. intros b _ Hb.
    apply andb_true_iff in Hb. destruct Hb as [Hb H0].
    apply andb_true_iff in Hb. destruct Hb as [Hne Hg].
    rewrite Hne, Hgr, Hg. simpl. apply Nat.eqb_eq in H0. apply Nat.eqb_eq.
    rewrite outstanding_app. unfold outstanding at 2. simpl. rewrite Hresp.
    destruct ((i =? b) && (a =? x) && (T =? u)) eqn:E.
    - exfalso. apply andb_true_iff in E. destruct E as [E E3].
      apply andb_true_iff in E. destruct E as [E1 E2].
      apply Nat.eqb_eq in E1, E2, E3. subst b x u. congruence.
    - simpl. specialize (Hdrop x b u). lia. }
  constructor.
  - rewrite length_insert. apply (inv_length _ _ _ _ I).
  - intros j m0 Hj.
    destruct (lookup_insert_cases _ _ _ _ _ _ Hi Hj) as [[-> ->]|[_ Hj']].
    + destruct (inv_shape _ _ _ _ I i n Hi). split; congruence.
    + apply (inv_shape _ _ _ _ I j m0 Hj').
  - intros b x x' u H1 H2.
    destruct (Hnew _ _ _ H1) as [H1'|(-> & -> & ->)];
      destruct (Hnew _ _ _ H2) as [H2'|(Hb & -> & Hu)].
    + apply (inv_one_vote _ _ _ _ I b x x' u H1' H2').
    + subst. destruct (Hold _ _ H1') as [?|[_ ?]]; [lia|assumption].
    + destruct (Hold _ _ H2') as [?|[_ ?]]; [lia|congruence].
    + reflexivity.
  - intros b x u m0 Hv Hb.
    destruct (lookup_insert_cases _ _ _ _ _ _ Hi Hb) as [[-> ->]|[Hne Hb']].
    + rewrite Htm, Hvf, Hcur. fold a T.
      destruct (Hnew _ _ _ Hv) as [Hv'|(_ & -> & ->)]; [|right; auto].
      destruct (Hold _ _ Hv') as [?|[-> ->]]; [left; lia|right; auto].
    + destruct (Hnew _ _ _ Hv) as [Hv'|(-> & _)]; [|congruence].
      apply (inv_vote_term _ _ _ _ I b x u m0 Hv' Hb').
  - intros b x u. rewrite Hgr. intros Hg. apply orb_true_iff in Hg.
    destruct Hg as [Hg|Hg].
    + destruct (inv_granted_term _ _ _ _ I b x u Hg) as (m0 & Hm0 & Hle0).
      destruct (Hforth _ _ Hm0) as (m1 & Hm1 & Heq). exists m1. split; [exact Hm1|lia].
    + apply andb_true_iff in Hg. destruct Hg as [Hg E3].
      apply andb_true_iff in Hg. destruct Hg as [E1 E2].
      apply Nat.eqb_eq in E1, E2, E3. subst b x u.
      destruct (Hforth _ _ Hna) as (m1 & Hm1 & Heq). exists m1. split; [exact Hm1|lia].
  - intros m0 Hm0 Hty0. apply in_app_or in Hm0. destruct Hm0 as [Hm0|[<-|[]]].
    + destruct (inv_request _ _ _ _ I m0 (or_intror Hm0) Hty0)
        as (H1 & H2 & m1 & Hm1 & Hle1).
      split; [exact H1|]. split.
      * rewrite Hgr, H2. simpl.
        destruct ((i =? m_to m0) && (a =? m_from m0) && (T =? m_term m0)) eqn:E;
          [|reflexivity].
        apply andb_true_iff in E. destruct E as [E E3].
        apply andb_true_iff in E. destruct E as [E1 E2].
        apply Nat.eqb_eq in E1, E2, E3.
        assert (Hr : is_request a i T m0 || is_grant i a T m0 = true).
        { unfold is_request. rewrite Hty0, <- E1, <- E2, <- E3.
          now rewrite !Nat.eqb_refl. }
        pose proof (outstanding_In _ _ _ _ _ Hm0 Hr). lia.
      * destruct (Hforth _ _ Hm1) as (m2 & Hm2 & Heq). exists m2. split; [exact Hm2|lia].
    + congruence.
  - intros m0 Hm0 Hty0 Hg0. rewrite Hgr.
    apply in_app_or in Hm0. destruct Hm0 as [Hm0|[<-|[]]].
    + destruct (inv_grant _ _ _ _ I m0 (or_intror Hm0) Hty0 Hg0) as (H1 & H2 & H3).
      split; [exact H1|]. split; [exact H2|]. now rewrite H3.
    + rewrite Hr2, Hr3, Hr4. split; [congruence|]. split; [exact HiN|].
      now rewrite !Nat.eqb_refl, orb_true_r.
  - intros x b u. rewrite outstanding_app. unfold outstanding at 2. simpl.
    rewrite Hresp.
    destruct ((i =? b) && (a =? x) && (T =? u)) eqn:E.
    + apply andb_true_iff in E. destruct E as [E E3].
      apply andb_true_iff in E. destruct E as [E1 E2].
      apply Nat.eqb_eq in E1, E2, E3. subst b x u. rewrite Hout0. simpl. lia.
    + simpl. pose proof (inv_outstanding _ _ _ _ I x b u).
      specialize (Hdrop x b u). lia.
  - intros x m0 Hx Hs. rewrite Hsd.
    destruct (lookup_insert_cases _ _ _ _ _ _ Hi Hx) as [[-> ->]|[_ Hx']].
    + rewrite Htm, Hvr.
      destruct (inv_candidate _ _ _ _ I i n Hi) as [H1 H2]; [congruence|].
      split; [exact H1|]. specialize (Hcount i (Node.current_term n)). lia.
    + destruct (inv_candidate _ _ _ _ I x m0 Hx' Hs) as [H1 H2].
      split; [exact H1|]. specialize (Hcount x (Node.current_term m0)). lia.
  - intros x m0 Hx Hs. rewrite Hwn.
    destruct (lookup_insert_cases _ _ _ _ _ _ Hi Hx) as [[-> ->]|[_ Hx']].
    + rewrite Htm. apply (inv_leader _ _ _ _ I i n Hi). congruence.
    + apply (inv_leader _ _ _ _ I x m0 Hx' Hs).
  - intros x u. rewrite Hwn, Hsd. intros Hw.
    destruct (inv_won _ _ _ _ I x u Hw) as (H1 & H2 & H3).
    split; [exact H1|]. split; [exact H2|].
    pose proof (supporters_mono N L [node_event i (message_sent e0)] x u).
    fold L' in H. lia.
Qed.

(** ** What the cluster makes of a node's notifications *)

Lemma publish_eq c evs :
  Cluster.publish c evs
  = Cluster.mk (Cluster.node_count c) (Cluster.nodes c)
      (Cluster.message_buffer c ++ messages_of evs) (Cluster.running c)
      (Cluster.partitioned c) (Cluster.partition_groups c)
      (Cluster.observed c ++ events_of evs).
Proof.
  unfold Cluster.publish. revert c.
  induction evs as [|[i e] evs IH]; intros c; simpl.
  - destruct c. simpl. now rewrite !app_nil_r.
  - rewrite IH. destruct c, e; simpl; now rewrite <- ?app_assoc.
Qed.

Lemma Inv_eq N ns ns' L L' P P' :
  Inv N ns L P -> ns = ns' -> L = L' -> P = P' -> Inv N ns' L' P'.
Proof. now intros I <- <- <-. Qed.

Lemma inv_remove N ns L m P :
  Inv N ns L (m :: P) -> Inv N ns L P.
Proof.
  intros I.
  eapply Inv_eq;
    [apply (inv_quiet N ns ns L [] (m :: P) P [] I (nodes_quiet_refl ns)
              eq_refl eq_refl)| | |]; try apply app_nil_r; try reflexivity.
  - intros x Hx. now right.
  - intros. rewrite outstanding_cons. lia.
Qed.

(** Quiet node transitions with neutral events and messages, as used
    below: one node changes, nothing leaves the transport. *)
Lemma inv_quiet_node N ns L P i n n' E Q :
  Inv N ns L P -> ns !! i = Some n -> quiet n n' ->
  forallb neutral_event E = true -> forallb neutral_message Q = true ->
  Inv N (<[i := n']> ns) (L ++ E) (P ++ Q).
Proof.
  intros I Hi Hq HE HQ.
  apply (inv_quiet N ns _ L E P P Q I (nodes_quiet_insert ns i n n' Hi Hq) HE HQ);
    auto.
Qed.

Lemma inv_events N ns L P E :
  Inv N ns L P -> forallb neutral_event E = true -> Inv N ns (L ++ E) P.
Proof.
  intros I HE.
  eapply Inv_eq;
    [apply (inv_quiet N ns ns L E P P [] I (nodes_quiet_refl ns) HE eq_refl)| | |];
    try apply app_nil_r; auto.
Qed.

Lemma exceeds_half_spec votes nodes_count :
  exceeds_half votes nodes_count = true <-> nodes_count < 2 * votes.
Proof.
  unfold exceeds_half, Qgtb. rewrite negb_true_iff.
  rewrite <- not_true_iff_false, Qle_bool_iff.
  unfold Qle, Qdiv, Qmult, Qinv, inject_Z. simpl. lia.
Qed.

(** ** The handlers, one by one *)

Ltac quiet_tac :=
  unfold quiet; simpl;
  repeat match goal with
         | H : (_ <? _) = true |- _ => apply Nat.ltb_lt in H
         | H : (_ <? _) = false |- _ => apply Nat.ltb_ge in H
         | H : (_ <=? _) = true |- _ => apply Nat.leb_le in H
         | H : (_ <=? _) = false |- _ => apply Nat.leb_gt in H
         end;
  repeat split; auto; try lia;
  try (intros; exfalso; lia);
  try (left; reflexivity);
  try (right; repeat split; auto; lia).

Lemma handle_append_entries_quiet now m n :
  quiet n (Node.handle_append_entries now m n).1
  /\ forallb neutral_event (events_of (Node.handle_append_entries now m n).2) = true
  /\ messages_of (Node.handle_append_entries now m n).2 = [].
Proof.
  unfold Node.handle_append_entries.
  destruct (Node.current_term n <? m_term m) eqn:E1; simpl.
  - rewrite Nat.leb_refl. simpl. quiet_tac.
  - destruct (Node.current_term n <=? m_term m) eqn:E2; simpl.
    + destruct (Node.state n) eqn:E3; simpl; rewrite ?E3; quiet_tac.
    + quiet_tac.
Qed.

Lemma simulate_failure_quiet n :
  quiet n (Node.simulate_failure n).1
  /\ forallb neutral_event (events_of (Node.simulate_failure n).2) = true
  /\ messages_of (Node.simulate_failure n).2 = [].
Proof. unfold Node.simulate_failure. simpl. quiet_tac. Qed.

Lemma restore_quiet now n :
  quiet n (Node.restore now n).1
  /\ forallb neutral_event (events_of (Node.restore now n).2) = true
  /\ messages_of (Node.restore now n).2 = [].
Proof.
  unfold Node.restore. destruct (Node.running n); simpl; quiet_tac.
Qed.

Lemma stop_quiet n : quiet n (Node.stop n).
Proof. unfold Node.stop. quiet_tac. Qed.

Lemma enqueue_quiet n q : quiet n (enqueue n q).
Proof. quiet_tac. Qed.

Lemma heartbeats_neutral (n : Node.t) (l : list nat) :
  forallb neutral_event
    (events_of (map (fun i => (Node.id n, message_sent (heartbeat_message n i))) l)) = true
  /\ forallb neutral_message
    (messages_of (map (fun i => (Node.id n, message_sent (heartbeat_message n i))) l)) = true.
Proof. induction l as [|i l [IH1 IH2]]; simpl; auto. Qed.

Lemma send_heartbeats_quiet n :
  quiet n (Node.send_heartbeats n).1
  /\ forallb neutral_event (events_of (Node.send_heartbeats n).2) = true
  /\ forallb neutral_message (messages_of (Node.send_heartbeats n).2) = true.
Proof.
  rewrite send_heartbeats_eq. simpl. split; [apply enqueue_quiet|].
  apply heartbeats_neutral.
Qed.

Lemma peers_NoDup n : NoDup (peers n).
Proof.
  unfold peers. apply NoDup_ListNoDup, List.NoDup_filter, List.seq_NoDup.
Qed.

Lemma peers_not_self n i : In i (peers n) -> i <> Node.id n.
Proof.
  unfold peers. intros H. apply filter_In in H. destruct H as [_ H].
  apply negb_true_iff, Nat.eqb_neq in H. exact H.
Qed.

Lemma requests_events_neutral (n : Node.t) (l : list nat) :
  forallb neutral_event
    (events_of (map (fun i => (Node.id n, message_sent (request_vote_message n i))) l)) = true.
Proof. induction l as [|i l IH]; simpl; auto. Qed.

Lemma requests_messages (n : Node.t) (l : list nat) :
  messages_of (map (fun i => (Node.id n, message_sent (request_vote_message n i))) l)
  = map (fun i => stamp_from (request_vote_message n i) (Node.id n)) l.
Proof. induction l as [|i l IH]; simpl; [reflexivity|]. now rewrite IH. Qed.

Lemma requests_outstanding (n : Node.t) (l : list nat) a b t :
  NoDup l ->
  outstanding (map (fun i => stamp_from (request_vote_message n i) (Node.id n)) l) a b t <= 1.
Proof.
  intros Hnd. unfold outstanding.
  induction Hnd as [|x l Hx Hnd IH]; simpl; [lia|].
  unfold is_request at 1, is_grant at 1. simpl. rewrite orb_false_r.
  destruct ((Node.id n =? a) && (x =? b) && (Node.current_term n =? t)) eqn:E;
    [|exact IH].
  simpl.
  enough (List.filter (fun m => is_request a b t m || is_grant b a t m)
            (map (fun i => stamp_from (request_vote_message n i) (Node.id n)) l) = [])
    as -> by (simpl; lia).
  apply andb_true_iff in E. destruct E as [E _].
  apply andb_true_iff in E. destruct E as [_ E]. apply Nat.eqb_eq in E. subst b.
  clear IH Hnd. induction l as [|y l IH]; simpl; [reflexivity|].
  unfold is_request at 1, is_grant at 1. simpl. rewrite orb_false_r.
  assert (Hy : (y =? x) = false).
  { apply Nat.eqb_neq. intros ->. apply Hx. now left. }
  rewrite Hy, andb_false_r. simpl. apply IH. intros H. apply Hx. now right.
Qed.

Lemma start_election_inv N ns L P i n now r :
  Inv N ns L P -> ns !! i = Some n ->
  Inv N (<[i := (Node.start_election now r n).1]> ns)
      (L ++ events_of (Node.start_election now r n).2)
      (P ++ messages_of (Node.start_election now r n).2).
Proof.
  intros I Hi. destruct (inv_shape _ _ _ _ I i n Hi) as [Hid Hnc].
  unfold Node.start_election. rewrite request_votes_eq. simpl.
  match goal with
  | |- context [enqueue ?x _] => set (n1 := x)
  end.
  change (Node.id n) with (Node.id n1).
  rewrite requests_messages.
  assert (Hid1 : Node.id n1 = i) by exact Hid.
  rewrite Hid1.
  apply (inv_start N ns L P i n (enqueue n1 (map (request_vote_message n1) (peers n1)))
           (events_of (map (fun j => (i, message_sent (request_vote_message n1 j))) (peers n1)))
           (map (fun j => stamp_from (request_vote_message n1 j) i) (peers n1)) I Hi);
    try reflexivity.
  - simpl. now rewrite Hid.
  - rewrite <- Hid1. apply requests_events_neutral.
  - intros m Hm. apply in_map_iff in Hm. destruct Hm as (j & <- & Hj).
    simpl. repeat split; auto. rewrite <- Hid1. now apply peers_not_self.
  - intros b. rewrite <- Hid1. apply requests_outstanding, peers_NoDup.
Qed.

Lemma run_iteration_inv N ns L P i n current_time now r :
  Inv N ns L P -> ns !! i = Some n ->
  Inv N (<[i := (Node.run_iteration current_time now r n).1]> ns)
      (L ++ events_of (Node.run_iteration current_time now r n).2)
      (P ++ messages_of (Node.run_iteration current_time now r n).2).
Proof.
  intros I Hi. unfold Node.run_iteration.
  destruct (NodeState_eqb (Node.state n) LEADER).
  - destruct (send_heartbeats_quiet n) as (Hq & HE & HQ).
    now apply (inv_quiet_node N ns L P i n).
  - destruct (Qgtb _ _).
    + now apply start_election_inv.
    + simpl. apply (inv_quiet_node N ns L P i n n [] [] I Hi (quiet_refl n)); reflexivity.
Qed.

Lemma handle_append_entries_inv N ns L P i n now m :
  Inv N ns L P -> ns !! i = Some n ->
  Inv N (<[i := (Node.handle_append_entries now m n).1]> ns)
      (L ++ events_of (Node.handle_append_entries now m n).2)
      (P ++ messages_of (Node.handle_append_entries now m n).2).
Proof.
  intros I Hi. destruct (handle_append_entries_quiet now m n) as (Hq & HE & HQ).
  apply (inv_quiet_node N ns L P i n); auto. now rewrite HQ.
Qed.

Lemma lookup_insert_same (ns : list Node.t) i n n' :
  ns !! i = Some n -> (<[i := n']> ns) !! i = Some n'.
Proof. intros H. apply list_lookup_insert_eq. eapply lookup_lt_Some. exact H. Qed.

Lemma handle_vote_request_inv N ns L P' m i n now :
  Inv N ns L (m :: P') ->
  m_type m = "request_vote" -> m_to m = i -> ns !! i = Some n ->
  Inv N (<[i := (Node.handle_vote_request now m n).1]> ns)
      (L ++ events_of (Node.handle_vote_request now m n).2)
      (P' ++ messages_of (Node.handle_vote_request now m n).2).
Proof.
  intros I Hty Hto Hi. destruct (inv_shape _ _ _ _ I i n Hi) as [Hid Hnc].
  unfold Node.handle_vote_request.
  destruct (Node.current_term n <? m_term m) eqn:E1; simpl.
  - rewrite Nat.leb_refl. simpl. rewrite Hid.
    set (n1 := Node.set_voted_for
                 (Node.set_state (Node.set_current_term n (m_term m)) FOLLOWER) None).
    assert (I1 : Inv N (<[i := n1]> ns)
                   (L ++ [node_event i (state_change FOLLOWER (m_term m))]) (m :: P')).
    { eapply Inv_eq;
        [apply (inv_quiet_node N ns L (m :: P') i n n1
                  [node_event i (state_change FOLLOWER (m_term m))] [] I Hi)
        | | |]; try reflexivity; try apply app_nil_r.
      unfold n1. quiet_tac. }
    match goal with
    | |- Inv _ (<[_ := ?x]> _) (_ ++ [_; node_event _ (message_sent ?e)]) (_ ++ [?q]) =>
        eapply Inv_eq;
          [apply (inv_grant_vote N _ _ P' m i n1 x e q I1 Hty Hto
                    (lookup_insert_same ns i n n1 Hi))| | |]
    end.
    all: try reflexivity.
    + left. reflexivity.
    + apply list_insert_insert_eq.
    + now rewrite <- app_assoc.
  - destruct ((Node.current_term n <=? m_term m)
              && match Node.voted_for n with
                 | Some v => v =? m_from m
                 | None => true
                 end) eqn:E2; simpl; rewrite Hid.
    + apply andb_true_iff in E2. destruct E2 as [E2 E3].
      apply Nat.ltb_ge in E1. apply Nat.leb_le in E2.
      match goal with
      | |- Inv _ (<[_ := ?x]> _) (_ ++ [node_event _ (message_sent ?e)]) (_ ++ [?q]) =>
          apply (inv_grant_vote N ns L P' m i n x e q I Hty Hto Hi)
      end.
      all: try reflexivity.
      all: try (simpl; lia).
      destruct (Node.voted_for n) as [v|]; [|now left].
      apply Nat.eqb_eq in E3. right. congruence.
    + apply inv_remove in I.
      apply (inv_quiet_node N ns L P' i n); auto.
      quiet_tac.
Qed.

Lemma tally_bound N ns L P' m i n :
  Inv N ns L (m :: P') ->
  m_type m = "vote_response" -> granted_flag m = true -> m_to m = i ->
  m_term m = Node.current_term n ->
  ns !! i = Some n -> Node.state n = CANDIDATE ->
  Node.votes_received n + 1
  <= 1 + length (counted N L P' i (Node.current_term n)).
Proof.
  intros I Hty Hg Hto Htm Hi Hc.
  destruct (inv_grant _ _ _ _ I m (or_introl eq_refl) Hty Hg) as (Hne & HbN & Hgr).
  destruct (inv_candidate _ _ _ _ I i n Hi Hc) as [_ Hk].
  rewrite Hto, Htm in Hgr. rewrite Hto in Hne.
  set (b := m_from m) in *. set (T := Node.current_term n) in *.
  assert (Hm : is_request i b T m || is_grant b i T m = true).
  { rewrite (is_grant_not_request _ _ _ _ Hty). simpl.
    unfold is_grant. rewrite Hty, Hto, Htm, Hg. fold b.
    now rewrite !Nat.eqb_refl. }
  assert (H0 : outstanding P' i b T = 0).
  { pose proof (inv_outstanding _ _ _ _ I i b T) as H.
    rewrite outstanding_cons, Hm in H. lia. }
  enough (length (counted N L (m :: P') i T) < length (counted N L P' i T)) by lia.
  apply (filter_length_lt _ _ _ b).
  - intros x _ Hx. apply andb_true_iff in Hx. destruct Hx as [Hx Hx0].
    rewrite Hx. simpl. apply Nat.eqb_eq in Hx0. apply Nat.eqb_eq.
    rewrite outstanding_cons in Hx0. lia.
  - apply in_seq. lia.
  - rewrite outstanding_cons, Hm. simpl. now rewrite andb_false_r.
  - rewrite Hgr, H0. simpl. rewrite !andb_true_r.
    apply negb_true_iff, Nat.eqb_neq. exact Hne.
Qed.

Lemma NodeState_eqb_eq a b : NodeState_eqb a b = true <-> a = b.
Proof. destruct a, b; simpl; split; congruence. Qed.

Lemma handle_vote_response_inv N ns L P' m i n n' evs :
  Inv N ns L (m :: P') ->
  m_type m = "vote_response" -> m_to m = i -> ns !! i = Some n ->
  Node.handle_vote_response m n = Some (n', evs) ->
  Inv N (<[i := n']> ns) (L ++ events_of evs) (P' ++ messages_of evs).
Proof.
  intros I Hty Hto Hi H. destruct (inv_shape _ _ _ _ I i n Hi) as [Hid Hnc].
  pose proof (inv_remove _ _ _ _ _ I) as I0.
  unfold Node.handle_vote_response in H.
  destruct (negb (NodeState_eqb (Node.state n) CANDIDATE)) eqn:Ec.
  - injection H as <- <-.
    apply (inv_quiet_node N ns L P' i n n [] [] I0 Hi (quiet_refl n)); reflexivity.
  - apply negb_false_iff, NodeState_eqb_eq in Ec.
    destruct (m_vote_granted m) as [vg|] eqn:Evg; [|discriminate].
    destruct (Node.current_term n <? m_term m) eqn:E1.
    + injection H as <- <-. simpl.
      apply (inv_quiet_node N ns L P' i n); auto. quiet_tac.
    + destruct (vg && (m_term m =? Node.current_term n)) eqn:E2.
      * apply andb_true_iff in E2. destruct E2 as [-> E2]. apply Nat.eqb_eq in E2.
        assert (Hg : granted_flag m = true) by (unfold granted_flag; now rewrite Evg).
        pose proof (tally_bound N ns L P' m i n I Hty Hg Hto E2 Hi Ec) as Hb.
        set (nt := Node.set_votes_received n (Node.votes_received n + 1)) in *.
        assert (I1 : Inv N (<[i := nt]> ns) L P').
        { apply (inv_tally N ns L P' i n nt I0 Hi); try reflexivity.
          intros _. exact Hb. }
        simpl in H.
        destruct (exceeds_half (Node.votes_received n + 1) (Node.nodes_count n)) eqn:E3.
        -- rewrite send_heartbeats_eq in H. injection H as <- <-.
           apply exceeds_half_spec in E3. rewrite Hnc in E3.
           set (nl := Node.set_state nt LEADER).
           assert (I2 : Inv N (<[i := nl]> (<[i := nt]> ns))
                          (L ++ [node_event i (state_change LEADER (Node.current_term n))]) P').
           { apply (inv_promote N _ L P' i nt nl I1 (lookup_insert_same ns i n nt Hi));
               try reflexivity; auto. }
           destruct (heartbeats_neutral nl (peers nl)) as [HE HQ].
           eapply Inv_eq;
             [apply (inv_quiet_node N _ _ P' i nl
                       (enqueue nl (map (append_entries_message nl) (peers nl)))
                       _ _ I2
                       (lookup_insert_same _ i nt nl (lookup_insert_same ns i n nt Hi))
                       (enqueue_quiet nl _) HE HQ)| | |].
           ++ now rewrite !list_insert_insert_eq.
           ++ simpl. rewrite Hid. now rewrite <- app_assoc.
           ++ reflexivity.
        -- injection H as <- <-. simpl.
           eapply Inv_eq; [exact I1| | |]; now rewrite ?app_nil_r.
      * injection H as <- <-.
        apply (inv_quiet_node N ns L P' i n n [] [] I0 Hi (quiet_refl n)); reflexivity.
Qed.

Lemma receive_message_inv N ns L P' m i n now n' evs :
  Inv N ns L (m :: P') -> m_to m = i -> ns !! i = Some n ->
  Node.receive_message now m n = Some (n', evs) ->
  Inv N (<[i := n']> ns) (L ++ events_of evs) (P' ++ messages_of evs).
Proof.
  intros I Hto Hi H. unfold Node.receive_message in H.
  destruct (String.eqb (m_type m) "request_vote") eqn:E1.
  - apply String.eqb_eq in E1. injection H as H.
    pose proof (handle_vote_request_inv N ns L P' m i n now I E1 Hto Hi) as X.
    now rewrite H in X.
  - destruct (String.eqb (m_type m) "vote_response") eqn:E2.
    + apply String.eqb_eq in E2.
      now apply (handle_vote_response_inv N ns L P' m i n).
    + destruct (String.eqb (m_type m) "append_entries") eqn:E3.
      * injection H as H.
        pose proof (handle_append_entries_inv N ns L P' i n now m
                      (inv_remove _ _ _ _ _ I) Hi) as X.
        now rewrite H in X.
      * injection H as <- <-.
        apply (inv_quiet_node N ns L P' i n n [] []
                 (inv_remove _ _ _ _ _ I) Hi (quiet_refl n)); reflexivity.
Qed.

Lemma receive_append_entries now m n :
  m_type m = "append_entries" ->
  Node.receive_message now m n = Some (Node.handle_append_entries now m n).
Proof. unfold Node.receive_message. now intros ->. Qed.

(** ** The cluster's operations keep the invariant *)

Lemma deliver_inv now m c c' X :
  Inv (Cluster.node_count c) (Cluster.nodes c) (Cluster.observed c)
      ((m :: X) ++ Cluster.message_buffer c) ->
  Cluster.deliver now m c = Some c' ->
  Inv (Cluster.node_count c') (Cluster.nodes c') (Cluster.observed c')
      (X ++ Cluster.message_buffer c').
Proof.
  intros I H. unfold Cluster.deliver in H.
  destruct (Cluster.can_deliver_message c (m_from m) (m_to m)).
  - destruct (Cluster.nodes c !! m_to m) as [n|] eqn:Hn; [|discriminate].
    destruct (Node.receive_message now m n) as [[n' evs]|] eqn:R; [|discriminate].
    injection H as <-. rewrite publish_eq. simpl.
    rewrite app_assoc. apply inv_events; [|reflexivity].
    now apply (receive_message_inv _ _ _ _ m (m_to m) n now).
  - injection H as <-. now apply inv_remove in I.
Qed.

Lemma deliver_append_entries_inv now m c c' X :
  Inv (Cluster.node_count c) (Cluster.nodes c) (Cluster.observed c)
      (X ++ Cluster.message_buffer c) ->
  m_type m = "append_entries" ->
  Cluster.deliver now m c = Some c' ->
  Inv (Cluster.node_count c') (Cluster.nodes c') (Cluster.observed c')
      (X ++ Cluster.message_buffer c').
Proof.
  intros I Hty H. unfold Cluster.deliver in H.
  destruct (Cluster.can_deliver_message c (m_from m) (m_to m)).
  - destruct (Cluster.nodes c !! m_to m) as [n|] eqn:Hn; [|discriminate].
    rewrite (receive_append_entries now m n Hty) in H.
    destruct (Node.handle_append_entries now m n) as [n' evs] eqn:R.
    injection H as <-. rewrite publish_eq. simpl.
    rewrite app_assoc. apply inv_events; [|reflexivity].
    pose proof (handle_append_entries_inv _ _ _ _ (m_to m) n now m I Hn) as Y.
    now rewrite R in Y.
  - now injection H as <-.
Qed.

Lemma tick_inv current_time now r i c c' X :
  Inv (Cluster.node_count c) (Cluster.nodes c) (Cluster.observed c)
      (X ++ Cluster.message_buffer c) ->
  Cluster.tick current_time now r i c = Some c' ->
  Inv (Cluster.node_count c') (Cluster.nodes c') (Cluster.observed c')
      (X ++ Cluster.message_buffer c').
Proof.
  intros I H. unfold Cluster.tick in H.
  destruct (Cluster.nodes c !! i) as [n|] eqn:Hn; [|discriminate].
  destruct (Node.running n); [|discriminate].
  destruct (Node.run_iteration current_time now r n) as [n' evs] eqn:R.
  injection H as <-. rewrite publish_eq. simpl. rewrite app_assoc.
  pose proof (run_iteration_inv _ _ _ _ i n current_time now r I Hn) as Y.
  now rewrite R in Y.
Qed.

Lemma fail_node_inv node_id c X :
  Inv (Cluster.node_count c) (Cluster.nodes c) (Cluster.observed c)
      (X ++ Cluster.message_buffer c) ->
  Inv (Cluster.node_count (Cluster.fail_node node_id c))
      (Cluster.nodes (Cluster.fail_node node_id c))
      (Cluster.observed (Cluster.fail_node node_id c))
      (X ++ Cluster.message_buffer (Cluster.fail_node node_id c)).
Proof.
  intros I. unfold Cluster.fail_node.
  destruct (node_id <? Cluster.node_count c); [|exact I].
  destruct (Cluster.nodes c !! node_id) as [n|] eqn:Hn; [|exact I].
  destruct (simulate_failure_quiet n) as (Hq & HE & HQ).
  destruct (Node.simulate_failure n) as [n' evs] eqn:R.
  rewrite publish_eq. simpl in *. rewrite app_assoc.
  apply inv_events; [|reflexivity].
  apply (inv_quiet_node _ _ _ _ node_id n); auto. now rewrite HQ.
Qed.

Lemma restore_node_inv now node_id c X :
  Inv (Cluster.node_count c) (Cluster.nodes c) (Cluster.observed c)
      (X ++ Cluster.message_buffer c) ->
  Inv (Cluster.node_count (Cluster.restore_node now node_id c))
      (Cluster.nodes (Cluster.restore_node now node_id c))
      (Cluster.observed (Cluster.restore_node now node_id c))
      (X ++ Cluster.message_buffer (Cluster.restore_node now node_id c)).
Proof.
  intros I. unfold Cluster.restore_node.
  destruct (node_id <? Cluster.node_count c); [|exact I].
  destruct (Cluster.nodes c !! node_id) as [n|] eqn:Hn; [|exact I].
  destruct (restore_quiet now n) as (Hq & HE & HQ).
  destruct (Node.restore now n) as [n' evs] eqn:R.
  rewrite publish_eq. simpl in *. rewrite app_assoc.
  apply inv_events; [|reflexivity].
  apply (inv_quiet_node _ _ _ _ node_id n); auto. now rewrite HQ.
Qed.

Lemma stop_inv c X :
  Inv (Cluster.node_count c) (Cluster.nodes c) (Cluster.observed c)
      (X ++ Cluster.message_buffer c) ->
  Inv (Cluster.node_count c) (map Node.stop (Cluster.nodes c)) (Cluster.observed c)
      (X ++ Cluster.message_buffer c).
Proof.
  intros I.
  eapply Inv_eq;
    [apply (inv_quiet _ _ (map Node.stop (Cluster.nodes c)) _ []
              (X ++ Cluster.message_buffer c) (X ++ Cluster.message_buffer c) [] I)
    | | |]; try apply app_nil_r; auto.
  split; [apply length_map|].
  intros i n n' Hn Hn'.
  change (map Node.stop (Cluster.nodes c)) with (Node.stop <$> Cluster.nodes c) in Hn'.
  rewrite list_lookup_fmap, Hn in Hn'. injection Hn' as <-. apply stop_quiet.
Qed.

Lemma initial_node_lookup node_count draws now i n :
  map (fun i => Node.init i node_count (150%Z, 300%Z) (draws i) (now i))
      (seq 0 node_count) !! i = Some n ->
  n = Node.init i node_count (150%Z, 300%Z) (draws i) (now i).
Proof.
  intros H. change (map ?f ?l) with (f <$> l) in H.
  rewrite list_lookup_fmap in H.
  destruct (seq 0 node_count !! i) as [j|] eqn:E; [|discriminate].
  apply lookup_seq in E. destruct E as [-> _]. now injection H as <-.
Qed.

Lemma initial_inv node_count draws now : invariant (initial node_count draws now).
Proof.
  unfold invariant, initial, in_transit. simpl.
  constructor; simpl.
  - now rewrite length_map, length_seq.
  - intros i n H. apply initial_node_lookup in H. subst n. auto.
  - unfold voted. simpl. intros b a a' t H. rewrite andb_false_r in H. discriminate.
  - unfold voted. simpl. intros b a t n H. rewrite andb_false_r in H. discriminate.
  - discriminate.
  - contradiction.
  - contradiction.
  - intros. unfold outstanding. simpl. lia.
  - intros a n H Hs. apply initial_node_lookup in H. subst n. discriminate.
  - intros a n H Hs. apply initial_node_lookup in H. subst n. discriminate.
  - discriminate.
Qed.

Lemma step_inv s s' : step s s' -> invariant s -> invariant s'.
Proof.
  unfold invariant, in_transit.
  intros H. destruct H; simpl; intros I.
  - now apply (tick_inv current_time now r i c).
  - now rewrite app_nil_r.
  - now apply (deliver_inv now message c).
  - now apply (deliver_append_entries_inv now message c).
  - now apply fail_node_inv.
  - now apply restore_node_inv.
  - now apply inv_events.
  - now apply inv_events.
  - now apply stop_inv.
Qed.

Lemma steps_inv s s' : steps s s' -> invariant s -> invariant s'.
Proof. induction 1 as [|s1 s2 s3 _ IH Hst]; intros I; [exact I|]. eapply step_inv; eauto. Qed.

Lemma reachable_inv s : reachable s -> invariant s.
Proof.
  intros (N & draws & now & H). eapply steps_inv; [exact H|]. apply initial_inv.
Qed.

(** ** Runs *)

Lemma steps_one s s' : step s s' -> steps s s'.
Proof. intros H. eapply steps_step; [apply steps_refl|exact H]. Qed.

Lemma steps_trans s1 s2 s3 : steps s1 s2 -> steps s2 s3 -> steps s1 s3.
Proof.
  intros H12 H23. induction H23 as [|s2 s3 s4 _ IH Hst]; [exact H12|].
  eapply steps_step; [apply IH; exact H12|exact Hst].
Qed.

Lemma tick_one_steps current_time now r i s : steps s (tick_one current_time now r i s).
Proof.
  unfold tick_one. destruct s as [c cur]. simpl.
  destruct (Cluster.tick current_time now r i c) as [c'|] eqn:E; [|apply steps_refl].
  apply steps_one. now apply (step_tick current_time now r i).
Qed.

Lemma pump_one_steps now s : steps s (pump_one now s).
Proof.
  unfold pump_one. destruct s as [c [|m rest]]; simpl.
  - destruct (Cluster.running c) eqn:E; [|apply steps_refl].
    apply steps_one. now apply step_swap.
  - destruct (Cluster.deliver now m c) as [c'|] eqn:E; [|apply steps_refl].
    apply steps_one. now apply (step_deliver now).
Qed.

Lemma reachable_steps s s' : reachable s -> steps s s' -> reachable s'.
Proof.
  intros (N & draws & now & H) H'. exists N, draws, now.
  eapply steps_trans; eauto.
Qed.

(** The event stream only grows. *)
Lemma step_observed s s' :
  step s s' ->
  exists E, Cluster.observed (cluster s') = Cluster.observed (cluster s) ++ E.
Proof.
  intros H. destruct H; simpl.
  - unfold Cluster.tick in H.
    destruct (Cluster.nodes c !! i) as [n|]; [|discriminate].
    destruct (Node.running n); [|discriminate].
    destruct (Node.run_iteration current_time now r n) as [n' evs].
    injection H as <-. rewrite publish_eq. simpl. eauto.
  - exists []. now rewrite app_nil_r.
  - unfold Cluster.deliver in H.
    destruct (Cluster.can_deliver_message c (m_from message) (m_to message)).
    + destruct (Cluster.nodes c !! m_to message) as [n|]; [|discriminate].
      destruct (Node.receive_message now message n) as [[n' evs]|]; [|discriminate].
      injection H as <-. rewrite publish_eq. simpl. rewrite <- app_assoc. eauto.
    + injection H as <-. exists []. now rewrite app_nil_r.
  - unfold Cluster.deliver in H0.
    destruct (Cluster.can_deliver_message c (m_from message) (m_to message)).
    + destruct (Cluster.nodes c !! m_to message) as [n|]; [|discriminate].
      destruct (Node.receive_message now message n) as [[n' evs]|]; [|discriminate].
      injection H0 as <-. rewrite publish_eq. simpl. rewrite <- app_assoc. eauto.
    + injection H0 as <-. exists []. now rewrite app_nil_r.
  - unfold Cluster.fail_node.
    destruct (node_id <? Cluster.node_count c); [|exists []; now rewrite app_nil_r].
    destruct (Cluster.nodes c !! node_id) as [n|]; [|exists []; now rewrite app_nil_r].
    destruct (Node.simulate_failure n) as [n' evs].
    rewrite publish_eq. simpl. rewrite <- app_assoc. eauto.
  - unfold Cluster.restore_node.
    destruct (node_id <? Cluster.node_count c); [|exists []; now rewrite app_nil_r].
    destruct (Cluster.nodes c !! node_id) as [n|]; [|exists []; now rewrite app_nil_r].
    destruct (Node.restore now n) as [n' evs].
    rewrite publish_eq. simpl. rewrite <- app_assoc. eauto.
  - eauto.
  - eauto.
  - exists []. now rewrite app_nil_r.
Qed.

Lemma steps_observed s s' :
  steps s s' ->
  exists E, Cluster.observed (cluster s') = Cluster.observed (cluster s) ++ E.
Proof.
  induction 1 as [s|s1 s2 s3 _ [E1 IH] Hst].
  - exists []. now rewrite app_nil_r.
  - destruct (step_observed _ _ Hst) as [E2 H2].
    exists (E1 ++ E2). now rewrite H2, IH, app_assoc.
Qed.

(** Two leaders on record for one term are the same node. *)
Lemma won_unique N ns L P a b t :
  Inv N ns L P -> won L a t = true -> won L b t = true -> a = b.
Proof.
  intros I Ha Hb.
  destruct (inv_won _ _ _ _ I a t Ha) as (_ & Hsa & Hma).
  destruct (inv_won _ _ _ _ I b t Hb) as (_ & Hsb & Hmb).
  destruct (pigeonhole (fun x => (x =? a) || granted L x a t)
                       (fun x => (x =? b) || granted L x b t) (seq 0 N))
    as (x & _ & Hxa & Hxb).
  { rewrite length_seq. unfold supporters in Hma, Hmb. lia. }
  apply (inv_one_vote _ _ _ _ I x a b t); unfold voted.
  - apply orb_true_iff in Hxa. destruct Hxa as [Hxa|Hxa].
    + now rewrite Hxa, Hsa, orb_true_r.
    + now rewrite Hxa.
  - apply orb_true_iff in Hxb. destruct Hxb as [Hxb|Hxb].
    + now rewrite Hxb, Hsb, orb_true_r.
    + now rewrite Hxb.
Qed.

Lemma election_run_reachable : reachable election_run.
Proof.
  exists 2, (fun _ => 150%Z), (fun _ => 0%Q). unfold election_run.
  repeat (eapply steps_trans; [|apply pump_one_steps]).
  apply tick_one_steps.
Qed.

(** * The claims *)

(** C1 (election safety): along any run of the cluster from its initial
    state, whenever a node [a] is leader with current term [t] in some
    state and a node [b] is leader with current term [t] in that state or a
    later one, [a] and [b] are the same node. *)
Theorem election_safety s1 s2 a b t :
  reachable s1 -> steps s1 s2 ->
  leader_at s1 a t -> leader_at s2 b t -> a = b.
Proof.
  intros Hr Hs (na & Ha & Hla & Hta) (nb & Hb & Hlb & Htb).
  pose proof (reachable_inv s1 Hr) as I1.
  pose proof (reachable_inv s2 (reachable_steps s1 s2 Hr Hs)) as I2.
  destruct (steps_observed s1 s2 Hs) as [E HE].
  unfold invariant in I1, I2.
  pose proof (inv_leader _ _ _ _ I1 a na Ha Hla) as Wa.
  pose proof (inv_leader _ _ _ _ I2 b nb Hb Hlb) as Wb.
  rewrite Hta in Wa. rewrite Htb in Wb.
  apply (won_mono _ E) in Wa. rewrite <- HE in Wa.
  exact (won_unique _ _ _ _ a b t I2 Wa Wb).
Qed.

Lemma election_safety_witness :
  reachable election_run /\ leader_at election_run 0 1 /\ 0 = 0.
Proof.
  assert (Hl : leader_at election_run 0 1).
  { eexists. split; [vm_compute; reflexivity|]. split; reflexivity. }
  split; [exact election_run_reachable|]. split; [exact Hl|].
  exact (election_safety election_run election_run 0 0 1
           election_run_reachable (steps_refl election_run) Hl Hl).
Defined.

(** ** Terms never decrease *)

Lemma enqueue_current_term n q : Node.current_term (enqueue n q) = Node.current_term n.
Proof. reflexivity. Qed.

Lemma start_election_term now r n :
  Node.current_term (Node.start_election now r n).1 = Node.current_term n + 1.
Proof. unfold Node.start_election. now rewrite request_votes_eq. Qed.

Lemma handle_vote_request_term now m n :
  Node.current_term n <= Node.current_term (Node.handle_vote_request now m n).1.
Proof.
  unfold Node.handle_vote_request.
  destruct (Node.current_term n <? m_term m) eqn:E; simpl.
  - rewrite Nat.leb_refl. simpl. apply Nat.ltb_lt in E. lia.
  - destruct (_ && _); simpl; lia.
Qed.

Lemma handle_vote_response_term m n :
  match Node.handle_vote_response m n with
  | Some r => Node.current_term n <= Node.current_term r.1
  | None => True
  end.
Proof.
  unfold Node.handle_vote_response.
  destruct (negb _); [simpl; lia|].
  destruct (m_vote_granted m) as [vg|]; [|exact Logic.I].
  destruct (Node.current_term n <? m_term m) eqn:E.
  - simpl. apply Nat.ltb_lt in E. lia.
  - destruct (vg && _); [|simpl; lia]. simpl.
    destruct (exceeds_half _ _); [|simpl; lia].
    rewrite send_heartbeats_eq. simpl. lia.
Qed.

Lemma handle_append_entries_term now m n :
  Node.current_term n <= Node.current_term (Node.handle_append_entries now m n).1.
Proof. destruct (handle_append_entries_quiet now m n) as [(_ & _ & H & _) _]. exact H. Qed.

Lemma restore_term now n :
  Node.current_term n <= Node.current_term (Node.restore now n).1.
Proof. destruct (restore_quiet now n) as [(_ & _ & H & _) _]. exact H. Qed.

Lemma receive_message_term now m n :
  match Node.receive_message now m n with
  | Some r => Node.current_term n <= Node.current_term r.1
  | None => True
  end.
Proof.
  unfold Node.receive_message.
  destruct (String.eqb _ _); [apply handle_vote_request_term|].
  destruct (String.eqb _ _); [apply handle_vote_response_term|].
  destruct (String.eqb _ _); [apply handle_append_entries_term|].
  simpl. lia.
Qed.

Lemma run_iteration_term current_time now r n :
  Node.current_term n <= Node.current_term (Node.run_iteration current_time now r n).1.
Proof.
  unfold Node.run_iteration. destruct (NodeState_eqb _ _).
  - rewrite send_heartbeats_eq. simpl. lia.
  - destruct (Qgtb _ _); [rewrite start_election_term|simpl]; lia.
Qed.

Lemma insert_term_le (ns : list Node.t) i n0 n0' j n :
  ns !! i = Some n0 -> Node.current_term n0 <= Node.current_term n0' ->
  ns !! j = Some n ->
  exists n', (<[i := n0']> ns) !! j = Some n'
             /\ Node.current_term n <= Node.current_term n'.
Proof.
  intros Hi Hle Hj. destruct (decide (i = j)) as [->|Hne].
  - exists n0'. rewrite (lookup_insert_same ns j n0 n0' Hi).
    split; [reflexivity|]. replace n with n0 by congruence. exact Hle.
  - exists n. rewrite list_lookup_insert_ne by exact Hne. split; [exact Hj|lia].
Qed.

Lemma deliver_term now m c c' j n :
  Cluster.deliver now m c = Some c' -> Cluster.nodes c !! j = Some n ->
  exists n', Cluster.nodes c' !! j = Some n'
             /\ Node.current_term n <= Node.current_term n'.
Proof.
  intros H Hj. unfold Cluster.deliver in H.
  destruct (Cluster.can_deliver_message c (m_from m) (m_to m)).
  - destruct (Cluster.nodes c !! m_to m) as [n0|] eqn:Hn; [|discriminate].
    pose proof (receive_message_term now m n0) as Hle.
    destruct (Node.receive_message now m n0) as [[n' evs]|]; [|discriminate].
    injection H as <-. rewrite publish_eq. simpl.
    now apply (insert_term_le _ _ n0).
  - injection H as <-. exists n. split; [exact Hj|lia].
Qed.

Lemma step_term s s' j n :
  step s s' -> Cluster.nodes (cluster s) !! j = Some n ->
  exists n', Cluster.nodes (cluster s') !! j = Some n'
             /\ Node.current_term n <= Node.current_term n'.
Proof.
  intros H. destruct H; simpl; intros Hj.
  - unfold Cluster.tick in H.
    destruct (Cluster.nodes c !! i) as [n0|] eqn:Hn; [|discriminate].
    destruct (Node.running n0); [|discriminate].
    pose proof (run_iteration_term current_time now r n0) as Hle.
    destruct (Node.run_iteration current_time now r n0) as [n' evs].
    injection H as <-. rewrite publish_eq. simpl.
    now apply (insert_term_le _ _ n0).
  - exists n. split; [exact Hj|lia].
  - now apply (deliver_term now message c).
  - now apply (deliver_term now message c).
  - unfold Cluster.fail_node.
    destruct (node_id <? Cluster.node_count c); [|exists n; split; [exact Hj|lia]].
    destruct (Cluster.nodes c !! node_id) as [n0|] eqn:Hn;
      [|exists n; split; [exact Hj|lia]].
    destruct (simulate_failure_quiet n0) as [(_ & _ & Hle & _) _].
    destruct (Node.simulate_failure n0) as [n' evs].
    rewrite publish_eq. simpl. now apply (insert_term_le _ _ n0).
  - unfold Cluster.restore_node.
    destruct (node_id <? Cluster.node_count c); [|exists n; split; [exact Hj|lia]].
    destruct (Cluster.nodes c !! node_id) as [n0|] eqn:Hn;
      [|exists n; split; [exact Hj|lia]].
    pose proof (restore_term now n0) as Hle.
    destruct (Node.restore now n0) as [n' evs].
    rewrite publish_eq. simpl. now apply (insert_term_le _ _ n0).
  - exists n. split; [exact Hj|lia].
  - exists n. split; [exact Hj|lia].
  - exists (Node.stop n). split; [|simpl; lia].
    change (map Node.stop (Cluster.nodes c)) with (Node.stop <$> Cluster.nodes c).
    now rewrite list_lookup_fmap, Hj.
Qed.

Lemma steps_term s s' j n :
  steps s s' -> Cluster.nodes (cluster s) !! j = Some n ->
  exists n', Cluster.nodes (cluster s') !! j = Some n'
             /\ Node.current_term n <= Node.current_term n'.
Proof.
  intros H. revert n. induction H as [s|s1 s2 s3 _ IH Hst]; intros n Hj.
  - exists n. split; [exact Hj|lia].
  - destruct (IH n Hj) as (n2 & H2 & Hle2).
    destruct (step_term _ _ j n2 Hst H2) as (n3 & H3 & Hle3).
    exists n3. split; [exact H3|lia].
Qed.

(** C2 (term monotonicity): every operation that touches the term leaves
    [current_term] at least as large as it was (an operation that raises
    leaves the node as it was), and so along any run the term of each node
    never decreases. *)
Theorem current_term_never_decreases :
  (forall now r n,
     Node.current_term n <= Node.current_term (Node.start_election now r n).1)
  /\ (forall now m n,
        Node.current_term n <= Node.current_term (Node.handle_vote_request now m n).1)
  /\ (forall m n,
        match Node.handle_vote_response m n with
        | Some r => Node.current_term n <= Node.current_term r.1
        | None => True
        end)
  /\ (forall now m n,
        Node.current_term n <= Node.current_term (Node.handle_append_entries now m n).1)
  /\ (forall now n, Node.current_term n <= Node.current_term (Node.restore now n).1)
  /\ (forall n, Node.current_term n <= Node.current_term (Node.stop n))
  /\ (forall n, Node.current_term n <= Node.current_term (Node.simulate_failure n).1)
  /\ (forall s s' i n,
        steps s s' -> Cluster.nodes (cluster s) !! i = Some n ->
        exists n', Cluster.nodes (cluster s') !! i = Some n'
                   /\ Node.current_term n <= Node.current_term n').
Proof.
  repeat split.
  - intros. rewrite start_election_term. lia.
  - apply handle_vote_request_term.
  - apply handle_vote_response_term.
  - apply handle_append_entries_term.
  - apply restore_term.
  - intros. simpl. lia.
  - intros. simpl. lia.
  - intros s s' i n. apply steps_term.
Qed.

Lemma current_term_never_decreases_witness :
  exists n', Cluster.nodes (cluster election_run) !! 0 = Some n'
             /\ 0 <= Node.current_term n'.
Proof.
  destruct current_term_never_decreases as (_ & _ & _ & _ & _ & _ & _ & H).
  apply (H (initial 2 (fun _ => 150%Z) (fun _ => 0%Q)) election_run 0
           (Node.init 0 2 (150%Z, 300%Z) 150 0)).
  - unfold election_run.
    repeat (eapply steps_trans; [|apply pump_one_steps]).
    apply tick_one_steps.
  - reflexivity.
Defined.

(** ** The vote-grant rule *)

Lemma handle_vote_request_eq now m n :
  let n1 := if Node.current_term n <? m_term m then adopt n (m_term m) else n in
  let grant := (Node.current_term n1 <=? m_term m) && free_for n1 (m_from m) in
  let reply := mkMessage "vote_response" (Node.id n) (m_from m)
                 (Node.current_term n1) (Some grant) None None in
  Node.handle_vote_request now m n
  = (Node.message_queue_append
       (if grant
        then Node.set_last_heartbeat (Node.set_voted_for n1 (Some (m_from m))) now
        else n1) reply,
     (if Node.current_term n <? m_term m
      then [(Node.id n, state_change FOLLOWER (m_term m))] else [])
     ++ [(Node.id n, message_sent reply)]).
Proof.
  unfold Node.handle_vote_request, free_for, adopt.
  destruct (Node.current_term n <? m_term m) eqn:E; simpl.
  - rewrite Nat.leb_refl. reflexivity.
  - destruct (_ && _); reflexivity.
Qed.

Lemma last_sent_snoc evs i m : last_sent (evs ++ [(i, message_sent m)]) = Some m.
Proof. unfold last_sent. now rewrite last_snoc. Qed.

Lemma handle_vote_request_reply now m n :
  let n1 := if Node.current_term n <? m_term m then adopt n (m_term m) else n in
  let grant := (Node.current_term n1 <=? m_term m) && free_for n1 (m_from m) in
  reply_granted (Node.handle_vote_request now m n) = Some grant
  /\ Node.current_term (Node.handle_vote_request now m n).1 = Node.current_term n1
  /\ Node.voted_for (Node.handle_vote_request now m n).1
     = (if grant then Some (m_from m) else Node.voted_for n1).
Proof.
  intros n1 grant. rewrite handle_vote_request_eq. fold n1 grant.
  unfold reply_granted. cbn [fst snd]. rewrite last_sent_snoc.
  split; [reflexivity|]. destruct grant; auto.
Qed.

Lemma reply_granted_fresh now c b t n :
  fresh_for n t ->
  reply_granted (Node.handle_vote_request now (request_vote_from c b t) n) = Some true
  /\ Node.current_term (Node.handle_vote_request now (request_vote_from c b t) n).1 = t
  /\ Node.voted_for (Node.handle_vote_request now (request_vote_from c b t) n).1 = Some c.
Proof.
  intros Hf.
  destruct (handle_vote_request_reply now (request_vote_from c b t) n) as (-> & -> & ->).
  unfold free_for, adopt. simpl.
  destruct Hf as [Hlt|[Ht Hv]].
  - apply Nat.ltb_lt in Hlt. rewrite Hlt. simpl. rewrite Nat.leb_refl. simpl. auto.
  - subst t. rewrite Nat.ltb_irrefl, Nat.leb_refl, Hv. simpl. auto.
Qed.

Lemma reply_granted_voted now c b t n :
  Node.current_term n = t -> Node.voted_for n = Some c ->
  reply_granted (Node.handle_vote_request now (request_vote_from c b t) n) = Some true
  /\ Node.current_term (Node.handle_vote_request now (request_vote_from c b t) n).1 = t
  /\ Node.voted_for (Node.handle_vote_request now (request_vote_from c b t) n).1 = Some c.
Proof.
  intros <- Hv.
  destruct (handle_vote_request_reply now (request_vote_from c b (Node.current_term n)) n)
    as (-> & -> & ->).
  unfold free_for. simpl.
  rewrite Nat.ltb_irrefl, Nat.leb_refl, Hv, Nat.eqb_refl. simpl. auto.
Qed.

Lemma reply_refused_other now c c' b t n :
  Node.current_term n = t -> Node.voted_for n = Some c -> c' <> c ->
  reply_granted (Node.handle_vote_request now (request_vote_from c' b t) n) = Some false.
Proof.
  intros <- Hv Hne.
  destruct (handle_vote_request_reply now (request_vote_from c' b (Node.current_term n)) n)
    as (-> & _ & _).
  unfold free_for. simpl.
  rewrite Nat.ltb_irrefl, Nat.leb_refl, Hv. simpl.
  assert (E : (c =? c') = false) by (apply Nat.eqb_neq; congruence).
  now rewrite E.
Qed.

(** C3 (vote-grant rule): [handle_vote_request] first adopts the term of the
    request when it is greater than the node's (term set, vote cleared,
    role Follower), then grants exactly when the request's term is at least
    the current term and the node has voted for nobody or for this
    candidate; on grant it records the candidate and the time.  Hence a
    node that has not voted in term [t] grants two successive requests of
    [A] for [t] and refuses a following request of another candidate [C]. *)
Theorem vote_grant_rule :
  (forall now m n,
     let n1 := if Node.current_term n <? m_term m then adopt n (m_term m) else n in
     let grant := (Node.current_term n1 <=? m_term m) && free_for n1 (m_from m) in
     let r := Node.handle_vote_request now m n in
     (Node.current_term n < m_term m ->
      Node.current_term n1 = m_term m /\ Node.voted_for n1 = None
      /\ Node.state n1 = FOLLOWER)
     /\ Node.current_term r.1 = Node.current_term n1
     /\ Node.state r.1 = Node.state n1
     /\ Node.voted_for r.1 = (if grant then Some (m_from m) else Node.voted_for n1)
     /\ Node.last_heartbeat r.1 = (if grant then now else Node.last_heartbeat n)
     /\ last_sent r.2
        = Some (mkMessage "vote_response" (Node.id n) (m_from m)
                  (Node.current_term n1) (Some grant) None None)
     /\ (grant = true <->
         Node.current_term n1 <= m_term m
         /\ (Node.voted_for n1 = None \/ Node.voted_for n1 = Some (m_from m))))
  /\ (forall now1 now2 now3 A C B t n,
        fresh_for n t -> C <> A ->
        let r1 := Node.handle_vote_request now1 (request_vote_from A B t) n in
        let r2 := Node.handle_vote_request now2 (request_vote_from A B t) r1.1 in
        let r3 := Node.handle_vote_request now3 (request_vote_from C B t) r2.1 in
        reply_granted r1 = Some true /\ reply_granted r2 = Some true
        /\ reply_granted r3 = Some false).
Proof.
  split.
  - intros now m n n1 grant r.
    assert (Hr : r = Node.handle_vote_request now m n) by reflexivity.
    rewrite handle_vote_request_eq in Hr. fold n1 grant in Hr. rewrite Hr.
    cbn [fst snd]. rewrite last_sent_snoc.
    split.
    { intros Hlt. apply Nat.ltb_lt in Hlt. unfold n1. rewrite Hlt. simpl. auto. }
    repeat split.
    + destruct grant; reflexivity.
    + destruct grant; reflexivity.
    + destruct grant; reflexivity.
    + destruct grant; [reflexivity|]. unfold n1.
      destruct (Node.current_term n <? m_term m); reflexivity.
    + unfold grant in H. apply andb_true_iff in H. destruct H as [H _].
      now apply Nat.leb_le.
    + unfold grant in H. apply andb_true_iff in H. destruct H as [_ H].
      unfold free_for in H. destruct (Node.voted_for n1) as [v|]; [|now left].
      apply Nat.eqb_eq in H. right. congruence.
    + intros [Hle Hv]. unfold grant. apply andb_true_iff. split.
      * now apply Nat.leb_le.
      * unfold free_for. destruct Hv as [->| ->]; [reflexivity|apply Nat.eqb_refl].
  - intros now1 now2 now3 A C B t n Hf Hne r1 r2 r3.
    destruct (reply_granted_fresh now1 A B t n Hf) as (H1 & Ht1 & Hv1).
    fold r1 in H1, Ht1, Hv1.
    destruct (reply_granted_voted now2 A B t r1.1 Ht1 Hv1) as (H2 & Ht2 & Hv2).
    fold r2 in H2, Ht2, Hv2.
    pose proof (reply_refused_other now3 A C B t r2.1 Ht2 Hv2 Hne) as H3.
    auto.
Qed.

Lemma vote_grant_rule_witness :
  let n := Node.init 1 3 (150%Z, 300%Z) 200 0 in
  let r1 := Node.handle_vote_request 1 (request_vote_from 0 1 1) n in
  let r2 := Node.handle_vote_request 2 (request_vote_from 0 1 1) r1.1 in
  let r3 := Node.handle_vote_request 3 (request_vote_from 2 1 1) r2.1 in
  reply_granted r1 = Some true /\ reply_granted r2 = Some true
  /\ reply_granted r3 = Some false.
Proof.
  apply (proj2 vote_grant_rule 1%Q 2%Q 3%Q 0 2 1 1 (Node.init 1 3 (150%Z, 300%Z) 200 0)).
  - left. simpl. lia.
  - lia.
Defined.

(** ** Counting votes *)

(** C4 (strict-majority threshold): a candidate that handles a granted vote
    response for its current term adds one to [votes_received]; it becomes
    leader exactly when the new count is strictly more than half of the
    cluster size, and then publishes the state change followed by one
    heartbeat per peer, queueing one [append_entries] per peer; otherwise it
    stays candidate and publishes nothing.  Three votes win in a cluster of
    five and in a cluster of four, two do not. *)
Theorem strict_majority_threshold :
  (forall m n,
     Node.state n = CANDIDATE ->
     m_vote_granted m = Some true ->
     m_term m = Node.current_term n ->
     exists n' evs,
       Node.handle_vote_response m n = Some (n', evs)
       /\ Node.votes_received n' = Node.votes_received n + 1
       /\ Node.current_term n' = Node.current_term n
       /\ (Node.state n' = LEADER <->
           Node.nodes_count n < 2 * (Node.votes_received n + 1))
       /\ (Node.nodes_count n < 2 * (Node.votes_received n + 1) ->
           evs = (Node.id n, state_change LEADER (Node.current_term n))
                 :: map (fun i => (Node.id n, message_sent (heartbeat_message n i)))
                        (peers n)
           /\ Node.message_queue n'
              = Node.message_queue n ++ map (append_entries_message n) (peers n))
       /\ (2 * (Node.votes_received n + 1) <= Node.nodes_count n ->
           Node.state n' = CANDIDATE /\ evs = []
           /\ Node.message_queue n' = Node.message_queue n))
  /\ exceeds_half 3 5 = true /\ exceeds_half 2 5 = false
  /\ exceeds_half 3 4 = true /\ exceeds_half 2 4 = false.
Proof.
  split; [|repeat split; reflexivity].
  intros m n Hc Hg Ht. unfold Node.handle_vote_response.
  rewrite Hc, Hg, Ht, Nat.ltb_irrefl, Nat.eqb_refl. simpl.
  destruct (exceeds_half (Node.votes_received n + 1) (Node.nodes_count n)) eqn:E.
  - rewrite send_heartbeats_eq. apply exceeds_half_spec in E.
    eexists _, _. split; [reflexivity|]. simpl.
    repeat split; auto; try lia.
  - assert (E' : ~ Node.nodes_count n < 2 * (Node.votes_received n + 1)).
    { rewrite <- exceeds_half_spec. congruence. }
    eexists _, _. split; [reflexivity|]. simpl. rewrite Hc.
    repeat split; auto; try lia; try discriminate.
Qed.

Lemma strict_majority_threshold_witness :
  let n := Node.set_votes_received (Node.start_election 1 200
             (Node.init 0 5 (150%Z, 300%Z) 200 0)).1 2 in
  exists n' evs,
    Node.handle_vote_response (vote_response_to 1 0 1 true) n = Some (n', evs)
    /\ Node.votes_received n' = 3 /\ Node.state n' = LEADER.
Proof.
  intros n.
  destruct (proj1 strict_majority_threshold (vote_response_to 1 0 1 true) n)
    as (n' & evs & H & Hv & _ & Hl & _).
  - vm_compute. reflexivity.
  - reflexivity.
  - vm_compute. reflexivity.
  - exists n', evs. split; [exact H|]. split; [exact Hv|].
    apply Hl. vm_compute. lia.
Defined.

(** ** Restore *)

(** C5 (restore contract, amended): [restore] changes nothing on a running
    node; on a node that is not running it sets [running], makes the node a
    follower, adds exactly one to [current_term], clears [voted_for], leaves
    [election_timeout] as it was, and sets [last_heartbeat] to
    [now - election_timeout - 1], so that the next pass of the node's loop,
    at any time from [now] on, starts an election. *)
Theorem restore_contract now n :
  (Node.running n = true -> Node.restore now n = (n, []))
  /\ (Node.running n = false ->
      let n' := (Node.restore now n).1 in
      Node.running n' = true
      /\ Node.state n' = FOLLOWER
      /\ Node.current_term n' = Node.current_term n + 1
      /\ Node.voted_for n' = None
      /\ Node.election_timeout n' = Node.election_timeout n
      /\ Node.last_heartbeat n' = (now - Node.election_timeout n - 1)%Q
      /\ forall current_time now' r,
           (now <= current_time)%Q ->
           Node.run_iteration current_time now' r n'
           = Node.start_election now' r n').
Proof.
  split; intros Hr; unfold Node.restore; rewrite Hr; simpl; [reflexivity|].
  repeat split.
  intros current_time now' r Hle. unfold Node.run_iteration. simpl.
  enough (E : Qgtb (current_time - (now - Node.election_timeout n - 1))
                   (Node.election_timeout n) = true) by now rewrite E.
  unfold Qgtb. apply negb_true_iff.
  apply not_true_iff_false. rewrite Qle_bool_iff. lra.
Qed.

Lemma restore_contract_witness :
  let n := (Node.simulate_failure (Node.init 0 5 (150%Z, 300%Z) 300 0)).1 in
  Node.current_term (Node.restore 10 n).1 = 1
  /\ Node.election_timeout (Node.restore 10 n).1 = (300 # 1000)%Q
  /\ Node.run_iteration 10 10 150 (Node.restore 10 n).1
     = Node.start_election 10 150 (Node.restore 10 n).1.
Proof.
  intros n.
  destruct (proj2 (restore_contract 10 n) eq_refl)
    as (_ & _ & Ht & _ & He & _ & Hrun).
  split; [exact Ht|]. split; [exact He|].
  apply Hrun. vm_compute. discriminate.
Defined.

(** The claim as stated (restore redraws the timeout) fails: a node whose
    timeout was drawn as 300 ms, crashed and restored when the next draw
    would be 150 ms, still has a timeout of 300 ms. *)
Lemma restore_redraw_counterexample :
  ~ (forall now r n,
       Node.running n = false ->
       (fst (Node.election_timeout_range n) <= r <= snd (Node.election_timeout_range n))%Z ->
       (Node.election_timeout (Node.restore now n).1
        == Node.election_timeout (Node.reset_election_timeout r n))%Q).
Proof.
  intros H.
  specialize (H 10%Q 150%Z
                (Node.simulate_failure (Node.init 0 5 (150%Z, 300%Z) 300 0)).1
                eq_refl).
  simpl in H. assert (Hr : (150 <= 150 <= 300)%Z) by lia.
  specialize (H Hr). vm_compute in H. discriminate.
Qed.

(** ** Crashed nodes *)

(** C6 (crashed-node isolation) does not hold of the code: a node on which
    [simulate_failure] was called, so that [running] is false, still handles
    a vote request delivered to it.  It adopts the term, votes, and
    publishes two events, among them a granted vote response that the
    cluster forwards; and the pump delivers to it like to any other node. *)
Theorem crashed_node_still_handles_messages :
  let n := (Node.simulate_failure (Node.init 0 3 (150%Z, 300%Z) 200 0)).1 in
  let m := request_vote_from 1 0 1 in
  let c := Cluster.fail_node 0 (Cluster.init 3 (fun _ => 200%Z) (fun _ => 0%Q)) in
  Node.running n = false
  /\ (exists n',
        Node.receive_message 1 m n
        = Some (n', [(0, state_change FOLLOWER 1);
                     (0, message_sent (vote_response_to 0 1 1 true))])
        /\ Node.current_term n' = 1 /\ Node.voted_for n' = Some 1
        /\ Node.running n' = false)
  /\ (exists c',
        Cluster.deliver 1 m c = Some c'
        /\ Cluster.message_buffer c' = [vote_response_to 0 1 1 true]
        /\ last (Cluster.observed c') = Some (message_delivered m)).
Proof.
  repeat split.
  - eexists. split; [vm_compute; reflexivity|]. repeat split.
  - eexists. split; [vm_compute; reflexivity|]. split; reflexivity.
Qed.

(** ** Replies and the transport *)

Lemma handle_append_entries_events now m n ev :
  In ev (Node.handle_append_entries now m n).2 ->
  exists t, ev = (Node.id n, state_change FOLLOWER t).
Proof.
  unfold Node.handle_append_entries.
  destruct (Node.current_term n <? m_term m) eqn:E1; simpl.
  - rewrite Nat.leb_refl. simpl. intros [<-|[]]. eauto.
  - destruct (Node.current_term n <=? m_term m); simpl.
    + destruct (Node.state n); simpl; intros H; try contradiction.
      destruct H as [<-|[]]. eauto.
    + contradiction.
Qed.

(** C7 (responses flow through the transport) does not hold of the code for
    [handle_append_entries]: its reply is appended to the node's own
    [message_queue] and never published, so nothing reaches the cluster's
    buffer; the only events of the handler are state changes.  The reply of
    [handle_vote_request], in contrast, is published and buffered. *)
Theorem append_entries_response_not_published now m n :
  let r := Node.handle_append_entries now m n in
  messages_of r.2 = []
  /\ List.Forall (fun ev => exists t, ev = (Node.id n, state_change FOLLOWER t)) r.2
  /\ last (Node.message_queue r.1)
     = Some (mkMessage "append_entries_response" (Node.id n) (m_from m)
               (Node.current_term r.1) None None
               (Some (Node.current_term r.1 <=? m_term m)))
  /\ messages_of (Node.handle_vote_request now m n).2
     = [stamp_from (mkMessage "vote_response" (Node.id n) (m_from m)
                      (Node.current_term (Node.handle_vote_request now m n).1)
                      (reply_granted (Node.handle_vote_request now m n))
                      None None) (Node.id n)].
Proof.
  intros r. split; [apply handle_append_entries_quiet|].
  split; [apply List.Forall_forall; apply handle_append_entries_events|]. split.
  - unfold r, Node.handle_append_entries.
    destruct (Node.current_term n <? m_term m) eqn:E1; simpl.
    + rewrite Nat.leb_refl. simpl. now rewrite last_snoc, Nat.leb_refl.
    + destruct (Node.current_term n <=? m_term m) eqn:E2; simpl.
      * destruct (Node.state n); simpl; now rewrite last_snoc, E2.
      * now rewrite last_snoc, E2.
  - destruct (handle_vote_request_reply now m n) as (-> & -> & _).
    rewrite handle_vote_request_eq. cbn [fst snd].
    destruct (Node.current_term n <? m_term m); reflexivity.
Qed.

(** At a concrete input: a heartbeat of term 1 from node 1, handled by node
    0 of a fresh three-node cluster, leaves the cluster's buffer empty. *)
Lemma append_entries_response_lost :
  let c := Cluster.init 3 (fun _ => 200%Z) (fun _ => 0%Q) in
  let m := mkMessage "append_entries" 1 0 1 None (Some []) None in
  exists c', Cluster.deliver 1 m c = Some c'
             /\ Cluster.message_buffer c' = []
             /\ (exists n', Cluster.nodes c' !! 0 = Some n'
                            /\ Node.message_queue n'
                               = [mkMessage "append_entries_response" 0 1 1 None None
                                    (Some true)]).
Proof.
  eexists. split; [vm_compute; reflexivity|]. split; [reflexivity|].
  eexists. split; reflexivity.
Qed.

(** ** The partition filter *)

Lemma member_In x group : member x group = true <-> In x group.
Proof.
  unfold member. rewrite existsb_exists. split.
  - intros (y & Hy & E). apply Nat.eqb_eq in E. now subst.
  - intros H. exists x. split; [exact H|apply Nat.eqb_refl].
Qed.

(** C8 (partition filter): without a partition every pair can communicate;
    under a partition a message can be delivered exactly when some installed
    group holds both its sender and its receiver, so that overlapping
    groups widen reachability, and a node in no group can neither send to
    nor receive from any node. *)
Theorem can_deliver_message_spec c from_id to_id :
  (Cluster.partitioned c = false ->
   Cluster.can_deliver_message c from_id to_id = true)
  /\ (Cluster.partitioned c = true ->
      (Cluster.can_deliver_message c from_id to_id = true <->
       exists group, In group (Cluster.partition_groups c)
                     /\ In from_id group /\ In to_id group))
  /\ (Cluster.partitioned c = true ->
      (forall group, In group (Cluster.partition_groups c) -> ~ In from_id group) ->
      forall other,
        Cluster.can_deliver_message c from_id other = false
        /\ Cluster.can_deliver_message c other from_id = false).
Proof.
  assert (Hiff : forall x y, Cluster.partitioned c = true ->
            (Cluster.can_deliver_message c x y = true <->
             exists group, In group (Cluster.partition_groups c)
                           /\ In x group /\ In y group)).
  { intros x y Hp. unfold Cluster.can_deliver_message. rewrite Hp. simpl.
    rewrite existsb_exists. split.
    - intros (g & Hg & H). apply andb_true_iff in H. destruct H as [H1 H2].
      exists g. rewrite <- !member_In. auto.
    - intros (g & Hg & H1 & H2). exists g. split; [exact Hg|].
      apply andb_true_iff. rewrite !member_In. auto. }
  split; [|split].
  - intros Hp. unfold Cluster.can_deliver_message. now rewrite Hp.
  - apply Hiff.
  - intros Hp Hno other. split; apply not_true_iff_false; rewrite (Hiff _ _ Hp);
      intros (g & Hg & H1 & H2); exact (Hno g Hg ltac:(assumption)).
Qed.

Lemma can_deliver_message_spec_witness :
  let c := Cluster.create_partition [[0; 1]; [1; 2]]
             (Cluster.init 4 (fun _ => 200%Z) (fun _ => 0%Q)) in
  Cluster.can_deliver_message c 0 1 = true
  /\ Cluster.can_deliver_message c 1 2 = true
  /\ Cluster.can_deliver_message c 3 0 = false
  /\ Cluster.can_deliver_message c 0 3 = false.
Proof.
  intros c.
  destruct (can_deliver_message_spec c 0 1) as (_ & H01 & _).
  destruct (can_deliver_message_spec c 1 2) as (_ & H12 & _).
  destruct (can_deliver_message_spec c 3 0) as (_ & _ & H3).
  split; [apply (H01 eq_refl); exists [0; 1]; simpl; auto|].
  split; [apply (H12 eq_refl); exists [1; 2]; simpl; auto|].
  apply (H3 eq_refl).
  intros g [<-|[<-|[]]]; simpl; lia.
Defined.

(** ** Granted votes per term *)

Lemma handle_vote_request_grants now m n ev a t :
  In ev (Node.handle_vote_request now m n).2 -> grants ev a t ->
  a = m_from m
  /\ t = Node.current_term (Node.handle_vote_request now m n).1
  /\ Node.voted_for (Node.handle_vote_request now m n).1 = Some a
  /\ (t = Node.current_term n ->
      Node.voted_for n = None \/ Node.voted_for n = Some a).
Proof.
  rewrite handle_vote_request_eq. cbn [fst snd].
  intros Hin (m0 & He & Hty & Hg & Hto & Htm).
  apply in_app_or in Hin. destruct Hin as [Hin|[<-|[]]].
  - destruct (Node.current_term n <? m_term m); [|destruct Hin].
    destruct Hin as [<-|[]]. discriminate.
  - simpl in He. injection He as <-. simpl in *. injection Hg as Hg.
    rewrite Hg. simpl. subst a t. repeat split.
    intros Heq. apply andb_true_iff in Hg. destruct Hg as [_ Hf].
    destruct (Node.current_term n <? m_term m) eqn:E.
    + simpl in Heq. apply Nat.ltb_lt in E. lia.
    + unfold free_for in Hf. destruct (Node.voted_for n) as [v|]; [|now left].
      apply Nat.eqb_eq in Hf. right. congruence.
Qed.

Lemma handle_vote_request_vote now m n :
  let n' := (Node.handle_vote_request now m n).1 in
  Node.current_term n <= Node.current_term n'
  /\ (Node.current_term n' = Node.current_term n ->
      forall a, Node.voted_for n' = None \/ Node.voted_for n' = Some a ->
                Node.voted_for n = None \/ Node.voted_for n = Some a).
Proof.
  intros n'. split; [apply handle_vote_request_term|].
  unfold n'. rewrite handle_vote_request_eq. cbn [fst snd].
  destruct (Node.current_term n <? m_term m) eqn:E.
  - unfold adopt, free_for. simpl. rewrite Nat.leb_refl. simpl.
    apply Nat.ltb_lt in E. intros Heq. lia.
  - destruct (_ && free_for n (m_from m)) eqn:G; simpl; [|auto].
    intros _ a [H|H]; [discriminate|].
    apply andb_true_iff in G. destruct G as [_ G]. unfold free_for in G.
    destruct (Node.voted_for n) as [v|]; [|now left].
    apply Nat.eqb_eq in G. right. congruence.
Qed.

Lemma handle_vote_requests_grants calls n ev a t :
  In ev (handle_vote_requests calls n).2 -> grants ev a t ->
  Node.current_term n <= t
  /\ (t = Node.current_term n ->
      Node.voted_for n = None \/ Node.voted_for n = Some a).
Proof.
  revert n. induction calls as [|[now m] calls IH]; intros n Hin Hg; simpl in Hin.
  - destruct Hin.
  - destruct (Node.handle_vote_request now m n) as [n1 evs1] eqn:R1.
    destruct (handle_vote_requests calls n1) as [n2 evs2] eqn:R2.
    simpl in Hin. apply in_app_or in Hin.
    pose proof (handle_vote_request_vote now m n) as [Hle Hv].
    rewrite R1 in Hle, Hv. simpl in Hle, Hv.
    destruct Hin as [Hin|Hin].
    + pose proof (handle_vote_request_grants now m n ev a t) as H.
      rewrite R1 in H. destruct (H Hin Hg) as (_ & Ht & _ & Hfree).
      simpl in Ht. split; [lia|exact Hfree].
    + specialize (IH n1). rewrite R2 in IH. destruct (IH Hin Hg) as [Hle1 Hfree1].
      split; [lia|]. intros Heq. apply Hv; [lia|]. apply Hfree1. lia.
Qed.

(** C9 (granted votes per term, amended): across any sequence of
    [handle_vote_request] calls on a node, all the granted vote responses
    it publishes for one term are addressed to the same candidate. *)
Theorem granted_votes_one_candidate calls n ev1 ev2 a1 a2 t :
  In ev1 (handle_vote_requests calls n).2 ->
  In ev2 (handle_vote_requests calls n).2 ->
  grants ev1 a1 t -> grants ev2 a2 t -> a1 = a2.
Proof.
  revert n. induction calls as [|[now m] calls IH]; intros n H1 H2 G1 G2;
    simpl in H1, H2.
  - destruct H1.
  - pose proof (handle_vote_request_grants now m n) as Hfirst.
    destruct (Node.handle_vote_request now m n) as [n1 evs1] eqn:R1.
    pose proof (handle_vote_requests_grants calls n1) as Hrest.
    specialize (IH n1).
    destruct (handle_vote_requests calls n1) as [n2 evs2] eqn:R2.
    simpl in *. apply in_app_or in H1. apply in_app_or in H2.
    destruct H1 as [H1|H1], H2 as [H2|H2].
    + destruct (Hfirst ev1 a1 t H1 G1) as (-> & _).
      destruct (Hfirst ev2 a2 t H2 G2) as (-> & _). reflexivity.
    + destruct (Hfirst ev1 a1 t H1 G1) as (_ & Ht & Hv & _).
      destruct (Hrest ev2 a2 t H2 G2) as (_ & Hfree).
      destruct (Hfree Ht) as [Hn|Hs]; congruence.
    + destruct (Hfirst ev2 a2 t H2 G2) as (_ & Ht & Hv & _).
      destruct (Hrest ev1 a1 t H1 G1) as (_ & Hfree).
      destruct (Hfree Ht) as [Hn|Hs]; congruence.
    + exact (IH H1 H2 G1 G2).
Qed.

Lemma granted_votes_one_candidate_witness :
  let calls := [(1%Q, request_vote_from 1 0 1); (2%Q, request_vote_from 1 0 1)] in
  let n := Node.init 0 3 (150%Z, 300%Z) 200 0 in
  let ev := (0, message_sent (vote_response_to 0 1 1 true)) in
  In ev (handle_vote_requests calls n).2 /\ grants ev 1 1 /\ 1 = 1.
Proof.
  intros calls n ev.
  assert (Hin : In ev (handle_vote_requests calls n).2) by (vm_compute; auto).
  assert (Hg : grants ev 1 1) by (eexists; repeat split).
  split; [exact Hin|]. split; [exact Hg|].
  exact (granted_votes_one_candidate calls n ev ev 1 1 1 Hin Hin Hg Hg).
Defined.

(** The claim as stated (at most one granted response per term) fails: a
    fresh node that receives the same request of candidate 1 for term 1
    twice publishes two granted vote responses for term 1. *)
Lemma two_granted_responses_counterexample :
  ~ (forall calls n t, granted_responses t (handle_vote_requests calls n).2 <= 1).
Proof.
  intros H.
  specialize (H [(1%Q, request_vote_from 1 0 1); (2%Q, request_vote_from 1 0 1)]
                (Node.init 0 3 (150%Z, 300%Z) 200 0) 1).
  vm_compute in H. lia.
Qed.

(** ** Heartbeats through the transport *)

Lemma receive_message_other now m n :
  m_type m <> "request_vote" -> m_type m <> "vote_response" ->
  m_type m <> "append_entries" ->
  Node.receive_message now m n = Some (n, []).
Proof.
  intros H1 H2 H3. unfold Node.receive_message.
  apply String.eqb_neq in H1, H2, H3. now rewrite H1, H2, H3.
Qed.

Lemma heartbeat_messages (n : Node.t) (l : list nat) :
  messages_of (map (fun i => (Node.id n, message_sent (heartbeat_message n i))) l)
  = map (fun i => stamp_from (heartbeat_message n i) (Node.id n)) l.
Proof. induction l as [|i l IH]; simpl; [reflexivity|]. now rewrite IH. Qed.

(** C10 (heartbeats routed via the transport are never processed): the
    events [send_heartbeats] publishes carry the type ["heartbeat"], so the
    messages a leader's tick puts into the cluster's buffer, one per peer,
    have that type; [receive_message] leaves the node as it is and
    publishes nothing for any type other than ["request_vote"],
    ["vote_response"] and ["append_entries"]; hence the pump's delivery of a
    buffered heartbeat changes no node (in particular no [last_heartbeat])
    and adds no reply to the buffer. *)
Theorem heartbeats_never_processed :
  (forall n ev,
     In ev (Node.send_heartbeats n).2 ->
     exists i, ev = (Node.id n, message_sent (heartbeat_message n i))
               /\ m_type (heartbeat_message n i) = "heartbeat")
  /\ (forall now m n,
        m_type m <> "request_vote" -> m_type m <> "vote_response" ->
        m_type m <> "append_entries" ->
        Node.receive_message now m n = Some (n, []))
  /\ (forall current_time now r i c n,
        Cluster.nodes c !! i = Some n -> Node.running n = true ->
        Node.state n = LEADER ->
        exists c',
          Cluster.tick current_time now r i c = Some c'
          /\ Cluster.message_buffer c'
             = Cluster.message_buffer c
               ++ map (fun j => stamp_from (heartbeat_message n j) (Node.id n)) (peers n))
  /\ (forall now m c,
        m_type m = "heartbeat" -> m_to m < length (Cluster.nodes c) ->
        exists c',
          Cluster.deliver now m c = Some c'
          /\ Cluster.nodes c' = Cluster.nodes c
          /\ Cluster.message_buffer c' = Cluster.message_buffer c).
Proof.
  split; [|split; [|split]].
  - intros n ev. rewrite send_heartbeats_eq. simpl. intros H.
    apply in_map_iff in H. destruct H as (i & <- & _). exists i. auto.
  - apply receive_message_other.
  - intros current_time now r i c n Hn Hr Hl.
    unfold Cluster.tick, Node.run_iteration. rewrite Hn, Hr, Hl. simpl.
    rewrite send_heartbeats_eq. eexists. split; [reflexivity|].
    rewrite publish_eq. simpl. now rewrite heartbeat_messages.
  - intros now m c Hty Hto. unfold Cluster.deliver.
    destruct (Cluster.can_deliver_message c (m_from m) (m_to m)); [|eauto].
    destruct (lookup_lt_is_Some_2 _ _ Hto) as [n Hn]. rewrite Hn.
    rewrite receive_message_other by (rewrite Hty; discriminate).
    eexists. split; [reflexivity|]. simpl.
    split; [now apply list_insert_id|reflexivity].
Qed.

Lemma heartbeats_never_processed_witness :
  let c := cluster election_run in
  let m := mkMessage "heartbeat" 0 1 1 None None None in
  exists n c1 c2,
    Cluster.nodes c !! 0 = Some n
    /\ Cluster.tick 2 2 200 0 c = Some c1
    /\ Cluster.message_buffer c1
       = Cluster.message_buffer c
         ++ map (fun j => stamp_from (heartbeat_message n j) (Node.id n)) (peers n)
    /\ Cluster.deliver 3 m c = Some c2
    /\ Cluster.nodes c2 = Cluster.nodes c
    /\ Cluster.message_buffer c2 = Cluster.message_buffer c.
Proof.
  intros c m.
  destruct heartbeats_never_processed as (_ & _ & Htick & Hdel).
  assert (Hn : exists n, Cluster.nodes c !! 0 = Some n /\ Node.running n = true
                         /\ Node.state n = LEADER).
  { eexists. split; [vm_compute; reflexivity|]. split; reflexivity. }
  destruct Hn as (n & Hn & Hr & Hl).
  destruct (Htick 2%Q 2%Q 200%Z 0 c n Hn Hr Hl) as (c1 & H1 & Hb).
  destruct (Hdel 3%Q m c eq_refl) as (c2 & H2 & Hs & Hbuf).
  { vm_compute. lia. }
  exists n, c1, c2. repeat split; assumption.
Defined.

(** * Further properties of the node *)

Lemma peers_In n i : In i (peers n) <-> i < Node.nodes_count n /\ i <> Node.id n.
Proof.
  unfold peers. rewrite filter_In, in_seq, negb_true_iff, Nat.eqb_neq. lia.
Qed.

Lemma peers_length n :
  Node.id n < Node.nodes_count n -> length (peers n) = Node.nodes_count n - 1.
Proof.
  intros Hid. unfold peers.
  generalize (Node.id n) (Node.nodes_count n) Hid. clear n Hid. intros a N Ha.
  assert (H : forall l, NoDup l -> In a l ->
            length (List.filter (fun i => negb (i =? a)) l) = length l - 1).
  { intros l Hnd. induction Hnd as [|x l Hx Hnd IH]; intros Hin; [destruct Hin|].
    simpl. destruct (x =? a) eqn:E; simpl.
    - apply Nat.eqb_eq in E. subst x. rewrite Nat.sub_0_r.
      clear IH Hin. induction l as [|y l IH]; simpl; [reflexivity|].
      assert (Hy : (y =? a) = false).
      { apply Nat.eqb_neq. intros ->. apply Hx. now left. }
      rewrite Hy. simpl. f_equal. apply IH.
      + intros H. apply Hx. now right.
      + now apply NoDup_cons_1_2 in Hnd.
    - destruct Hin as [->|Hin]; [rewrite Nat.eqb_refl in E; discriminate|].
      rewrite IH by exact Hin. destruct l; [destruct Hin|simpl; lia]. }
  rewrite H; [now rewrite length_seq| |].
  - apply NoDup_ListNoDup, List.seq_NoDup.
  - apply in_seq. lia.
Qed.

Lemma destinations_map (f : nat -> Message) (a : nat) (l : list nat) :
  (forall i, m_to (f i) = i) ->
  destinations (map (fun i => (a, message_sent (f i))) l) = l.
Proof.
  intros Hf. induction l as [|i l IH]; simpl; [reflexivity|]. now rewrite Hf, IH.
Qed.

(** X1: [request_votes] and [send_heartbeats] address exactly one message to
    every other node of the cluster, in increasing order of id, and none to
    the node itself; the same messages (as ["append_entries"] for
    heartbeats) are appended to the node's queue, and nothing else about the
    node changes.  A node whose id is below [nodes_count] thus sends
    [nodes_count - 1] messages. *)
Theorem broadcast_reaches_every_peer_once n :
  destinations (Node.request_votes n).2 = peers n
  /\ destinations (Node.send_heartbeats n).2 = peers n
  /\ Node.request_votes n
     = (enqueue n (map (request_vote_message n) (peers n)), (Node.request_votes n).2)
  /\ Node.send_heartbeats n
     = (enqueue n (map (append_entries_message n) (peers n)), (Node.send_heartbeats n).2)
  /\ NoDup (peers n)
  /\ (forall i, In i (peers n) <-> i < Node.nodes_count n /\ i <> Node.id n)
  /\ (Node.id n < Node.nodes_count n ->
      length (Node.request_votes n).2 = Node.nodes_count n - 1
      /\ length (Node.send_heartbeats n).2 = Node.nodes_count n - 1).
Proof.
  rewrite request_votes_eq, send_heartbeats_eq. cbn [fst snd].
  split; [now apply destinations_map|]. split; [now apply destinations_map|].
  split; [reflexivity|]. split; [reflexivity|].
  split; [apply peers_NoDup|]. split; [apply peers_In|].
  intros Hid. rewrite !length_map. split; now apply peers_length.
Qed.

Lemma broadcast_reaches_every_peer_once_witness :
  let n := Node.init 1 4 (150%Z, 300%Z) 200 0 in
  length (Node.request_votes n).2 = 3 /\ length (Node.send_heartbeats n).2 = 3.
Proof.
  intros n.
  destruct (broadcast_reaches_every_peer_once n) as (_ & _ & _ & _ & _ & _ & H).
  apply H. simpl. lia.
Defined.

Lemma vote_response_candidate_cases m n :
  (Node.state n <> CANDIDATE -> Node.handle_vote_response m n = Some (n, []))
  /\ (Node.state n = CANDIDATE ->
      (Node.handle_vote_response m n = None <-> m_vote_granted m = None)).
Proof.
  unfold Node.handle_vote_response. split.
  - intros H. destruct (Node.state n); try reflexivity. congruence.
  - intros ->. simpl. destruct (m_vote_granted m) as [vg|]; [|tauto].
    split; [|discriminate].
    destruct (Node.current_term n <? m_term m); [discriminate|].
    destruct (vg && _); [|discriminate]. simpl.
    destruct (exceeds_half _ _); [|discriminate].
    rewrite send_heartbeats_eq. discriminate.
Qed.

(** X2: [handle_vote_response] on a node that is not a candidate returns at
    once, before it reads ["vote_granted"]: the node is unchanged and nothing
    is published, whatever the message.  On a candidate it raises exactly
    when the message has no ["vote_granted"] key. *)
Theorem vote_response_needs_candidate m n :
  (Node.state n <> CANDIDATE -> Node.handle_vote_response m n = Some (n, []))
  /\ (Node.state n = CANDIDATE ->
      (Node.handle_vote_response m n = None <-> m_vote_granted m = None)).
Proof. exact (vote_response_candidate_cases m n). Qed.

Lemma vote_response_needs_candidate_witness :
  let m := mkMessage "vote_response" 1 0 1 None None None in
  let n := Node.init 0 3 (150%Z, 300%Z) 200 0 in
  Node.handle_vote_response m n = Some (n, [])
  /\ Node.handle_vote_response m (Node.start_election 1 200 n).1 = None.
Proof.
  intros m n. split.
  - apply (proj1 (vote_response_needs_candidate m n)). discriminate.
  - apply (proj2 (vote_response_needs_candidate m (Node.start_election 1 200 n).1)).
    + vm_compute. reflexivity.
    + reflexivity.
Defined.

(** X3: a candidate that handles a vote response of a greater term steps
    down, whether or not the vote was granted: it adopts the term, becomes
    follower, clears its vote, keeps its tally and publishes the state
    change.  A response of a smaller term, or one that does not grant,
    leaves it entirely unchanged and publishes nothing. *)
Theorem vote_response_step_down_or_ignore m n vote_granted :
  Node.state n = CANDIDATE -> m_vote_granted m = Some vote_granted ->
  (Node.current_term n < m_term m ->
   Node.handle_vote_response m n
   = Some (adopt n (m_term m), [(Node.id n, state_change FOLLOWER (m_term m))]))
  /\ (m_term m < Node.current_term n \/
      (m_term m = Node.current_term n /\ vote_granted = false) ->
      Node.handle_vote_response m n = Some (n, [])).
Proof.
  intros Hc Hg. unfold Node.handle_vote_response. rewrite Hc, Hg. simpl. split.
  - intros Hlt. apply Nat.ltb_lt in Hlt. now rewrite Hlt.
  - intros [Hlt|[Heq ->]].
    + assert (E1 : (Node.current_term n <? m_term m) = false) by (apply Nat.ltb_ge; lia).
      assert (E2 : (m_term m =? Node.current_term n) = false) by (apply Nat.eqb_neq; lia).
      now rewrite E1, E2, andb_false_r.
    + rewrite Heq, Nat.ltb_irrefl. reflexivity.
Qed.

Lemma vote_response_step_down_or_ignore_witness :
  let n := (Node.start_election 1 200 (Node.init 0 3 (150%Z, 300%Z) 200 0)).1 in
  Node.handle_vote_response (vote_response_to 1 0 5 false) n
  = Some (adopt n 5, [(0, state_change FOLLOWER 5)])
  /\ Node.handle_vote_response (vote_response_to 1 0 1 false) n = Some (n, []).
Proof.
  intros n.
  destruct (vote_response_step_down_or_ignore (vote_response_to 1 0 5 false) n false)
    as [H1 _]; [reflexivity|reflexivity|].
  destruct (vote_response_step_down_or_ignore (vote_response_to 1 0 1 false) n false)
    as [_ H2]; [reflexivity|reflexivity|].
  split.
  - apply H1. vm_compute. lia.
  - apply H2. right. split; reflexivity.
Defined.

Lemma handle_append_entries_cases now m n :
  let r := Node.handle_append_entries now m n in
  Node.current_term r.1 = Nat.max (Node.current_term n) (m_term m)
  /\ (m_term m < Node.current_term n ->
      r = (Node.message_queue_append n
             (mkMessage "append_entries_response" (Node.id n) (m_from m)
                (Node.current_term n) None None (Some false)), []))
  /\ (Node.current_term n <= m_term m ->
      Node.last_heartbeat r.1 = now
      /\ Node.state r.1 <> CANDIDATE
      /\ (Node.state r.1 = LEADER <->
          Node.state n = LEADER /\ m_term m = Node.current_term n)
      /\ last (Node.message_queue r.1)
         = Some (mkMessage "append_entries_response" (Node.id n) (m_from m)
                   (m_term m) None None (Some true))).
Proof.
  unfold Node.handle_append_entries.
  destruct (Node.current_term n <? m_term m) eqn:E1; simpl.
  - rewrite Nat.leb_refl. simpl. apply Nat.ltb_lt in E1.
    split; [lia|]. split; [intros; lia|]. intros _.
    rewrite last_snoc, Nat.leb_refl.
    repeat split; try discriminate. intros [_ H]. lia.
  - apply Nat.ltb_ge in E1.
    destruct (Node.current_term n <=? m_term m) eqn:E2; simpl.
    + assert (E4 := E2). apply Nat.leb_le in E2.
      assert (Heq : m_term m = Node.current_term n) by lia.
      destruct (Node.state n) eqn:E3; simpl; rewrite ?E3, last_snoc, E4, <- Heq;
        (split; [lia|]); (split; [intros; lia|]); intros _;
        (split; [reflexivity|]); (split; [discriminate|]);
        (split; [|reflexivity]); intuition congruence.
    + assert (E4 := E2). apply Nat.leb_gt in E2.
      split; [lia|]. split; [intros _; now rewrite E4|]. intros; lia.
Qed.

(** X4: [handle_append_entries] leaves the node at the greater of its term and
    the message's.  A message of a smaller term is rejected: only the reply,
    with [success = False], is queued and nothing is published.  Otherwise
    the contact is accepted: [last_heartbeat] is set to the clock reading,
    the reply says [success = True], and the node is not a candidate
    afterwards; it is leader afterwards exactly when it was leader and the
    message has its own term, so a leader does not step down for a
    heartbeat of its own term. *)
Theorem handle_append_entries_outcome now m n :
  let r := Node.handle_append_entries now m n in
  Node.current_term r.1 = Nat.max (Node.current_term n) (m_term m)
  /\ (m_term m < Node.current_term n ->
      r = (Node.message_queue_append n
             (mkMessage "append_entries_response" (Node.id n) (m_from m)
                (Node.current_term n) None None (Some false)), []))
  /\ (Node.current_term n <= m_term m ->
      Node.last_heartbeat r.1 = now
      /\ Node.state r.1 <> CANDIDATE
      /\ (Node.state r.1 = LEADER <->
          Node.state n = LEADER /\ m_term m = Node.current_term n)
      /\ last (Node.message_queue r.1)
         = Some (mkMessage "append_entries_response" (Node.id n) (m_from m)
                   (m_term m) None None (Some true))).
Proof. exact (handle_append_entries_cases now m n). Qed.

Lemma handle_append_entries_outcome_witness :
  let n := Node.set_state (Node.start_election 1 200
             (Node.init 0 3 (150%Z, 300%Z) 200 0)).1 LEADER in
  Node.state (Node.handle_append_entries 2
                (mkMessage "append_entries" 1 0 1 None (Some []) None) n).1 = LEADER
  /\ Node.handle_append_entries 2 (mkMessage "append_entries" 1 0 0 None (Some []) None) n
     = (Node.message_queue_append n
          (mkMessage "append_entries_response" 0 1 1 None None (Some false)), []).
Proof.
  intros n. split.
  - destruct (handle_append_entries_outcome 2
                (mkMessage "append_entries" 1 0 1 None (Some []) None) n)
      as (_ & _ & H).
    destruct H as (_ & _ & H & _); [vm_compute; lia|].
    apply H. split; reflexivity.
  - destruct (handle_append_entries_outcome 2
                (mkMessage "append_entries" 1 0 0 None (Some []) None) n)
      as (_ & H & _).
    apply H. vm_compute. lia.
Defined.

(** X5: whenever a delivered message raises a node's term, the node ends as
    follower of exactly the message's term, with its vote cleared or given
    to the sender of the message, and it has published the state change. *)
Theorem adoption_makes_follower now m n n' evs :
  Node.receive_message now m n = Some (n', evs) ->
  Node.current_term n < Node.current_term n' ->
  Node.state n' = FOLLOWER
  /\ Node.current_term n' = m_term m
  /\ (Node.voted_for n' = None \/ Node.voted_for n' = Some (m_from m))
  /\ In (Node.id n, state_change FOLLOWER (m_term m)) evs.
Proof.
  unfold Node.receive_message.
  destruct (String.eqb (m_type m) "request_vote").
  { rewrite handle_vote_request_eq. intros H. injection H as <- <-.
    destruct (Node.current_term n <? m_term m) eqn:E.
    - unfold adopt, free_for. simpl. rewrite Nat.leb_refl. simpl.
      intros _. repeat split; auto.
    - destruct (_ && _); simpl; intros; lia. }
  destruct (String.eqb (m_type m) "vote_response").
  { unfold Node.handle_vote_response.
    destruct (negb _); [intros H; injection H as <- <-; intros; lia|].
    destruct (m_vote_granted m) as [vg|]; [|discriminate].
    destruct (Node.current_term n <? m_term m) eqn:E.
    - intros H. injection H as <- <-. simpl. intros _. repeat split; auto.
    - destruct (vg && _); [|intros H; injection H as <- <-; intros; lia].
      simpl. destruct (exceeds_half _ _).
      + rewrite send_heartbeats_eq. intros H. injection H as <- <-. simpl. intros; lia.
      + intros H. injection H as <- <-. simpl. intros; lia. }
  destruct (String.eqb (m_type m) "append_entries").
  { unfold Node.handle_append_entries.
    destruct (Node.current_term n <? m_term m) eqn:E; simpl.
    - rewrite Nat.leb_refl. simpl. intros H. injection H as <- <-. simpl.
      intros _. repeat split; auto.
    - destruct (Node.current_term n <=? m_term m); simpl.
      + destruct (Node.state n); simpl; intros H; injection H as <- <-; simpl;
          intros; lia.
      + intros H. injection H as <- <-. simpl. intros; lia. }
  intros H. injection H as <- <-. intros; lia.
Qed.

Lemma adoption_makes_follower_witness :
  let n := (Node.start_election 1 200 (Node.init 0 3 (150%Z, 300%Z) 200 0)).1 in
  let r := Node.handle_vote_request 2 (request_vote_from 1 0 4) n in
  Node.state r.1 = FOLLOWER /\ Node.current_term r.1 = 4.
Proof.
  intros n r.
  destruct (adoption_makes_follower 2 (request_vote_from 1 0 4) n r.1 r.2)
    as (H1 & H2 & _).
  - reflexivity.
  - vm_compute. lia.
  - split; [exact H1|exact H2].
Defined.





Lemma draw_in_range (lo hi r : Z) :
  (lo <= r <= hi)%Z -> (lo # 1000 <= r # 1000)%Q /\ (r # 1000 <= hi # 1000)%Q.
Proof. intros H. unfold Qle. simpl. lia. Qed.

Lemma receive_message_timeout now m n n' evs :
  Node.receive_message now m n = Some (n', evs) ->
  Node.election_timeout n' = Node.election_timeout n
  /\ Node.election_timeout_range n' = Node.election_timeout_range n.
Proof.
  unfold Node.receive_message.
  destruct (String.eqb (m_type m) "request_vote").
  { rewrite handle_vote_request_eq. intros H. injection H as <- <-.
    destruct (Node.current_term n <? m_term m); simpl;
      destruct (_ && _); auto. }
  destruct (String.eqb (m_type m) "vote_response").
  { unfold Node.handle_vote_response.
    destruct (negb _); [intros H; injection H as <- <-; auto|].
    destruct (m_vote_granted m) as [vg|]; [|discriminate].
    destruct (Node.current_term n <? m_term m).
    - intros H. injection H as <- <-. auto.
    - destruct (vg && _); [|intros H; injection H as <- <-; auto].
      simpl. destruct (exceeds_half _ _).
      + rewrite send_heartbeats_eq. intros H. injection H as <- <-. auto.
      + intros H. injection H as <- <-. auto. }
  destruct (String.eqb (m_type m) "append_entries").
  { unfold Node.handle_append_entries.
    destruct (Node.current_term n <? m_term m); simpl.
    - rewrite Nat.leb_refl. simpl. intros H. injection H as <- <-. auto.
    - destruct (Node.current_term n <=? m_term m); simpl.
      + destruct (Node.state n); simpl; intros H; injection H as <- <-; auto.
      + intros H. injection H as <- <-. auto. }
  intros H. injection H as <- <-. auto.
Qed.

(** X7: the election timeout of a node always lies in its configured range
    (taken in seconds): the constructor and [start_election] set it to a
    draw from the range, and delivering a message, restoring, failing and
    stopping leave it as it is. *)
Theorem timeout_stays_in_range :
  (forall node_id nodes_count range r now,
     (fst range <= r <= snd range)%Z ->
     timeout_in_range (Node.init node_id nodes_count range r now))
  /\ (forall n current_time now r,
        timeout_in_range n ->
        (fst (Node.election_timeout_range n) <= r <= snd (Node.election_timeout_range n))%Z ->
        timeout_in_range (Node.start_election now r n).1
        /\ timeout_in_range (Node.run_iteration current_time now r n).1)
  /\ (forall n now m n' evs,
        timeout_in_range n -> Node.receive_message now m n = Some (n', evs) ->
        timeout_in_range n')
  /\ (forall n now,
        timeout_in_range n ->
        timeout_in_range (Node.restore now n).1
        /\ timeout_in_range (Node.simulate_failure n).1
        /\ timeout_in_range (Node.stop n)).
Proof.
  split; [|split; [|split]].
  - intros node_id nodes_count range r now Hr. unfold timeout_in_range. simpl.
    now apply draw_in_range.
  - intros n current_time now r Hn Hr.
    assert (Hs : timeout_in_range (Node.start_election now r n).1).
    { unfold timeout_in_range, Node.start_election. rewrite request_votes_eq.
      simpl. now apply draw_in_range. }
    split; [exact Hs|]. unfold Node.run_iteration.
    destruct (NodeState_eqb _ _); [rewrite send_heartbeats_eq; exact Hn|].
    destruct (Qgtb _ _); [exact Hs|exact Hn].
  - intros n now m n' evs Hn H. apply receive_message_timeout in H.
    destruct H as [H1 H2]. unfold timeout_in_range. now rewrite H1, H2.
  - intros n now Hn. unfold Node.restore. destruct (Node.running n); simpl; auto.
Qed.

Lemma timeout_stays_in_range_witness :
  let n := Node.init 0 3 (150%Z, 300%Z) 200 0 in
  timeout_in_range n /\ timeout_in_range (Node.start_election 1 150 n).1.
Proof.
  intros n. destruct timeout_stays_in_range as (Hinit & Hstart & _).
  assert (Hn : timeout_in_range n) by (apply Hinit; simpl; lia).
  split; [exact Hn|].
  destruct (Hstart n 1%Q 1%Q 150%Z Hn) as [H _]; [simpl; lia|exact H].
Defined.

(** * Further properties of the cluster *)

Lemma messages_of_app evs1 evs2 :
  messages_of (evs1 ++ evs2) = messages_of evs1 ++ messages_of evs2.
Proof. unfold messages_of. apply flat_map_app. Qed.

Lemma messages_of_In m evs :
  In m (messages_of evs) ->
  exists i data, In (i, message_sent data) evs /\ m = stamp_from data i.
Proof.
  unfold messages_of. rewrite in_flat_map. intros ([i e] & Hin & Hm).
  destruct e; simpl in Hm; try contradiction.
  destruct Hm as [<-|[]]. eauto.
Qed.

(** X8: the cluster forwards every notification of a node to its own
    observers, in order and one event each, and puts exactly the
    [message_sent] ones into its buffer, in order, each with its ["from"]
    overwritten by the id of the node that published it; nodes and partition
    are untouched. *)
Theorem callback_forwards_and_stamps c evs :
  Cluster.observed (Cluster.publish c evs) = Cluster.observed c ++ events_of evs
  /\ length (events_of evs) = length evs
  /\ Cluster.message_buffer (Cluster.publish c evs)
     = Cluster.message_buffer c ++ messages_of evs
  /\ List.Forall (fun m => exists i data,
                    In (i, message_sent data) evs /\ m = stamp_from data i
                    /\ m_from m = i /\ m_to m = m_to data
                    /\ m_type m = m_type data /\ m_term m = m_term data)
       (messages_of evs)
  /\ Cluster.nodes (Cluster.publish c evs) = Cluster.nodes c
  /\ Cluster.partitioned (Cluster.publish c evs) = Cluster.partitioned c
  /\ Cluster.partition_groups (Cluster.publish c evs) = Cluster.partition_groups c
  /\ Cluster.node_count (Cluster.publish c evs) = Cluster.node_count c.
Proof.
  rewrite publish_eq. simpl. repeat split.
  - unfold events_of. apply length_map.
  - apply List.Forall_forall. intros m Hm.
    destruct (messages_of_In m evs Hm) as (i & data & Hin & ->).
    exists i, data. repeat split. exact Hin.
Qed.

Lemma transport_heartbeats N n :
  Node.id n < N -> Node.nodes_count n = N ->
  List.Forall (transport_message N)
    (map (fun j => stamp_from (heartbeat_message n j) (Node.id n)) (peers n)).
Proof.
  intros Hid Hnc. apply List.Forall_forall. intros m Hm.
  apply in_map_iff in Hm. destruct Hm as (j & <- & Hj).
  apply peers_In in Hj. unfold transport_message. simpl.
  repeat split; try lia. auto.
Qed.

Lemma transport_requests N n :
  Node.id n < N -> Node.nodes_count n = N ->
  List.Forall (transport_message N)
    (map (fun j => stamp_from (request_vote_message n j) (Node.id n)) (peers n)).
Proof.
  intros Hid Hnc. apply List.Forall_forall. intros m Hm.
  apply in_map_iff in Hm. destruct Hm as (j & <- & Hj).
  apply peers_In in Hj. unfold transport_message. simpl.
  repeat split; try lia. auto.
Qed.

Lemma run_iteration_transport N n current_time now r :
  Node.id n < N -> Node.nodes_count n = N ->
  List.Forall (transport_message N)
    (messages_of (Node.run_iteration current_time now r n).2).
Proof.
  intros Hid Hnc. unfold Node.run_iteration.
  destruct (NodeState_eqb _ _).
  - rewrite send_heartbeats_eq. cbn [snd]. rewrite heartbeat_messages.
    now apply transport_heartbeats.
  - destruct (Qgtb _ _); [|constructor].
    unfold Node.start_election. rewrite request_votes_eq. cbn [snd].
    match goal with
    | |- context [request_vote_message ?x] => set (n1 := x)
    end.
    change (messages_of
              (Node.notify_observers n1 (state_change (Node.state n1) (Node.current_term n1))
               ++ map (fun i => (Node.id n1, message_sent (request_vote_message n1 i)))
                    (peers n1)))
      with (messages_of
              (map (fun i => (Node.id n1, message_sent (request_vote_message n1 i)))
                 (peers n1))).
    rewrite requests_messages. now apply transport_requests.
Qed.

Lemma receive_message_transport N m n now n' evs :
  transport_message N m -> Node.id n = m_to m -> Node.nodes_count n = N ->
  Node.receive_message now m n = Some (n', evs) ->
  List.Forall (transport_message N) (messages_of evs).
Proof.
  intros (Hf & Ht & Hne & _) Hid Hnc. unfold Node.receive_message.
  destruct (String.eqb (m_type m) "request_vote").
  { rewrite handle_vote_request_eq. intros H. injection H as <- <-.
    rewrite messages_of_app.
    destruct (Node.current_term n <? m_term m); simpl;
      (constructor; [|constructor]);
      unfold transport_message; simpl; rewrite Hid;
      (repeat split; auto); right; left; (split; [reflexivity|discriminate]). }
  destruct (String.eqb (m_type m) "vote_response").
  { unfold Node.handle_vote_response.
    destruct (negb _); [intros H; injection H as <- <-; constructor|].
    destruct (m_vote_granted m) as [vg|]; [|discriminate].
    destruct (Node.current_term n <? m_term m).
    - intros H. injection H as <- <-. constructor.
    - destruct (vg && _); [|intros H; injection H as <- <-; constructor].
      simpl. destruct (exceeds_half _ _).
      + rewrite send_heartbeats_eq. intros H. injection H as <- <-.
        match goal with
        | |- context [heartbeat_message ?x] => set (nl := x)
        end.
        change (List.Forall (transport_message N)
                  (messages_of
                     (map (fun i => (Node.id nl, message_sent (heartbeat_message nl i)))
                        (peers nl)))).
        rewrite heartbeat_messages. apply transport_heartbeats.
        * simpl. lia.
        * exact Hnc.
      + intros H. injection H as <- <-. constructor. }
  destruct (String.eqb (m_type m) "append_entries").
  { intros H. injection H as H.
    destruct (handle_append_entries_quiet now m n) as (_ & _ & HQ).
    rewrite H in HQ. simpl in HQ. rewrite HQ. constructor. }
  intros H. injection H as <- <-. constructor.
Qed.

Lemma receive_message_raises now m n :
  Node.receive_message now m n = None ->
  m_type m = "vote_response" /\ m_vote_granted m = None.
Proof.
  unfold Node.receive_message.
  destruct (String.eqb (m_type m) "request_vote"); [discriminate|].
  destruct (String.eqb (m_type m) "vote_response") eqn:E.
  - apply String.eqb_eq in E. intros H. split; [exact E|].
    destruct (Node.state n) eqn:Es.
    + destruct (vote_response_candidate_cases m n) as [H1 _].
      rewrite H1 in H by congruence. discriminate.
    + now apply (proj2 (vote_response_candidate_cases m n) Es).
    + destruct (vote_response_candidate_cases m n) as [H1 _].
      rewrite H1 in H by congruence. discriminate.
  - destruct (String.eqb (m_type m) "append_entries"); discriminate.
Qed.

Lemma step_node_count s s' :
  step s s' -> Cluster.node_count (cluster s') = Cluster.node_count (cluster s).
Proof.
  intros H. destruct H; simpl; try reflexivity.
  - unfold Cluster.tick in H.
    destruct (Cluster.nodes c !! i) as [n|]; [|discriminate].
    destruct (Node.running n); [|discriminate].
    destruct (Node.run_iteration current_time now r n) as [n' evs].
    injection H as <-. now rewrite publish_eq.
  - unfold Cluster.deliver in H.
    destruct (Cluster.can_deliver_message c (m_from message) (m_to message)).
    + destruct (Cluster.nodes c !! m_to message) as [n|]; [|discriminate].
      destruct (Node.receive_message now message n) as [[n' evs]|]; [|discriminate].
      injection H as <-. now rewrite publish_eq.
    + now injection H as <-.
  - unfold Cluster.deliver in H0.
    destruct (Cluster.can_deliver_message c (m_from message) (m_to message)).
    + destruct (Cluster.nodes c !! m_to message) as [n|]; [|discriminate].
      destruct (Node.receive_message now message n) as [[n' evs]|]; [|discriminate].
      injection H0 as <-. now rewrite publish_eq.
    + now injection H0 as <-.
  - unfold Cluster.fail_node.
    destruct (node_id <? Cluster.node_count c); [|reflexivity].
    destruct (Cluster.nodes c !! node_id) as [n|]; [|reflexivity].
    destruct (Node.simulate_failure n) as [n' evs]. now rewrite publish_eq.
  - unfold Cluster.restore_node.
    destruct (node_id <? Cluster.node_count c); [|reflexivity].
    destruct (Cluster.nodes c !! node_id) as [n|]; [|reflexivity].
    destruct (Node.restore now n) as [n' evs]. now rewrite publish_eq.
Qed.

Lemma deliver_buffer now m c c' :
  (forall i n, Cluster.nodes c !! i = Some n ->
               Node.id n = i /\ Node.nodes_count n = Cluster.node_count c) ->
  transport_message (Cluster.node_count c) m ->
  Cluster.deliver now m c = Some c' ->
  exists Q, Cluster.message_buffer c' = Cluster.message_buffer c ++ Q
            /\ List.Forall (transport_message (Cluster.node_count c)) Q.
Proof.
  intros Hshape Hm H. unfold Cluster.deliver in H.
  destruct (Cluster.can_deliver_message c (m_from m) (m_to m)).
  - destruct (Cluster.nodes c !! m_to m) as [n|] eqn:Hn; [|discriminate].
    destruct (Node.receive_message now m n) as [[n' evs]|] eqn:R; [|discriminate].
    injection H as <-. rewrite publish_eq. simpl.
    exists (messages_of evs). split; [reflexivity|].
    destruct (Hshape _ _ Hn) as [Hid Hnc].
    now apply (receive_message_transport _ m n now n' evs).
  - injection H as <-. exists []. split; [now rewrite app_nil_r|constructor].
Qed.

Lemma deliver_append_entries_buffer now m c c' :
  m_type m = "append_entries" -> Cluster.deliver now m c = Some c' ->
  Cluster.message_buffer c' = Cluster.message_buffer c.
Proof.
  intros Hty H. unfold Cluster.deliver in H.
  destruct (Cluster.can_deliver_message c (m_from m) (m_to m)).
  - destruct (Cluster.nodes c !! m_to m) as [n|] eqn:Hn; [|discriminate].
    rewrite (receive_append_entries now m n Hty) in H.
    destruct (handle_append_entries_quiet now m n) as (_ & _ & HQ).
    destruct (Node.handle_append_entries now m n) as [n' evs].
    injection H as <-. rewrite publish_eq. simpl in *. rewrite HQ. apply app_nil_r.
  - now injection H as <-.
Qed.

Lemma tick_buffer current_time now r i c c' :
  length (Cluster.nodes c) = Cluster.node_count c ->
  (forall i n, Cluster.nodes c !! i = Some n ->
               Node.id n = i /\ Node.nodes_count n = Cluster.node_count c) ->
  Cluster.tick current_time now r i c = Some c' ->
  exists Q, Cluster.message_buffer c' = Cluster.message_buffer c ++ Q
            /\ List.Forall (transport_message (Cluster.node_count c)) Q.
Proof.
  intros Hlen Hshape H. unfold Cluster.tick in H.
  destruct (Cluster.nodes c !! i) as [n|] eqn:Hn; [|discriminate].
  destruct (Node.running n); [|discriminate].
  pose proof (run_iteration_transport (Cluster.node_count c) n current_time now r) as T.
  destruct (Node.run_iteration current_time now r n) as [n' evs].
  injection H as <-. rewrite publish_eq. simpl.
  exists (messages_of evs). split; [reflexivity|].
  destruct (Hshape _ _ Hn) as [Hid Hnc]. apply T; [|exact Hnc].
  rewrite Hid, <- Hlen. eapply lookup_lt_Some. exact Hn.
Qed.

Lemma fail_node_buffer node_id c :
  Cluster.message_buffer (Cluster.fail_node node_id c) = Cluster.message_buffer c.
Proof.
  unfold Cluster.fail_node.
  destruct (node_id <? Cluster.node_count c); [|reflexivity].
  destruct (Cluster.nodes c !! node_id) as [n|]; [|reflexivity].
  destruct (simulate_failure_quiet n) as (_ & _ & HQ).
  destruct (Node.simulate_failure n) as [n' evs].
  rewrite publish_eq. simpl in *. rewrite HQ. apply app_nil_r.
Qed.

Lemma restore_node_buffer now node_id c :
  Cluster.message_buffer (Cluster.restore_node now node_id c) = Cluster.message_buffer c.
Proof.
  unfold Cluster.restore_node.
  destruct (node_id <? Cluster.node_count c); [|reflexivity].
  destruct (Cluster.nodes c !! node_id) as [n|]; [|reflexivity].
  destruct (restore_quiet now n) as (_ & _ & HQ).
  destruct (Node.restore now n) as [n' evs].
  rewrite publish_eq. simpl in *. rewrite HQ. apply app_nil_r.
Qed.

Lemma step_transport s s' :
  invariant s ->
  List.Forall (transport_message (Cluster.node_count (cluster s))) (in_transit s) ->
  step s s' ->
  List.Forall (transport_message (Cluster.node_count (cluster s'))) (in_transit s').
Proof.
  intros I HT Hst. rewrite (step_node_count _ _ Hst).
  unfold invariant in I. pose proof (inv_length _ _ _ _ I) as Hlen.
  pose proof (inv_shape _ _ _ _ I) as Hshape.
  unfold in_transit in *. destruct Hst; simpl in *.
  - destruct (tick_buffer _ _ _ _ _ _ Hlen Hshape H) as (Q & -> & HQ).
    rewrite app_assoc. apply List.Forall_app. auto.
  - now rewrite app_nil_r.
  - apply List.Forall_cons_iff in HT. destruct HT as [Hm HT].
    destruct (deliver_buffer _ _ _ _ Hshape Hm H) as (Q & -> & HQ).
    rewrite app_assoc. apply List.Forall_app. auto.
  - now rewrite (deliver_append_entries_buffer _ _ _ _ H H0).
  - now rewrite fail_node_buffer.
  - now rewrite restore_node_buffer.
  - exact HT.
  - exact HT.
  - exact HT.
Qed.

Lemma reachable_transport s :
  reachable s ->
  List.Forall (transport_message (Cluster.node_count (cluster s))) (in_transit s).
Proof.
  intros (N & draws & now & H).
  remember (initial N draws now) as s0 eqn:E.
  induction H as [s|s1 s2 s3 H12 IH H23].
  - subst s. constructor.
  - subst s1. apply (step_transport s2 s3); [|now apply IH|exact H23].
    apply reachable_inv. now exists N, draws, now.
Qed.

(** X9: in every state of every run, each message in the transport (the
    buffer and the batch being delivered) goes from one node of the cluster
    to a different one, and is a ["request_vote"], a ["vote_response"] that
    carries its ["vote_granted"] flag, or a ["heartbeat"]; in particular no
    ["append_entries"] or ["append_entries_response"] message is ever in the
    transport. *)
Theorem transport_carries_only_votes_and_heartbeats s :
  reachable s ->
  List.Forall (transport_message (Cluster.node_count (cluster s))) (in_transit s).
Proof. exact (reachable_transport s). Qed.

Lemma transport_carries_only_votes_and_heartbeats_witness :
  List.Forall (transport_message 2) (in_transit election_run).
Proof.
  exact (transport_carries_only_votes_and_heartbeats election_run election_run_reachable).
Defined.

Lemma reachable_deliver_total s now message rest :
  reachable s -> current_messages s = message :: rest ->
  exists c', Cluster.deliver now message (cluster s) = Some c'
             /\ step s (mkSystem c' rest).
Proof.
  intros Hr Hcur.
  pose proof (reachable_transport s Hr) as HT.
  pose proof (reachable_inv s Hr) as I. unfold invariant in I.
  destruct s as [c cur]. simpl in *. subst cur.
  unfold in_transit in HT. simpl in HT.
  apply List.Forall_cons_iff in HT. destruct HT as [(Hf & Ht & _ & Hty) _].
  assert (Hd : exists c', Cluster.deliver now message c = Some c').
  { unfold Cluster.deliver.
    destruct (Cluster.can_deliver_message c (m_from message) (m_to message)); [|eauto].
    destruct (lookup_lt_is_Some_2 (Cluster.nodes c) (m_to message)) as [n Hn].
    { now rewrite (inv_length _ _ _ _ I). }
    rewrite Hn.
    destruct (Node.receive_message now message n) as [[n' evs]|] eqn:R; [eauto|].
    exfalso. apply receive_message_raises in R. destruct R as [R1 R2].
    destruct Hty as [H|[[_ H]|H]]; congruence. }
  destruct Hd as [c' Hd]. exists c'. split; [exact Hd|].
  now apply (step_deliver now).
Qed.

(** X10: the pump never raises in a run: in every reachable state the
    delivery of the next message of the batch succeeds (the destination
    index is in range and the handler finds every key it reads), whatever
    the clock reading, and is a step of the system. *)
Theorem pump_delivery_never_raises s now message rest :
  reachable s -> current_messages s = message :: rest ->
  exists c', Cluster.deliver now message (cluster s) = Some c'
             /\ step s (mkSystem c' rest).
Proof. exact (reachable_deliver_total s now message rest). Qed.

Lemma pump_delivery_never_raises_witness :
  let s := pump_one 1 (tick_one 1 1 200 0 (initial 2 (fun _ => 150%Z) (fun _ => 0%Q))) in
  exists c', Cluster.deliver 5 (request_vote_from 0 1 1) (cluster s) = Some c'
             /\ step s (mkSystem c' []).
Proof.
  intros s.
  apply (pump_delivery_never_raises s 5%Q (request_vote_from 0 1 1) []).
  - exists 2, (fun _ => 150%Z), (fun _ => 0%Q). unfold s.
    eapply steps_trans; [|apply pump_one_steps]. apply tick_one_steps.
  - vm_compute. reflexivity.
Defined.

(** * Further properties of runs *)

(** X11: in every reachable state, when the event stream holds the
    announcement that node [a] became leader of term [t], it also holds
    [a]'s announcement that it became candidate of [t], and the nodes on
    record as having granted [a] their vote for [t], together with [a]
    itself, are strictly more than half of the cluster. *)
Theorem leader_backed_by_majority s a t :
  reachable s ->
  won (Cluster.observed (cluster s)) a t = true ->
  a < Cluster.node_count (cluster s)
  /\ stood (Cluster.observed (cluster s)) a t = true
  /\ Cluster.node_count (cluster s)
     < 2 * length (supporters (Cluster.node_count (cluster s))
                     (Cluster.observed (cluster s)) a t).
Proof.
  intros Hr Hw. apply reachable_inv in Hr. exact (inv_won _ _ _ _ Hr a t Hw).
Qed.

Lemma leader_backed_by_majority_witness :
  stood (Cluster.observed (cluster election_run)) 0 1 = true
  /\ 2 < 2 * length (supporters 2 (Cluster.observed (cluster election_run)) 0 1).
Proof.
  destruct (leader_backed_by_majority election_run 0 1 election_run_reachable)
    as (_ & H1 & H2).
  - vm_compute. reflexivity.
  - split; [exact H1|exact H2].
Defined.

(** X12: over a whole run, with crashes, restores and new elections in
    between, a node never publishes granted vote responses to two different
    candidates for the same term, and never grants a vote for a term in
    which it stood itself. *)
Theorem one_candidate_per_voter_and_term s b a a' t :
  reachable s ->
  voted (Cluster.observed (cluster s)) b a t = true ->
  voted (Cluster.observed (cluster s)) b a' t = true ->
  a = a'.
Proof.
  intros Hr. apply reachable_inv in Hr. apply (inv_one_vote _ _ _ _ Hr).
Qed.

Lemma one_candidate_per_voter_and_term_witness :
  voted (Cluster.observed (cluster election_run)) 1 0 1 = true /\ 0 = 0.
Proof.
  assert (H : voted (Cluster.observed (cluster election_run)) 1 0 1 = true)
    by (vm_compute; reflexivity).
  split; [exact H|].
  exact (one_candidate_per_voter_and_term election_run 1 0 0 1
           election_run_reachable H H).
Defined.

Lemma counted_bound N L P a t : a < N -> 1 + length (counted N L P a t) <= N.
Proof.
  intros Ha.
  assert (H : length (counted N L P a t)
              < length (List.filter (fun _ => true) (seq 0 N))).
  { apply (filter_length_lt _ _ _ a); auto.
    - apply in_seq. lia.
    - now rewrite Nat.eqb_refl. }
  assert (E : forall l : list nat, List.filter (fun _ => true) l = l).
  { induction l as [|x l IH]; simpl; [reflexivity|now rewrite IH]. }
  rewrite E, length_seq in H. lia.
Qed.

(** X13: the roles of the nodes agree with the event stream in every
    reachable state: a node that is leader has announced that it became
    leader of its current term, a node that is candidate has announced its
    candidacy for its current term, and the tally of a candidate never
    exceeds the size of the cluster. *)
Theorem roles_are_announced s i n :
  reachable s -> Cluster.nodes (cluster s) !! i = Some n ->
  (Node.state n = LEADER ->
   won (Cluster.observed (cluster s)) i (Node.current_term n) = true)
  /\ (Node.state n = CANDIDATE ->
      stood (Cluster.observed (cluster s)) i (Node.current_term n) = true
      /\ Node.votes_received n <= Cluster.node_count (cluster s)).
Proof.
  intros Hr Hn. apply reachable_inv in Hr. unfold invariant in Hr. split.
  - apply (inv_leader _ _ _ _ Hr i n Hn).
  - intros Hc. destruct (inv_candidate _ _ _ _ Hr i n Hn Hc) as [H1 H2].
    split; [exact H1|].
    assert (Hi : i < Cluster.node_count (cluster s)).
    { rewrite <- (inv_length _ _ _ _ Hr). eapply lookup_lt_Some. exact Hn. }
    pose proof (counted_bound _ (Cluster.observed (cluster s)) (in_transit s) i
                  (Node.current_term n) Hi).
    lia.
Qed.

Lemma roles_are_announced_witness :
  won (Cluster.observed (cluster election_run)) 0 1 = true.
Proof.
  assert (Hn : exists n, Cluster.nodes (cluster election_run) !! 0 = Some n
                         /\ Node.state n = LEADER /\ Node.current_term n = 1).
  { eexists. split; [vm_compute; reflexivity|]. split; reflexivity. }
  destruct Hn as (n & Hn & Hl & Ht).
  destruct (roles_are_announced election_run 0 n election_run_reachable Hn) as [H _].
  rewrite <- Ht. exact (H Hl).
Defined.

Lemma steps_node_count s s' :
  steps s s' -> Cluster.node_count (cluster s') = Cluster.node_count (cluster s).
Proof.
  induction 1 as [|s1 s2 s3 _ IH Hst]; [reflexivity|].
  now rewrite (step_node_count _ _ Hst).
Qed.

(** X14: no operation adds, removes or renumbers nodes: along a run the
    cluster size stays what it was, and in every reachable state the list of
    nodes has that length, the node at index [i] has id [i], and every
    node's [nodes_count] is the cluster size. *)
Theorem cluster_shape_is_fixed :
  (forall s s', steps s s' ->
     Cluster.node_count (cluster s') = Cluster.node_count (cluster s))
  /\ (forall s, reachable s ->
        length (Cluster.nodes (cluster s)) = Cluster.node_count (cluster s)
        /\ forall i n, Cluster.nodes (cluster s) !! i = Some n ->
             Node.id n = i /\ Node.nodes_count n = Cluster.node_count (cluster s)).
Proof.
  split; [apply steps_node_count|].
  intros s Hr. apply reachable_inv in Hr. unfold invariant in Hr.
  split; [apply (inv_length _ _ _ _ Hr)|apply (inv_shape _ _ _ _ Hr)].
Qed.

Lemma cluster_shape_is_fixed_witness :
  length (Cluster.nodes (cluster election_run)) = Cluster.node_count (cluster election_run)
  /\ Cluster.node_count (cluster election_run) = 2.
Proof.
  destruct cluster_shape_is_fixed as [H1 H2].
  split; [apply (H2 election_run election_run_reachable)|].
  apply (H1 (initial 2 (fun _ => 150%Z) (fun _ => 0%Q)) election_run).
  unfold election_run.
  repeat (eapply steps_trans; [|apply pump_one_steps]).
  apply tick_one_steps.
Defined.

(** * Further properties of partitions and fault injection *)

(** X15: the partition filter is symmetric: a message can go from [a] to
    [b] exactly when one can go from [b] to [a]. *)
Theorem can_deliver_message_symmetric c a b :
  Cluster.can_deliver_message c a b = Cluster.can_deliver_message c b a.
Proof.
  unfold Cluster.can_deliver_message. destruct (negb _); [reflexivity|].
  induction (Cluster.partition_groups c) as [|g gs IH]; simpl; [reflexivity|].
  now rewrite IH, (andb_comm (member a g)).
Qed.

Lemma can_deliver_partition c c' a b :
  Cluster.partitioned c' = Cluster.partitioned c ->
  Cluster.partition_groups c' = Cluster.partition_groups c ->
  Cluster.can_deliver_message c' a b = Cluster.can_deliver_message c a b.
Proof. unfold Cluster.can_deliver_message. now intros -> ->. Qed.

(** X16: installing a partition replaces the previous one instead of adding
    to it; an empty list of groups cuts every node off, even from itself;
    healing makes every pair reachable again whatever was installed, and
    healing twice is the same as once apart from the second
    [network_healed] event.  None of these touches the nodes or the
    buffer. *)
Theorem partition_install_and_heal c groups1 groups2 a b :
  Cluster.can_deliver_message
    (Cluster.create_partition groups2 (Cluster.create_partition groups1 c)) a b
  = Cluster.can_deliver_message (Cluster.create_partition groups2 c) a b
  /\ Cluster.can_deliver_message (Cluster.create_partition [] c) a b = false
  /\ Cluster.can_deliver_message
       (Cluster.heal_partition (Cluster.create_partition groups1 c)) a b = true
  /\ Cluster.partition_groups (Cluster.heal_partition (Cluster.create_partition groups1 c))
     = []
  /\ Cluster.heal_partition (Cluster.heal_partition c)
     = Cluster.notify_observers (Cluster.heal_partition c) network_healed
  /\ Cluster.nodes (Cluster.heal_partition (Cluster.create_partition groups1 c))
     = Cluster.nodes c
  /\ Cluster.message_buffer (Cluster.heal_partition (Cluster.create_partition groups1 c))
     = Cluster.message_buffer c
  /\ Cluster.observed (Cluster.heal_partition (Cluster.create_partition groups1 c))
     = Cluster.observed c ++ [network_partition groups1; network_healed].
Proof.
  repeat split. simpl. now rewrite <- app_assoc.
Qed.

Lemma member_seq x start len : member x (seq start len) = true <-> start <= x < start + len.
Proof. rewrite member_In. apply in_seq. Qed.

(** X17: the partition the visualizer's button installs splits the ids
    [0 .. node_count - 1] into a lower and an upper half: two ids can
    communicate exactly when both lie below [node_count // 2] or both lie
    at or above it and below [node_count].  The upper half holds a strict
    majority of the nodes exactly when [node_count] is odd, and the lower
    half never does. *)
Theorem create_random_partition_halves node_count c a b :
  (Cluster.can_deliver_message (create_random_partition node_count c) a b = true <->
   (a < node_count / 2 /\ b < node_count / 2)
   \/ (node_count / 2 <= a < node_count /\ node_count / 2 <= b < node_count))
  /\ (node_count < 2 * (node_count - node_count / 2) <-> node_count mod 2 = 1)
  /\ 2 * (node_count / 2) <= node_count.
Proof.
  pose proof (Nat.div_mod_eq node_count 2) as Hd.
  pose proof (Nat.mod_upper_bound node_count 2) as Hm.
  split; [|split; lia].
  unfold create_random_partition, Cluster.create_partition,
    Cluster.can_deliver_message. simpl.
  rewrite orb_false_r, orb_true_iff, !andb_true_iff, !member_seq. lia.
Qed.

Lemma create_random_partition_halves_witness :
  let c := create_random_partition 5 (Cluster.init 5 (fun _ => 200%Z) (fun _ => 0%Q)) in
  Cluster.can_deliver_message c 0 1 = true
  /\ Cluster.can_deliver_message c 2 4 = true
  /\ 5 < 2 * (5 - 5 / 2).
Proof.
  intros c.
  destruct (create_random_partition_halves 5
              (Cluster.init 5 (fun _ => 200%Z) (fun _ => 0%Q)) 0 1) as ([_ H1] & [_ H3] & _).
  destruct (create_random_partition_halves 5
              (Cluster.init 5 (fun _ => 200%Z) (fun _ => 0%Q)) 2 4) as ([_ H2] & _).
  split; [apply H1; left; simpl; lia|].
  split; [apply H2; right; simpl; lia|].
  apply H3. reflexivity.
Defined.

(** X18: after [Cluster.stop] every node has [running = False], so no node
    makes another pass of its loop, and the pump starts no new batch; the
    call itself publishes nothing and leaves buffer, partition and all
    other fields of the nodes as they were. *)
Theorem stop_halts_every_node c :
  List.Forall (fun n => Node.running n = false) (Cluster.nodes (Cluster.stop c))
  /\ (forall current_time now r i,
        Cluster.tick current_time now r i (Cluster.stop c) = None)
  /\ Cluster.running (Cluster.stop c) = false
  /\ pump_one 0 (mkSystem (Cluster.stop c) []) = mkSystem (Cluster.stop c) []
  /\ Cluster.observed (Cluster.stop c) = Cluster.observed c
  /\ Cluster.message_buffer (Cluster.stop c) = Cluster.message_buffer c
  /\ Cluster.nodes (Cluster.stop c)
     = map (fun n => Node.set_running n false) (Cluster.nodes c).
Proof.
  assert (HF : List.Forall (fun n => Node.running n = false)
                 (Cluster.nodes (Cluster.stop c))).
  { simpl. apply List.Forall_forall. intros n Hn. apply in_map_iff in Hn.
    destruct Hn as (n0 & <- & _). reflexivity. }
  split; [exact HF|]. split; [|repeat split].
  intros current_time now r i. unfold Cluster.tick.
  destruct (Cluster.nodes (Cluster.stop c) !! i) as [n|] eqn:Hn; [|reflexivity].
  rewrite List.Forall_forall in HF.
  rewrite (HF n); [reflexivity|].
  apply list_elem_of_In. eapply list_elem_of_lookup_2. exact Hn.
Qed.

(** X19: the edge cases of fault injection.  [fail_node] and
    [restore_node] with an id that is not below [node_count] change nothing
    and publish nothing.  [restore_node] on a node that is running leaves
    every node as it is and still publishes [node_restored].  [fail_node] on
    a node that has already failed leaves every node as it is and publishes
    [node_failure] and [node_failed] again. *)
Theorem fault_injection_edge_cases c node_id now :
  (Cluster.node_count c <= node_id ->
   Cluster.fail_node node_id c = c /\ Cluster.restore_node now node_id c = c)
  /\ (forall n,
        node_id < Cluster.node_count c -> Cluster.nodes c !! node_id = Some n ->
        (Node.running n = true ->
         Cluster.restore_node now node_id c
         = Cluster.notify_observers c (node_restored node_id))
        /\ (Node.running n = false ->
            Cluster.nodes (Cluster.fail_node node_id c) = Cluster.nodes c
            /\ Cluster.observed (Cluster.fail_node node_id c)
               = Cluster.observed c
                 ++ [node_event (Node.id n) (node_failure (Node.id n));
                     node_failed node_id])).
Proof.
  split.
  - intros Hge. unfold Cluster.fail_node, Cluster.restore_node.
    assert (E : (node_id <? Cluster.node_count c) = false) by (apply Nat.ltb_ge; lia).
    now rewrite E.
  - intros n Hlt Hn. apply Nat.ltb_lt in Hlt. split; intros Hr.
    + unfold Cluster.restore_node, Node.restore. rewrite Hlt, Hn, Hr. simpl.
      unfold Cluster.set_nodes. rewrite (list_insert_id _ _ _ Hn).
      destruct c; reflexivity.
    + unfold Cluster.fail_node, Node.simulate_failure. rewrite Hlt, Hn. simpl.
      split; [|now rewrite <- app_assoc].
      apply list_insert_id. rewrite Hn. f_equal.
      destruct n. simpl in *. now subst.
Qed.

Lemma fault_injection_edge_cases_witness :
  let c := Cluster.init 3 (fun _ => 200%Z) (fun _ => 0%Q) in
  Cluster.fail_node 3 c = c
  /\ Cluster.restore_node 1 0 c = Cluster.notify_observers c (node_restored 0).
Proof.
  intros c. destruct (fault_injection_edge_cases c 3 1%Q) as [H1 _].
  destruct (fault_injection_edge_cases c 0 1%Q) as [_ H2].
  split.
  - apply H1. simpl. lia.
  - destruct (H2 (Node.init 0 3 (150%Z, 300%Z) 200 0)) as [H _];
      [simpl; lia|reflexivity|].
    apply H. reflexivity.
Defined.

Lemma fail_node_eq c node_id n :
  node_id < Cluster.node_count c -> Cluster.nodes c !! node_id = Some n ->
  Cluster.fail_node node_id c
  = Cluster.mk (Cluster.node_count c)
      (<[node_id := Node.set_running n false]> (Cluster.nodes c))
      (Cluster.message_buffer c) (Cluster.running c) (Cluster.partitioned c)
      (Cluster.partition_groups c)
      (Cluster.observed c
       ++ [node_event (Node.id n) (node_failure (Node.id n)); node_failed node_id]).
Proof.
  intros Hlt Hn. apply Nat.ltb_lt in Hlt.
  unfold Cluster.fail_node, Node.simulate_failure. rewrite Hlt, Hn.
  rewrite publish_eq. unfold Cluster.notify_observers, Cluster.set_nodes.
  cbn [Cluster.node_count Cluster.nodes Cluster.message_buffer Cluster.running
       Cluster.partitioned Cluster.partition_groups Cluster.observed].
  f_equal; [apply app_nil_r|now rewrite <- app_assoc].
Qed.

Lemma restore_node_eq now c node_id n :
  node_id < Cluster.node_count c -> Cluster.nodes c !! node_id = Some n ->
  Node.running n = false ->
  Cluster.restore_node now node_id c
  = Cluster.mk (Cluster.node_count c)
      (<[node_id := Node.set_last_heartbeat
                      (Node.set_voted_for
                         (Node.set_current_term
                            (Node.set_state (Node.set_running n true) FOLLOWER)
                            (Node.current_term n + 1)) None)
                      (now - Node.election_timeout n - 1)%Q]> (Cluster.nodes c))
      (Cluster.message_buffer c) (Cluster.running c) (Cluster.partitioned c)
      (Cluster.partition_groups c)
      (Cluster.observed c
       ++ [node_event (Node.id n) (node_restore (Node.id n)); node_restored node_id]).
Proof.
  intros Hlt Hn Hr. apply Nat.ltb_lt in Hlt.
  unfold Cluster.restore_node, Node.restore. rewrite Hlt, Hn, Hr.
  cbn [negb]. rewrite publish_eq.
  unfold Cluster.notify_observers, Cluster.set_nodes.
  cbn [Cluster.node_count Cluster.nodes Cluster.message_buffer Cluster.running
       Cluster.partitioned Cluster.partition_groups Cluster.observed].
  f_equal; [apply app_nil_r|now rewrite <- app_assoc].
Qed.

(** X20: failing a node and then restoring it, for an id in range: the node
    comes back running as follower with its term one higher, its vote
    cleared and [last_heartbeat] forced into the past, its tally, timeout
    and queue as before; every other node, the buffer and the partition are
    untouched; and exactly four events are published, in the order
    [node_failure], [node_failed], [node_restore], [node_restored]. *)
Theorem fail_then_restore c node_id now n :
  node_id < Cluster.node_count c -> Cluster.nodes c !! node_id = Some n ->
  let c' := Cluster.restore_node now node_id (Cluster.fail_node node_id c) in
  Cluster.nodes c'
  = <[node_id := Node.set_last_heartbeat
                   (Node.set_voted_for
                      (Node.set_current_term (Node.set_state (Node.set_running n true) FOLLOWER)
                         (Node.current_term n + 1)) None)
                   (now - Node.election_timeout n - 1)%Q]> (Cluster.nodes c)
  /\ (forall j, j <> node_id -> Cluster.nodes c' !! j = Cluster.nodes c !! j)
  /\ Cluster.message_buffer c' = Cluster.message_buffer c
  /\ Cluster.partitioned c' = Cluster.partitioned c
  /\ Cluster.partition_groups c' = Cluster.partition_groups c
  /\ Cluster.observed c'
     = Cluster.observed c
       ++ [node_event (Node.id n) (node_failure (Node.id n)); node_failed node_id;
           node_event (Node.id n) (node_restore (Node.id n)); node_restored node_id].
Proof.
  intros Hlt Hn c'. subst c'.
  rewrite (fail_node_eq c node_id n Hlt Hn).
  rewrite (restore_node_eq now _ node_id (Node.set_running n false)); cbn [Cluster.node_count
    Cluster.nodes Cluster.message_buffer Cluster.running Cluster.partitioned
    Cluster.partition_groups Cluster.observed].
  - split; [apply list_insert_insert_eq|]. split.
    { intros j Hj. rewrite list_insert_insert_eq. now apply list_lookup_insert_ne. }
    repeat split. now rewrite <- app_assoc.
  - exact Hlt.
  - now apply lookup_insert_same with (n := n).
  - reflexivity.
Qed.

Lemma fail_then_restore_witness :
  let c := Cluster.init 3 (fun _ => 200%Z) (fun _ => 0%Q) in
  let c' := Cluster.restore_node 5 1 (Cluster.fail_node 1 c) in
  Cluster.message_buffer c' = []
  /\ Cluster.nodes c' !! 0 = Cluster.nodes c !! 0.
Proof.
  intros c c'.
  destruct (fail_then_restore c 1 5%Q (Node.init 1 3 (150%Z, 300%Z) 200 0))
    as (_ & H1 & H2 & _).
  - simpl. lia.
  - reflexivity.
  - split; [exact H2|]. apply H1. lia.
Defined.

(** * Further properties of the pump *)

Lemma delivered_count_app L1 L2 :
  delivered_count (L1 ++ L2) = delivered_count L1 + delivered_count L2.
Proof. unfold delivered_count. now rewrite List.filter_app, length_app. Qed.

Lemma delivered_count_events evs : delivered_count (events_of evs) = 0.
Proof.
  unfold delivered_count, events_of.
  induction evs as [|ev evs IH]; simpl; [reflexivity|exact IH].
Qed.

Lemma deliver_effect now m c c' :
  Cluster.deliver now m c = Some c' ->
  Cluster.partitioned c' = Cluster.partitioned c
  /\ Cluster.partition_groups c' = Cluster.partition_groups c
  /\ delivered_count (Cluster.observed c')
     = delivered_count (Cluster.observed c)
       + (if Cluster.can_deliver_message c (m_from m) (m_to m) then 1 else 0)
  /\ (Cluster.can_deliver_message c (m_from m) (m_to m) = false -> c' = c).
Proof.
  intros H. unfold Cluster.deliver in H.
  destruct (Cluster.can_deliver_message c (m_from m) (m_to m)).
  - destruct (Cluster.nodes c !! m_to m) as [n|]; [|discriminate].
    destruct (Node.receive_message now m n) as [[n' evs]|]; [|discriminate].
    injection H as <-. rewrite publish_eq. simpl.
    rewrite !delivered_count_app, delivered_count_events.
    change (delivered_count [message_delivered m]) with 1.
    repeat split; [lia|discriminate].
  - injection H as <-. repeat split. lia.
Qed.

(** X21: in one batch of the pump, [message_delivered] is published exactly
    once for every message whose two ends share a group of the partition in
    force (every message, when there is none) and never for the others,
    which are dropped without any effect; handling the batch does not
    change the partition. *)
Theorem pump_announces_exactly_the_unblocked calls c c' :
  deliver_all calls c = Some c' ->
  delivered_count (Cluster.observed c')
  = delivered_count (Cluster.observed c) + deliverable_count c (map snd calls)
  /\ Cluster.partitioned c' = Cluster.partitioned c
  /\ Cluster.partition_groups c' = Cluster.partition_groups c
  /\ (deliverable_count c (map snd calls) = 0 -> c' = c).
Proof.
  revert c. induction calls as [|[now m] calls IH]; intros c H; simpl in H.
  - injection H as <-. unfold deliverable_count. simpl. repeat split. lia.
  - destruct (Cluster.deliver now m c) as [c1|] eqn:D; [|discriminate].
    destruct (deliver_effect now m c c1 D) as (Hp & Hg & Hd & Hdrop).
    destruct (IH c1 H) as (IH1 & IH2 & IH3 & IH4).
    assert (Hcount : deliverable_count c1 (map snd calls)
                     = deliverable_count c (map snd calls)).
    { unfold deliverable_count. f_equal. apply List.filter_ext. intros x.
      now apply can_deliver_partition. }
    rewrite Hcount in IH1, IH4.
    unfold deliverable_count in *. simpl.
    destruct (Cluster.can_deliver_message c (m_from m) (m_to m)) eqn:E; simpl.
    + split; [lia|]. split; [congruence|]. split; [congruence|]. intros; lia.
    + split; [lia|]. split; [congruence|]. split; [congruence|].
      intros H0. rewrite (IH4 H0). now apply Hdrop.
Qed.

Lemma pump_announces_exactly_the_unblocked_witness :
  let c := Cluster.create_partition [[0; 1]; [2]]
             (Cluster.init 3 (fun _ => 200%Z) (fun _ => 0%Q)) in
  let calls := [(1%Q, request_vote_from 0 2 1); (2%Q, request_vote_from 0 1 1)] in
  exists c', deliver_all calls c = Some c'
             /\ delivered_count (Cluster.observed c') = 1.
Proof.
  intros c calls.
  assert (H : exists c', deliver_all calls c = Some c').
  { eexists. vm_compute. reflexivity. }
  destruct H as [c' H]. exists c'. split; [exact H|].
  destruct (pump_announces_exactly_the_unblocked calls c c' H) as (Hd & _).
  rewrite Hd. vm_compute. reflexivity.
Defined.

Lemma deliver_all_steps nows batch c c' :
  length nows = length batch ->
  deliver_all (zip nows batch) c = Some c' ->
  steps (mkSystem c batch) (mkSystem c' []).
Proof.
  revert nows c. induction batch as [|m batch IH]; intros nows c Hlen H.
  - destruct nows; [|discriminate]. simpl in H. injection H as <-. apply steps_refl.
  - destruct nows as [|now nows]; [discriminate|]. simpl in H.
    destruct (Cluster.deliver now m c) as [c1|] eqn:D; [|discriminate].
    eapply steps_trans; [apply steps_one, (step_deliver now); exact D|].
    apply (IH nows); [simpl in Hlen; lia|exact H].
Qed.

Lemma deliver_all_total nows batch c :
  length nows = length batch -> reachable (mkSystem c batch) ->
  exists c', deliver_all (zip nows batch) c = Some c'.
Proof.
  revert nows c. induction batch as [|m batch IH]; intros nows c Hlen Hr.
  - destruct nows; [|discriminate]. simpl. eauto.
  - destruct nows as [|now nows]; [discriminate|]. simpl.
    destruct (reachable_deliver_total _ now m batch Hr eq_refl) as (c1 & D & Hst).
    cbn [cluster] in D. rewrite D. apply IH; [simpl in Hlen; lia|].
    eapply reachable_steps; [exact Hr|]. now apply steps_one.
Qed.

(** X22: one pass of [process_messages], from a reachable state in which the
    pump is between batches and the cluster is running, never raises, and
    what it does is a run of the system: the swap of the buffer followed by
    the delivery of each message of the batch in order.  The pass consumes
    the whole batch, so the state it ends in is again between batches. *)
Theorem process_messages_pass_is_a_run nows c :
  reachable (mkSystem c []) ->
  Cluster.running c = true ->
  length nows = length (Cluster.message_buffer c) ->
  exists c', process_messages_pass nows c = Some c'
             /\ steps (mkSystem c []) (mkSystem c' [])
             /\ reachable (mkSystem c' []).
Proof.
  intros Hr Hrun Hlen. unfold process_messages_pass.
  assert (Hswap : step (mkSystem c [])
                    (mkSystem (Cluster.set_message_buffer c []) (Cluster.message_buffer c)))
    by now apply step_swap.
  assert (Hr1 : reachable (mkSystem (Cluster.set_message_buffer c [])
                             (Cluster.message_buffer c))).
  { eapply reachable_steps; [exact Hr|]. now apply steps_one. }
  destruct (deliver_all_total nows _ _ Hlen Hr1) as [c' H].
  exists c'. split; [exact H|].
  assert (Hs : steps (mkSystem c []) (mkSystem c' [])).
  { eapply steps_trans; [apply steps_one; exact Hswap|].
    now apply (deliver_all_steps nows). }
  split; [exact Hs|]. exact (reachable_steps _ _ Hr Hs).
Qed.

Lemma process_messages_pass_is_a_run_witness :
  let c := cluster (tick_one 1 1 200 0 (initial 3 (fun _ => 150%Z) (fun _ => 0%Q))) in
  exists c', process_messages_pass [2%Q; 3%Q] c = Some c'
             /\ steps (mkSystem c []) (mkSystem c' [])
             /\ reachable (mkSystem c' []).
Proof.
  intros c.
  assert (E : tick_one 1 1 200 0 (initial 3 (fun _ => 150%Z) (fun _ => 0%Q))
              = mkSystem c []) by (vm_compute; reflexivity).
  apply (process_messages_pass_is_a_run [2%Q; 3%Q] c).
  - rewrite <- E. exists 3, (fun _ => 150%Z), (fun _ => 0%Q).
    apply tick_one_steps.
  - vm_compute. reflexivity.
  - vm_compute. reflexivity.
Defined.

(** * The log of the visualizer *)

Lemma last_drop {A} (j : nat) (l : list A) : j < length l -> last (drop j l) = last l.
Proof.
  intros Hj. rewrite !last_lookup, lookup_drop, length_drop. f_equal. lia.
Qed.

(** X23: [LogDisplay.add_message] keeps the newest entry last and the buffer
    a suffix of the old buffer with the entry appended; with a positive
    [max_lines] the buffer never holds more than [max_lines] entries; with
    [max_lines = 0] it is never trimmed at all, because [buffer[-0:]] is the
    whole buffer; and the text widget shows exactly the buffer after the
    call whenever it did before. *)
Theorem log_display_add_message timestamp message tag d :
  let d' := LogDisplay.add_message timestamp message tag d in
  let e := (timestamp, message, tag) in
  LogDisplay.max_lines d' = LogDisplay.max_lines d
  /\ last (LogDisplay.buffer d') = Some e
  /\ (exists k, LogDisplay.buffer d' = drop k (LogDisplay.buffer d ++ [e]))
  /\ (0 < LogDisplay.max_lines d ->
      length (LogDisplay.buffer d') <= LogDisplay.max_lines d)
  /\ (LogDisplay.max_lines d = 0 ->
      LogDisplay.buffer d' = LogDisplay.buffer d ++ [e])
  /\ (LogDisplay.text d = flat_map LogDisplay.draw (LogDisplay.buffer d) ->
      LogDisplay.text d' = flat_map LogDisplay.draw (LogDisplay.buffer d')).
Proof.
  intros d' e. unfold d', LogDisplay.add_message. fold e.
  set (b := LogDisplay.buffer d ++ [e]).
  assert (Hb : length b = length (LogDisplay.buffer d) + 1).
  { unfold b. rewrite length_app. simpl. lia. }
  assert (Hlast : last b = Some e) by (unfold b; apply last_snoc).
  destruct (LogDisplay.max_lines d <? length b) eqn:E; simpl.
  - apply Nat.ltb_lt in E. unfold slice_last.
    destruct (LogDisplay.max_lines d =? 0) eqn:E0.
    + apply Nat.eqb_eq in E0.
      split; [reflexivity|]. split; [exact Hlast|]. split; [now exists 0|].
      split; [intros; lia|]. split; reflexivity.
    + apply Nat.eqb_neq in E0.
      split; [reflexivity|]. split; [rewrite last_drop by lia; exact Hlast|].
      split; [eauto|]. split; [intros _; rewrite length_drop; lia|].
      split; [intros; lia|reflexivity].
  - apply Nat.ltb_ge in E.
    split; [reflexivity|]. split; [exact Hlast|]. split; [now exists 0|].
    split; [intros; lia|]. split; [reflexivity|].
    intros ->. unfold b. now rewrite flat_map_app.
Qed.

Lemma log_display_add_message_witness :
  let d := LogDisplay.add_message "10:00:01" "b" None
             (LogDisplay.add_message "10:00:00" "a" None (LogDisplay.init 2)) in
  let d' := LogDisplay.add_message "10:00:02" "c" (Some "leader") d in
  length (LogDisplay.buffer d') <= 2
  /\ LogDisplay.text d' = flat_map LogDisplay.draw (LogDisplay.buffer d')
  /\ LogDisplay.buffer (LogDisplay.add_message "10:00:00" "a" None (LogDisplay.init 0))
     = [("10:00:00", "a", None)].
Proof.
  intros d d'.
  destruct (log_display_add_message "10:00:02" "c" (Some "leader") d)
    as (_ & _ & _ & Hlen & _ & Htext).
  destruct (log_display_add_message "10:00:00" "a" None (LogDisplay.init 0))
    as (_ & _ & _ & _ & H0 & _).
  split; [apply Hlen; simpl; lia|]. split; [apply Htext; reflexivity|].
  apply H0. reflexivity.
Defined.

(** * Who sends heartbeats, and for whom a candidate has voted *)

Lemma heartbeat_events_In (n : Node.t) i m :
  In (i, message_sent m)
     (map (fun j => (Node.id n, message_sent (heartbeat_message n j))) (peers n)) ->
  m_from m = Node.id n /\ m_term m = Node.current_term n.
Proof.
  intros H. apply in_map_iff in H. destruct H as (j & E & _).
  injection E as _ <-. auto.
Qed.

(** X24: only a leader sends heartbeats.  Whenever a pass of a node's loop
    or the delivery of a message publishes a [message_sent] event of type
    ["heartbeat"], the node is leader after that operation, and the
    heartbeat carries the node's id and its current term. *)
Theorem only_leaders_send_heartbeats :
  (forall current_time now r n i m,
     In (i, message_sent m) (Node.run_iteration current_time now r n).2 ->
     m_type m = "heartbeat" ->
     Node.state (Node.run_iteration current_time now r n).1 = LEADER
     /\ m_from m = Node.id n
     /\ m_term m = Node.current_term (Node.run_iteration current_time now r n).1)
  /\ (forall now msg n n' evs i m,
        Node.receive_message now msg n = Some (n', evs) ->
        In (i, message_sent m) evs -> m_type m = "heartbeat" ->
        Node.state n' = LEADER /\ m_from m = Node.id n
        /\ m_term m = Node.current_term n').
Proof.
  split.
  - intros current_time now r n i m. unfold Node.run_iteration.
    destruct (NodeState_eqb (Node.state n) LEADER) eqn:E.
    + apply NodeState_eqb_eq in E. rewrite send_heartbeats_eq. cbn [fst snd].
      intros H _. apply heartbeat_events_In in H. simpl. tauto.
    + destruct (Qgtb _ _); [|intros []].
      unfold Node.start_election. rewrite request_votes_eq. cbn [fst snd].
      intros H Hty. exfalso. apply in_app_or in H. destruct H as [[H|[]]|H].
      * discriminate.
      * apply in_map_iff in H. destruct H as (j & Ej & _).
        injection Ej as _ <-. discriminate.
  - intros now msg n n' evs i m. unfold Node.receive_message.
    destruct (String.eqb (m_type msg) "request_vote").
    { rewrite handle_vote_request_eq. intros H. injection H as <- <-.
      intros H Hty. exfalso. apply in_app_or in H. destruct H as [H|[H|[]]].
      - destruct (Node.current_term n <? m_term msg); [|destruct H].
        destruct H as [H|[]]. discriminate.
      - injection H as _ <-. discriminate. }
    destruct (String.eqb (m_type msg) "vote_response").
    { unfold Node.handle_vote_response.
      destruct (negb _); [intros H; injection H as <- <-; intros []|].
      destruct (m_vote_granted msg) as [vg|]; [|discriminate].
      destruct (Node.current_term n <? m_term msg).
      - intros H. injection H as <- <-. intros [H|[]]. discriminate.
      - destruct (vg && _); [|intros H; injection H as <- <-; intros []].
        simpl. destruct (exceeds_half _ _).
        + rewrite send_heartbeats_eq. intros H. injection H as <- <-.
          intros [H|H] _; [discriminate|].
          match type of H with
          | In _ (map _ (peers ?x)) => apply (heartbeat_events_In x) in H
          end.
          simpl in *. tauto.
        + intros H. injection H as <- <-. intros []. }
    destruct (String.eqb (m_type msg) "append_entries").
    { intros H. injection H as H. intros Hin _. exfalso.
      pose proof (handle_append_entries_events now msg n (i, message_sent m)) as He.
      rewrite H in He. destruct (He Hin) as [t Ht]. discriminate. }
    intros H. injection H as <- <-. intros [].
Qed.

Lemma only_leaders_send_heartbeats_witness :
  let n := Node.set_votes_received (Node.start_election 1 200
             (Node.init 0 3 (150%Z, 300%Z) 200 0)).1 1 in
  exists n' evs,
    Node.receive_message 2 (vote_response_to 1 0 1 true) n = Some (n', evs)
    /\ Node.state n' = LEADER.
Proof.
  intros n.
  assert (H : exists n' evs,
            Node.receive_message 2 (vote_response_to 1 0 1 true) n = Some (n', evs)
            /\ In (0, message_sent (heartbeat_message n 1)) evs).
  { eexists _, _. split; [vm_compute; reflexivity|]. right. left. reflexivity. }
  destruct H as (n' & evs & H & Hin). exists n', evs. split; [exact H|].
  destruct only_leaders_send_heartbeats as [_ Hrecv].
  destruct (Hrecv 2%Q _ n n' evs 0 (heartbeat_message n 1) H Hin eq_refl) as [Hl _].
  exact Hl.
Defined.

Lemma receive_message_self_vote now m n n' evs :
  self_vote n ->
  (m_type m = "request_vote" -> m_from m <> Node.id n) ->
  Node.receive_message now m n = Some (n', evs) ->
  self_vote n' /\ Node.id n' = Node.id n.
Proof.
  intros Hsv Hfrom. unfold Node.receive_message, self_vote in *.
  destruct (String.eqb (m_type m) "request_vote") eqn:Ety.
  { apply String.eqb_eq in Ety. specialize (Hfrom Ety).
    rewrite handle_vote_request_eq. intros H. injection H as <- <-.
    destruct (Node.current_term n <? m_term m).
    - unfold adopt, free_for. simpl. rewrite Nat.leb_refl. simpl.
      split; [congruence|reflexivity].
    - unfold free_for. destruct (Node.voted_for n) as [v|] eqn:Ev.
      + destruct ((Node.current_term n <=? m_term m) && (v =? m_from m)) eqn:G; simpl.
        * split; [|reflexivity]. intros Hs. specialize (Hsv Hs).
          apply andb_true_iff in G. destruct G as [_ G]. apply Nat.eqb_eq in G.
          congruence.
        * split; [|reflexivity]. rewrite Ev. exact Hsv.
      + destruct ((Node.current_term n <=? m_term m) && true); simpl;
          (split; [|reflexivity]); intros Hs; specialize (Hsv Hs); congruence. }
  destruct (String.eqb (m_type m) "vote_response").
  { unfold Node.handle_vote_response.
    destruct (negb _) eqn:Ec; [intros H; injection H as <- <-; auto|].
    apply negb_false_iff, NodeState_eqb_eq in Ec.
    destruct (m_vote_granted m) as [vg|]; [|discriminate].
    destruct (Node.current_term n <? m_term m).
    - intros H. injection H as <- <-. simpl. split; [congruence|reflexivity].
    - destruct (vg && _); [|intros H; injection H as <- <-; auto].
      simpl. destruct (exceeds_half _ _).
      + rewrite send_heartbeats_eq. intros H. injection H as <- <-. simpl.
        split; [|reflexivity]. intros _. apply Hsv. congruence.
      + intros H. injection H as <- <-. simpl. auto. }
  destruct (String.eqb (m_type m) "append_entries").
  { unfold Node.handle_append_entries.
    destruct (Node.current_term n <? m_term m); simpl.
    - rewrite Nat.leb_refl. simpl. intros H. injection H as <- <-. simpl.
      split; [congruence|reflexivity].
    - destruct (Node.current_term n <=? m_term m); simpl.
      + destruct (Node.state n) eqn:Es; simpl; intros H; injection H as <- <-; simpl;
          rewrite ?Es; (split; [|reflexivity]); try congruence; auto.
      + intros H. injection H as <- <-. simpl. auto. }
  intros H. injection H as <- <-. auto.
Qed.

Lemma quiet_self_vote n n' : quiet n n' -> self_vote n -> self_vote n'.
Proof.
  intros (Hid & _ & _ & Hvf & [Hf|(Hs & Ht & _)]) Hsv Hne; [congruence|].
  rewrite (Hvf Ht), Hid. apply Hsv. congruence.
Qed.

Lemma run_iteration_self_vote current_time now r n :
  self_vote n -> self_vote (Node.run_iteration current_time now r n).1.
Proof.
  intros Hsv. unfold Node.run_iteration.
  destruct (NodeState_eqb _ _); [rewrite send_heartbeats_eq; exact Hsv|].
  destruct (Qgtb _ _); [|exact Hsv].
  unfold Node.start_election. rewrite request_votes_eq. intros _. reflexivity.
Qed.

Lemma insert_self_vote (ns : list Node.t) i n n' :
  (forall j m, ns !! j = Some m -> self_vote m) ->
  ns !! i = Some n -> self_vote n' ->
  forall j m, (<[i := n']> ns) !! j = Some m -> self_vote m.
Proof.
  intros Hall Hi Hn' j m Hj.
  destruct (lookup_insert_cases _ _ _ _ _ _ Hi Hj) as [[_ ->]|[_ Hj']]; eauto.
Qed.

Lemma deliver_self_vote now m c c' :
  (forall i n, Cluster.nodes c !! i = Some n -> Node.id n = i) ->
  (m_type m = "request_vote" -> m_from m <> m_to m) ->
  (forall j n, Cluster.nodes c !! j = Some n -> self_vote n) ->
  Cluster.deliver now m c = Some c' ->
  forall j n, Cluster.nodes c' !! j = Some n -> self_vote n.
Proof.
  intros Hid Hfrom Hall H. unfold Cluster.deliver in H.
  destruct (Cluster.can_deliver_message c (m_from m) (m_to m)).
  - destruct (Cluster.nodes c !! m_to m) as [n0|] eqn:Hn; [|discriminate].
    destruct (Node.receive_message now m n0) as [[n' evs]|] eqn:R; [|discriminate].
    injection H as <-. rewrite publish_eq. simpl.
    apply (insert_self_vote _ _ n0); auto.
    apply (receive_message_self_vote now m n0 n' evs); eauto.
    rewrite (Hid _ _ Hn). exact Hfrom.
  - now injection H as <-.
Qed.

Lemma step_self_vote s s' :
  invariant s ->
  List.Forall (transport_message (Cluster.node_count (cluster s))) (in_transit s) ->
  (forall j n, Cluster.nodes (cluster s) !! j = Some n -> self_vote n) ->
  step s s' ->
  forall j n, Cluster.nodes (cluster s') !! j = Some n -> self_vote n.
Proof.
  intros I HT Hall Hst. unfold invariant in I.
  assert (Hid : forall i n, Cluster.nodes (cluster s) !! i = Some n -> Node.id n = i).
  { intros i n Hn. now destruct (inv_shape _ _ _ _ I i n Hn). }
  unfold in_transit in HT. destruct Hst; simpl in *.
  - unfold Cluster.tick in H.
    destruct (Cluster.nodes c !! i) as [n0|] eqn:Hn; [|discriminate].
    destruct (Node.running n0); [|discriminate].
    pose proof (run_iteration_self_vote current_time now r n0 (Hall _ _ Hn)) as Hsv.
    destruct (Node.run_iteration current_time now r n0) as [n' evs].
    injection H as <-. rewrite publish_eq. simpl.
    now apply (insert_self_vote _ _ n0).
  - exact Hall.
  - apply List.Forall_cons_iff in HT. destruct HT as [(_ & _ & Hne & _) _].
    apply (deliver_self_vote now message c c'); auto.
  - apply (deliver_self_vote now message c c'); auto.
    intros Hty. rewrite H in Hty. discriminate.
  - unfold Cluster.fail_node.
    destruct (node_id <? Cluster.node_count c); [|exact Hall].
    destruct (Cluster.nodes c !! node_id) as [n0|] eqn:Hn; [|exact Hall].
    destruct (simulate_failure_quiet n0) as (Hq & _).
    destruct (Node.simulate_failure n0) as [n' evs].
    rewrite publish_eq. simpl.
    apply (insert_self_vote _ _ n0); auto.
    exact (quiet_self_vote _ _ Hq (Hall _ _ Hn)).
  - unfold Cluster.restore_node.
    destruct (node_id <? Cluster.node_count c); [|exact Hall].
    destruct (Cluster.nodes c !! node_id) as [n0|] eqn:Hn; [|exact Hall].
    destruct (restore_quiet now n0) as (Hq & _).
    destruct (Node.restore now n0) as [n' evs].
    rewrite publish_eq. simpl.
    apply (insert_self_vote _ _ n0); auto.
    exact (quiet_self_vote _ _ Hq (Hall _ _ Hn)).
  - exact Hall.
  - exact Hall.
  - intros j n Hj.
    change (map Node.stop (Cluster.nodes c)) with (Node.stop <$> Cluster.nodes c) in Hj.
    rewrite list_lookup_fmap in Hj.
    destruct (Cluster.nodes c !! j) as [n0|] eqn:Hn; [|discriminate].
    injection Hj as <-. exact (Hall _ _ Hn).
Qed.

Lemma reachable_self_vote s :
  reachable s -> forall j m, Cluster.nodes (cluster s) !! j = Some m -> self_vote m.
Proof.
  intros (N & draws & now & H).
  remember (initial N draws now) as s0 eqn:E.
  induction H as [s|s1 s2 s3 H12 IH H23].
  - subst s. simpl. intros j m Hj. apply initial_node_lookup in Hj. subst m.
    intros Hf. exfalso. apply Hf. reflexivity.
  - subst s1.
    assert (Hr2 : reachable s2) by now exists N, draws, now.
    apply (step_self_vote s2 s3).
    + now apply reachable_inv.
    + now apply reachable_transport.
    + apply IH. reflexivity.
    + exact H23.
Qed.

(** X25: in every reachable state a node that is candidate or leader holds
    its own vote: [voted_for] is its own id.  No delivered message can take
    that vote away without making the node a follower. *)
Theorem candidates_and_leaders_vote_for_themselves s i n :
  reachable s -> Cluster.nodes (cluster s) !! i = Some n ->
  Node.state n <> FOLLOWER -> Node.voted_for n = Some i.
Proof.
  intros Hr Hn Hs.
  pose proof (reachable_inv s Hr) as I. unfold invariant in I.
  destruct (inv_shape _ _ _ _ I i n Hn) as [Hid _].
  rewrite <- Hid. exact (reachable_self_vote s Hr i n Hn Hs).
Qed.

Lemma candidates_and_leaders_vote_for_themselves_witness :
  exists n, Cluster.nodes (cluster election_run) !! 0 = Some n
            /\ Node.voted_for n = Some 0.
Proof.
  assert (Hn : exists n, Cluster.nodes (cluster election_run) !! 0 = Some n
                         /\ Node.state n = LEADER).
  { eexists. split; [vm_compute; reflexivity|reflexivity]. }
  destruct Hn as (n & Hn & Hl). exists n. split; [exact Hn|].
  apply (candidates_and_leaders_vote_for_themselves election_run 0 n
           election_run_reachable Hn).
  rewrite Hl. discriminate.
Defined.
